(** * Label resolution and metric aggregation of EuroEval

    A shallow embedding of
    - [src/euroeval/task_utils/sequence_classification.py]
      ([compute_metrics], [get_closest_logprobs_labels],
      [get_closest_word_edit_labels]), and
    - [src/scandeval/benchmark_dataset.py]
      ([BenchmarkDataset._get_closest_word_edit_labels],
      [BenchmarkDataset._compute_metrics]).

    Conventions.
    - A Python [str] is a [string]; one [ascii] stands for one code point
      of the range U+0000..U+00FF (so the letters of the label alphabet,
      including the accented ones, are single characters).
    - A Python exception is a value [Raise e] of the [result] monad.
    - A Python [dict] received from the caller is the list of its items in
      insertion order; a [dict] built by a comprehension is a [gmap], filled
      in iteration order so that a later item overwrites an earlier one.
    - A Python [set] is a [gset]; the element removed by [set.pop()] is
      chosen by the interpreter and is a parameter of the development.
    - Floating point numbers are the kernel's binary64 floats. *)

From Stdlib Require Import NArith Strings.Ascii Strings.String Floats.PrimFloat.
From stdpp Require Import gmap strings list.

Local Open Scope string_scope.

(** ** Exceptions and results *)

Inductive exn : Type :=
| KeyError
| IndexError
| ValueError
| AssertionError
| ZeroDivisionError
| AttributeError
| NaNValueInModelOutput
| LoadError.

Inductive result (A : Type) : Type :=
| Ok (a : A)
| Raise (e : exn).

Arguments Ok {A} a.
Arguments Raise {A} e.

#[global] Instance result_ret : MRet result := λ A, @Ok A.
#[global] Instance result_bind : MBind result :=
  λ A B f m, match m with Ok a => f a | Raise e => Raise e end.
#[global] Instance result_fmap : FMap result :=
  λ A B f m, match m with Ok a => Ok (f a) | Raise e => Raise e end.

Definition is_Ok {A} (r : result A) : Prop :=
  match r with Ok _ => True | Raise _ => False end.

Definition raises {A} (r : result A) : Prop :=
  match r with Ok _ => False | Raise _ => True end.

(** [d[k]] on a mapping that may lack the key. *)
Definition getitem {V} (o : option V) : result V :=
  match o with Some v => Ok v | None => Raise KeyError end.

(** [l[i]] on a list. *)
Definition list_getitem {A} (l : list A) (i : nat) : result A :=
  match l !! i with Some v => Ok v | None => Raise IndexError end.

(** [assert b]. *)
Definition py_assert (b : bool) : result unit :=
  if b then Ok tt else Raise AssertionError.

(** ** Strings *)

(** [str.lower] on U+0000..U+00FF: the capital letters are A..Z, and
    U+00C0..U+00DE without the multiplication sign U+00D7; each has its
    small letter 32 code points further. *)
Definition lower_char (c : ascii) : ascii :=
  let n := N_of_ascii c in
  if ((65 <=? n) && (n <=? 90) || (192 <=? n) && (n <=? 214)
      || (216 <=? n) && (n <=? 222))%N
  then ascii_of_N (n + 32) else c.

Fixpoint lower (s : string) : string :=
  match s with
  | EmptyString => EmptyString
  | String c s' => String (lower_char c) (lower s')
  end.

(** The character class [[a-zæøåüöä]] of the cleaning pattern. *)
Definition label_letter (c : ascii) : bool :=
  let n := N_of_ascii c in
  ((97 <=? n) && (n <=? 122) || (n =? 230) || (n =? 248) || (n =? 229)
   || (n =? 252) || (n =? 246) || (n =? 228))%N.

(** The longest suffix that starts with a label letter. *)
Fixpoint lstrip_non_letters (s : string) : string :=
  match s with
  | EmptyString => EmptyString
  | String c s' => if label_letter c then s else lstrip_non_letters s'
  end.

(** [re.sub(r"^[^a-zæøåüöä]+|[^a-zæøåüöä]+$", "", s)]: the leading run and
    the trailing run of characters outside the class are removed (one run
    when the whole string is outside it). *)
Definition strip_non_letters (s : string) : string :=
  String.rev (lstrip_non_letters (String.rev (lstrip_non_letters s))).

(** [s.startswith(p)]. *)
Definition startswith (s p : string) : bool := String.prefix p s.

(** ["".join(l)]. *)
Definition join (l : list string) : string := String.concat "" l.

(** ** Dictionaries *)

(** Lookup in the items of a dictionary. *)
Fixpoint dict_lookup {V} (d : list (string * V)) (k : string) : option V :=
  match d with
  | [] => None
  | (k', v) :: d' => if decide (k' = k) then Some v else dict_lookup d' k
  end.

(** [d.get(k, default)]. *)
Definition dict_get {V} (d : list (string * V)) (k : string) (default : V) : V :=
  match dict_lookup d k with Some v => v | None => default end.

(** [{k: v for (k, v) in items}]. *)
Definition dict_of_items {V} (items : list (string * V)) : gmap string V :=
  foldl (λ m kv, <[kv.1 := kv.2]> m) ∅ items.

(** ** Configuration (the fields the two files read) *)

Record MetricConfig : Type := {
  name : string;
  huggingface_id : string;
  results_key : string;
  (** keyword arguments handed to the metric as they are *)
  compute_kwargs : list (string * string);
}.

Record Task : Type := { metrics : list MetricConfig }.

Record DatasetConfig : Type := {
  (** class id to English label, in id order *)
  id2label : list (Z * string);
  (** English label to the label of the prompt *)
  prompt_label_mapping : list (string * string);
  task : Task;
}.

(** ** Resolution from log-probabilities *)

(** One generation step: the ranked [(token, logprob)] alternatives. *)
Definition logprob_list : Type := list (string * float).

(** The three messages [get_closest_logprobs_labels] can log. *)
Inductive diagnostic : Type :=
| MultipleCandidates (generated_label : string) (remaining : gset string)
| EmptyOutput (default : string)
| NoCandidateFound (sample : list logprob_list) (default : string).

(** The local variables of the loop over the alternatives of one step,
    and the messages it has logged. *)
Record scan_state : Type := {
  output_label : option string;
  previously_generated_labels : list string;
  logged : list diagnostic;
}.

(** How an iteration of a loop ends. *)
Inductive control : Type := Continue | Break.

(** [english_labels = list(dataset_config.id2label.values())] *)
Definition english_labels (cfg : DatasetConfig) : list string :=
  (id2label cfg).*2.

(** [local_labels = [english2local[lbl].lower() for lbl in english_labels]] *)
Definition local_labels (cfg : DatasetConfig) : result (list string) :=
  mapM (λ lbl, lower <$> getitem (dict_lookup (prompt_label_mapping cfg) lbl))
       (english_labels cfg).

(** [candidate_labels = local_labels + english_labels] *)
Definition candidate_labels (cfg : DatasetConfig) : result (list string) :=
  ll ← local_labels cfg; mret (ll ++ english_labels cfg)%list.

(** The cleaned, non-empty tokens of one step. *)
Definition generated_labels (step : logprob_list) : list string :=
  filter (λ label, label ≠ "")
         ((λ lp, strip_non_letters (lower lp.1)) <$> step).

(** The state at the start of the loop over the alternatives. *)
Definition scan_init : scan_state :=
  {| output_label := None; previously_generated_labels := []; logged := [] |}.

Section LogprobResolver.

(** The element [set.pop()] removes from a set. *)
Variable set_pop : gset string → string.

(** A faithful [set_pop] returns a member of every non-empty set. *)
Definition set_pop_ok : Prop := ∀ X : gset string, X ≠ ∅ → set_pop X ∈ X.

(** [X.pop()]: [KeyError] on the empty set. *)
Definition py_pop (X : gset string) : result (string * gset string) :=
  if decide (X = ∅) then Raise KeyError
  else let x := set_pop X in Ok (x, X ∖ {[x]}).

Variable cfg : DatasetConfig.

(** The candidates (in universe order) that start with the probe. *)
Definition matching_candidates (cands : list string) (probe : string) : list string :=
  filter (λ c, startswith c probe = true) cands.

(** [{english2local.get(c, c) for c in candidate_labels if c.startswith(probe)}] *)
Definition candidate_output_labels (cands : list string) (probe : string) : gset string :=
  list_to_set ((λ c, dict_get (prompt_label_mapping cfg) c c)
                 <$> matching_candidates cands probe).

(** The probe of an iteration: ["".join(previously_generated_labels) +
    generated_label]. *)
Definition probe (st : scan_state) (generated_label : string) : string :=
  join (previously_generated_labels st) +:+ generated_label.

(** One iteration of [for label_idx, generated_label in
    enumerate(generated_labels)]. *)
Definition scan_body (cands : list string) (label_idx : nat)
    (generated_label : string) (st : scan_state) : result (scan_state * control) :=
  let generated_label := probe st generated_label in
  let X := candidate_output_labels cands generated_label in
  if decide (size X = 1) then
    '(x, _) ← py_pop X;
    Ok ({| output_label := Some x;
           previously_generated_labels := previously_generated_labels st;
           logged := logged st |}, Break)
  else if decide (1 < size X) then
    if decide (label_idx = 0) then
      Ok ({| output_label := output_label st;
             previously_generated_labels :=
               (previously_generated_labels st ++ [generated_label])%list;
             logged := logged st |}, Continue)
    else
      '(x, X') ← py_pop X;
      Ok ({| output_label := Some x;
             previously_generated_labels := previously_generated_labels st;
             logged := (logged st ++ [MultipleCandidates generated_label X'])%list |},
          Continue)
  else Ok (st, Continue).

(** The loop over the alternatives, from position [label_idx] on. *)
Fixpoint scan (cands : list string) (label_idx : nat) (gls : list string)
    (st : scan_state) : result scan_state :=
  match gls with
  | [] => Ok st
  | generated_label :: gls' =>
      '(st', c) ← scan_body cands label_idx generated_label st;
      match c with
      | Break => Ok st'
      | Continue => scan cands (S label_idx) gls' st'
      end
  end.

(** The body of [for logprob_list in sample] up to the test of
    [output_label]: the variables are fresh at every step. *)
Definition scan_step (cands : list string) (step : logprob_list) : result scan_state :=
  scan cands 0 (generated_labels step) scan_init.

(** [for logprob_list in sample: ... break]: [Some] label when a step
    resolved, [None] when the loop ran to its end (the [else] branch);
    with the messages logged. *)
Fixpoint scan_sample (cands : list string) (steps : list logprob_list)
    : result (option string * list diagnostic) :=
  match steps with
  | [] => Ok (None, [])
  | step :: steps' =>
      st ← scan_step cands step;
      match output_label st with
      | Some l => Ok (Some (dict_get (prompt_label_mapping cfg) l l), logged st)
      | None =>
          '(out, log) ← scan_sample cands steps';
          Ok (out, (logged st ++ log)%list)
      end
  end.

(** The message of the [else] branch. *)
Definition fallback_message (sample : list logprob_list) (default : string)
    : diagnostic :=
  if decide (length sample = 0) then EmptyOutput default
  else NoCandidateFound sample default.

(** One iteration of [for sample in generation_logprobs]: the label
    appended to [output_labels], with the messages logged. *)
Definition resolve_sample (cands : list string) (sample : list logprob_list)
    : result (string * list diagnostic) :=
  '(out, log) ← scan_sample cands sample;
  match out with
  | Some l => Ok (l, log)
  | None =>
      default ← list_getitem cands 0;
      Ok (default, (log ++ [fallback_message sample default])%list)
  end.

(** [for sample in generation_logprobs: ...], from the labels and the
    messages [acc] collected so far. *)
Fixpoint resolve_samples (cands : list string) (samples : list (list logprob_list))
    (acc : list string * list diagnostic) : result (list string * list diagnostic) :=
  match samples with
  | [] => Ok acc
  | sample :: samples' =>
      '(l, log) ← resolve_sample cands sample;
      resolve_samples cands samples' ((acc.1 ++ [l])%list, (acc.2 ++ log)%list)
  end.

(** The labels returned, with the messages logged on the way. *)
Definition get_closest_logprobs_labels (generation_logprobs : list (list logprob_list))
    : result (list string * list diagnostic) :=
  cands ← candidate_labels cfg;
  '(output_labels, log) ← resolve_samples cands generation_logprobs ([], []);
  _ ← py_assert (bool_decide (length output_labels = length generation_logprobs));
  Ok (output_labels, log).

End LogprobResolver.

(** A [set.pop] that removes the first element of [elements X]. *)
Definition pop_first (X : gset string) : string := default "" (head (elements X)).

(** A [set.pop] that removes the last element of [elements X]. *)
Definition pop_last (X : gset string) : string := default "" (last (elements X)).

(** ** Resolution by edit distance *)

(** [Levenshtein.distance(s1, s2)] with unit weights: the least number of
    single-character insertions, deletions and substitutions. *)
Fixpoint distance (s1 : string) : string → nat :=
  fix distance_s1 (s2 : string) : nat :=
    match s1, s2 with
    | EmptyString, _ => String.length s2
    | _, EmptyString => String.length s1
    | String a s1', String b s2' =>
        Nat.min (distance s1' s2 + 1)
          (Nat.min (distance_s1 s2' + 1)
             (distance s1' s2' + (if decide (a = b) then 0 else 1)))
    end.

(** The scan of [np.argmin] over the rest of a sequence: [best] at index
    [best_i] is the least value so far, [i] the index of the head of [l]. *)
Fixpoint argmin_from (best_i best i : nat) (l : list nat) : nat :=
  match l with
  | [] => best_i
  | x :: l' =>
      if decide (x < best) then argmin_from i x (S i) l'
      else argmin_from best_i best (S i) l'
  end.

(** [np.argmin(l).item()]: the first index of the least value;
    [ValueError] on an empty sequence. *)
Definition np_argmin (l : list nat) : result nat :=
  match l with
  | [] => Raise ValueError
  | x :: l' => Ok (argmin_from 0 x 1 l')
  end.

(** The body of the loop over the predicted labels, shared by both files. *)
Definition closest_label (candidate_labels : list string) (predicted_label : string)
    : result string :=
  let edit_distances :=
    (λ candidate_label, distance (lower predicted_label) (lower candidate_label))
      <$> candidate_labels in
  i ← np_argmin edit_distances;
  list_getitem candidate_labels i.

(** [euroeval.task_utils.sequence_classification.get_closest_word_edit_labels] *)
Definition get_closest_word_edit_labels (generated_sequences : list string)
    (cfg : DatasetConfig) : result (list string) :=
  candidate_labels ←
    mapM (λ lbl, getitem (dict_lookup (prompt_label_mapping cfg) lbl))
         (english_labels cfg);
  mapM (closest_label candidate_labels) generated_sequences.

(** The label at position [i] is a closest one, and the first such. *)
Definition first_closest (candidate_labels : list string) (predicted_label : string)
    (i : nat) (c : string) : Prop :=
  candidate_labels !! i = Some c
  ∧ (∀ j c', candidate_labels !! j = Some c' →
       (distance (lower predicted_label) (lower c)
        ≤ distance (lower predicted_label) (lower c'))%nat)
  ∧ (∀ j c', (j < i)%nat → candidate_labels !! j = Some c' →
       (distance (lower predicted_label) (lower c)
        < distance (lower predicted_label) (lower c'))%nat).

(** ** Metric aggregation *)

(** One prediction or reference: a class id or a label string. *)
Inductive entry : Type :=
| Id (i : Z)
| Label (s : string).

#[global] Instance entry_eq_dec : EqDecision entry.
Proof. solve_decision. Defined.

(** What a model returns for a batch: a list of ids and label strings, or
    one row of class scores per example. [Entries []] and [Scores []] both
    stand for the empty list. *)
Inductive predictions : Type :=
| Entries (l : list entry)
| Scores (rows : list (list float)).

(** The model outputs, or a pair whose first component they are. *)
Inductive model_outputs : Type :=
| Single (p : predictions)
| Pair (first second : predictions).

(** What a metric reports under a key: one score, or one per class. *)
Inductive scores : Type :=
| Scalar (x : float)
| PerClass (xs : list float).

Record BenchmarkConfig : Type := { cache_dir : string }.

Inductive dtype : Type := float64 | int64 | str_.

Definition is_label (e : entry) : bool :=
  match e with Label _ => true | Id _ => false end.

(** [np.asarray(p).dtype]: an empty list gives a float array; a list
    with a string gives a string array; rows of unequal length are refused
    with [ValueError]. *)
Definition asarray_dtype (p : predictions) : result dtype :=
  match p with
  | Entries [] => Ok float64
  | Entries l => Ok (if existsb is_label l then str_ else int64)
  | Scores [] => Ok float64
  | Scores (r :: rows) =>
      if forallb (λ r', bool_decide (length r' = length r)) rows
      then Ok float64 else Raise ValueError
  end.

(** The scan of [np.argmax] over the rest of a row: a NaN is maximal and
    ends the scan; otherwise the first greatest value wins. *)
Fixpoint argmax_from (best_i : nat) (best : float) (i : nat) (l : list float) : nat :=
  match l with
  | [] => best_i
  | x :: l' =>
      if is_nan best then best_i
      else if negb (PrimFloat.leb x best) then argmax_from i x (S i) l'
      else argmax_from best_i best (S i) l'
  end.

Definition row_argmax (row : list float) : result entry :=
  match row with
  | [] => Raise ValueError
  | x :: l => Ok (Id (Z.of_nat (argmax_from 0 x 1 l)))
  end.

(** [np.asarray(p).argmax(axis=-1)] on a float array: [ValueError] when
    the last axis is empty. *)
Definition argmax_last_axis (p : predictions) : result (list entry) :=
  match p with
  | Scores (r :: rows) => mapM row_argmax (r :: rows)
  | _ => Raise ValueError
  end.

(** [predictions = model_outputs] when the array is not a float array
    (a score array always is one). *)
Definition as_entries (p : predictions) : result (list entry) :=
  match p with
  | Entries l => Ok l
  | Scores _ => Raise ValueError
  end.

Definition contains_nan (p : predictions) : bool :=
  match p with
  | Entries _ => false
  | Scores rows => existsb (existsb is_nan) rows
  end.

(** Modelled from the spec: [raise_if_model_output_contains_nan_values] of
    [euroeval/utils.py], which is imported by [sequence_classification.py]
    and is not among the sources. The spec: reject (fail fast) if raw model
    output contains a not-a-number numeric value anywhere. *)
Definition raise_if_model_output_contains_nan_values (model_output : predictions)
    : result unit :=
  if contains_nan model_output then Raise NaNValueInModelOutput else Ok tt.

(** [len(l)] as a float (exact below 2^53). *)
Definition float_of_nat (n : nat) : float :=
  Nat.iter n (λ x, PrimFloat.add x 1%float) 0%float.

(** [sum(scores) / len(scores)], the sum taken from left to right. *)
Definition mean (xs : list float) : result float :=
  match xs with
  | [] => Raise ZeroDivisionError
  | _ => Ok (PrimFloat.div (foldl PrimFloat.add 0%float xs) (float_of_nat (length xs)))
  end.

(** [{v: k for k, v in d.items()}] *)
Definition inverted {K} (d : list (K * string)) : gmap string K :=
  dict_of_items (prod_swap <$> d).

(** [if isinstance(model_outputs, tuple) and len(model_outputs) == 2:
      model_outputs = model_outputs[0]]. The result is no tuple, which is
    what [assert not isinstance(model_outputs, tuple)] requires. *)
Definition model_predictions (model_outputs : model_outputs) : predictions :=
  match model_outputs with Pair first _ => first | Single p => p end.

Section MetricAggregation.

(** The metric library: [evaluate.load(path, cache_dir)] and
    [EvaluationModule.compute(predictions, references, **kwargs)]. *)
Variable EvaluationModule : Type.
Variable evaluate_load : string → string → result EvaluationModule.
Variable metric_compute :
  EvaluationModule → list entry → list entry → list (string * string) →
  result (option (gmap string scores)).

(** [{cfg.name: evaluate.load(...) if cfg.huggingface_id != "" else None
      for cfg in metrics}], from the dictionary [acc] on. *)
Fixpoint load_metrics (cache : string) (cfgs : list MetricConfig)
    (acc : gmap string (option EvaluationModule))
    : result (gmap string (option EvaluationModule)) :=
  match cfgs with
  | [] => Ok acc
  | metric_cfg :: cfgs' =>
      m ← (if decide (huggingface_id metric_cfg ≠ "")
           then Some <$> evaluate_load (huggingface_id metric_cfg) cache
           else Ok None);
      load_metrics cache cfgs' (<[name metric_cfg := m]> acc)
  end.

(** Lines 64 to 68: the predictions read off the model outputs. *)
Definition raw_predictions (model_outputs : predictions) : result (list entry) :=
  model_output_dtype ← asarray_dtype model_outputs;
  match model_output_dtype with
  | float64 => argmax_last_axis model_outputs
  | _ => as_entries model_outputs
  end.

(** [label2id[prompt_label_to_label_mapping[pred.lower()]] if
     isinstance(pred, str) else pred] *)
Definition prediction_id (cfg : DatasetConfig) (pred : entry) : result entry :=
  match pred with
  | Label s =>
      label ← getitem (inverted (prompt_label_mapping cfg) !! lower s);
      Id <$> getitem (inverted (id2label cfg) !! label)
  | Id _ => Ok pred
  end.

(** [label2id[label.lower()] if isinstance(label, str) else label] *)
Definition label_id (cfg : DatasetConfig) (label : entry) : result entry :=
  match label with
  | Label s => Id <$> getitem (inverted (id2label cfg) !! lower s)
  | Id _ => Ok label
  end.

(** Lines 64 to 88: the two lists handed to every metric. *)
Definition normalized_inputs (cfg : DatasetConfig) (model_outputs : predictions)
    (labels : list entry) : result (list entry * list entry) :=
  predictions ← raw_predictions model_outputs;
  _ ← raise_if_model_output_contains_nan_values model_outputs;
  predictions ← mapM (prediction_id cfg) predictions;
  label_ids ← mapM (label_id cfg) labels;
  Ok (predictions, label_ids).

(** [for cfg in dataset_config.task.metrics: ...], from [results] on. *)
Fixpoint run_metrics (loaded : gmap string (option EvaluationModule))
    (predictions label_ids : list entry) (cfgs : list MetricConfig)
    (results : gmap string float) : result (gmap string float) :=
  match cfgs with
  | [] => Ok results
  | cfg :: cfgs' =>
      metric ← getitem (loaded !! name cfg);
      match metric with
      | None => Raise AssertionError
      | Some metric =>
          score_dict ← metric_compute metric predictions label_ids (compute_kwargs cfg);
          match score_dict with
          | Some score_dict =>
              scores ← getitem (score_dict !! results_key cfg);
              scores ← match scores with
                       | PerClass xs => mean xs
                       | Scalar x => Ok x
                       end;
              run_metrics loaded predictions label_ids cfgs' (<[name cfg := scores]> results)
          | None => run_metrics loaded predictions label_ids cfgs' results
          end
      end
  end.

(** The metric of [cfg] is loaded and its computation returns [None]. *)
Definition returns_none (loaded : gmap string (option EvaluationModule))
    (predictions label_ids : list entry) (cfg : MetricConfig) : bool :=
  match loaded !! name cfg with
  | Some (Some metric) =>
      match metric_compute metric predictions label_ids (compute_kwargs cfg) with
      | Ok None => true
      | _ => false
      end
  | _ => false
  end.

(** [euroeval.task_utils.sequence_classification.compute_metrics] *)
Definition compute_metrics (model_outputs_and_labels : model_outputs * list entry)
    (dataset_config : DatasetConfig) (benchmark_config : BenchmarkConfig)
    : result (gmap string float) :=
  let '(model_outputs, labels) := model_outputs_and_labels in
  let model_outputs := model_predictions model_outputs in
  loaded ← load_metrics (cache_dir benchmark_config)
              (metrics (task dataset_config)) ∅;
  '(predictions, label_ids) ← normalized_inputs dataset_config model_outputs labels;
  run_metrics loaded predictions label_ids (metrics (task dataset_config)) ∅.

End MetricAggregation.

(** ** The earlier implementation, [scandeval/benchmark_dataset.py] *)

Module ScandEval.

(** There [id2label] is the list of the labels, indexed by class id. *)
Record DatasetConfig : Type := {
  id2label : list string;
  prompt_label_mapping : list (string * string);
  task : Task;
}.

(** [l.index(x)]: the first position of [x]; [ValueError] when absent. *)
Fixpoint index_from (i : nat) (l : list string) (x : string) : result nat :=
  match l with
  | [] => Raise ValueError
  | y :: l' => if decide (y = x) then Ok i else index_from (S i) l' x
  end.

Definition index (l : list string) (x : string) : result nat := index_from 0 l x.

Section BenchmarkDataset.

Variable EvaluationModule : Type.
Variable evaluate_load : string → string → result EvaluationModule.
Variable metric_compute :
  EvaluationModule → list entry → list entry → list (string * string) →
  result (option (gmap string scores)).

(** Decoding by the tokenizer and removal of the prompt scaffold. *)
Variable Tokenizer : Type.
Variable _extract_raw_predictions :
  DatasetConfig → list (list Z) → Tokenizer → list string.

Record BenchmarkDataset : Type := {
  dataset_config : DatasetConfig;
  benchmark_config : BenchmarkConfig;
  _metrics : gmap string (option EvaluationModule);
}.

(** [BenchmarkDataset.__init__] *)
Definition init (dataset_config : DatasetConfig) (benchmark_config : BenchmarkConfig)
    : result BenchmarkDataset :=
  loaded ← load_metrics EvaluationModule evaluate_load (cache_dir benchmark_config)
              (metrics (task dataset_config)) ∅;
  Ok {| dataset_config := dataset_config;
        benchmark_config := benchmark_config;
        _metrics := loaded |}.

(** [BenchmarkDataset._get_closest_word_edit_labels] *)
Definition _get_closest_word_edit_labels (self : BenchmarkDataset)
    (generated_sequences : list (list Z)) (tokenizer : Tokenizer)
    : result (list string) :=
  let raw_predictions :=
    _extract_raw_predictions (dataset_config self) generated_sequences tokenizer in
  let candidate_labels := id2label (dataset_config self) in
  mapM (closest_label candidate_labels) raw_predictions.

(** [id2label.index(prompt_label_to_label_mapping[x.lower()]) if
     isinstance(x, str) else x] *)
Definition entry_index (cfg : DatasetConfig) (id2label : list string) (x : entry)
    : result entry :=
  match x with
  | Label s =>
      label ← getitem (inverted (prompt_label_mapping cfg) !! lower s);
      (λ i, Id (Z.of_nat i)) <$> index id2label label
  | Id _ => Ok x
  end.

(** The two lists handed to every metric. *)
Definition normalized_inputs (cfg : DatasetConfig) (model_outputs : predictions)
    (labels : list entry) (id2label : list string)
    : result (list entry * list entry) :=
  predictions ← raw_predictions model_outputs;
  predictions ← mapM (entry_index cfg id2label) predictions;
  labels ← mapM (entry_index cfg id2label) labels;
  Ok (predictions, labels).

(** [for cfg in self.dataset_config.task.metrics: ...], from [results] on. *)
Fixpoint run_metrics (loaded : gmap string (option EvaluationModule))
    (predictions labels : list entry) (cfgs : list MetricConfig)
    (results : gmap string scores) : result (gmap string scores) :=
  match cfgs with
  | [] => Ok results
  | cfg :: cfgs' =>
      metric ← getitem (loaded !! name cfg);
      match metric with
      | None => Raise AttributeError
      | Some metric =>
          score_dict ← metric_compute metric predictions labels (compute_kwargs cfg);
          match score_dict with
          | Some score_dict =>
              scores ← getitem (score_dict !! results_key cfg);
              run_metrics loaded predictions labels cfgs' (<[name cfg := scores]> results)
          | None => run_metrics loaded predictions labels cfgs' results
          end
      end
  end.

(** The metric of [cfg] is loaded and its computation returns [None]. *)
Definition returns_none (loaded : gmap string (option EvaluationModule))
    (predictions labels : list entry) (cfg : MetricConfig) : bool :=
  match loaded !! name cfg with
  | Some (Some metric) =>
      match metric_compute metric predictions labels (compute_kwargs cfg) with
      | Ok None => true
      | _ => false
      end
  | _ => false
  end.

(** [BenchmarkDataset._compute_metrics] *)
Definition _compute_metrics (self : BenchmarkDataset)
    (model_outputs_and_labels : predictions * list entry) (id2label : list string)
    : result (gmap string scores) :=
  let '(model_outputs, labels) := model_outputs_and_labels in
  '(predictions, labels) ←
    normalized_inputs (dataset_config self) model_outputs labels id2label;
  run_metrics (_metrics self) predictions labels
    (metrics (task (dataset_config self))) ∅.

End BenchmarkDataset.

End ScandEval.

(** ** The normalisation in the words of the spec *)

(** The key of the last item of [d] whose value is [v]. *)
Fixpoint last_key_of {K} (d : list (K * string)) (v : string) : option K :=
  match d with
  | [] => None
  | (k, v') :: d' =>
      match last_key_of d' v with
      | Some k' => Some k'
      | None => if decide (v' = v) then Some k else None
      end
  end.

(** The localized label to English label mapping. *)
Definition localized_to_english (mapping : list (string * string)) (s : string)
    : option string :=
  last_key_of mapping s.

(** The English label to numeric id mapping. *)
Definition english_to_id (id2label : list (Z * string)) (label : string) : option Z :=
  last_key_of id2label label.

(** A string is lower-cased, mapped through the localized to English
    mapping, then through the English label to numeric id mapping; a
    number passes through unchanged. *)
Definition spec_normalize (cfg : DatasetConfig) (x : entry) : result entry :=
  match x with
  | Label s =>
      label ← getitem (localized_to_english (prompt_label_mapping cfg) (lower s));
      i ← getitem (english_to_id (id2label cfg) label);
      Ok (Id i)
  | Id i => Ok (Id i)
  end.

(** The same without the localized to English step. *)
Definition spec_normalize_english (cfg : DatasetConfig) (x : entry) : result entry :=
  match x with
  | Label s => i ← getitem (english_to_id (id2label cfg) (lower s)); Ok (Id i)
  | Id i => Ok (Id i)
  end.

(** The normalisation where the numeric id of a label is its position in
    the list [id2label]. *)
Definition spec_normalize_by_position (mapping : list (string * string))
    (id2label : list string) (x : entry) : result entry :=
  match x with
  | Label s =>
      label ← getitem (localized_to_english mapping (lower s));
      i ← ScandEval.index id2label label;
      Ok (Id (Z.of_nat i))
  | Id i => Ok (Id i)
  end.

(** ** A metric for the examples *)

(** A metric that reports 1 under ["accuracy"] when the predictions are the
    references, and 0 otherwise. *)
Definition same_lists_metric (_ : unit) (predictions references : list entry)
    (_ : list (string * string)) : result (option (gmap string scores)) :=
  Ok (Some {[ "accuracy" :=
                Scalar (if decide (predictions = references) then 1%float else 0%float) ]}).

Definition accuracy_cfg : MetricConfig :=
  {| name := "accuracy"; huggingface_id := "accuracy";
     results_key := "accuracy"; compute_kwargs := [] |}.

Definition scandeval_sentiment : ScandEval.DatasetConfig :=
  {| ScandEval.id2label := ["negative"; "positive"];
     ScandEval.prompt_label_mapping :=
       [("negative", "negativ"); ("positive", "positiv")];
     ScandEval.task := {| metrics := [accuracy_cfg] |} |}.

Definition scandeval_self : ScandEval.BenchmarkDataset unit :=
  {| ScandEval.dataset_config := scandeval_sentiment;
     ScandEval.benchmark_config := {| cache_dir := ".cache" |};
     ScandEval._metrics := {[ "accuracy" := Some tt ]} |}.
(** ** Reaching a position of the loop over the alternatives *)

(** [runs_on cands i st gls st']: started at position [i] in state [st],
    the loop goes through all of [gls] without a [break] and leaves the
    state [st']. *)
Inductive runs_on (set_pop : gset string → string) (cfg : DatasetConfig)
    (cands : list string) : nat → scan_state → list string → scan_state → Prop :=
| runs_on_nil i st : runs_on set_pop cfg cands i st [] st
| runs_on_cons i st g st' gls st'' :
    scan_body set_pop cfg cands i g st = Ok (st', Continue) →
    runs_on set_pop cfg cands (S i) st' gls st'' →
    runs_on set_pop cfg cands i st (g :: gls) st''.

(** ** Example configurations *)

Definition cfg_yes : DatasetConfig := {|
  id2label := [(0%Z, "yes"); (1%Z, "yellow")];
  prompt_label_mapping := [("yes", "yes"); ("yellow", "yellow")];
  task := {| metrics := [] |} |}.

Definition cfg_capital : DatasetConfig := {|
  id2label := [(0%Z, "Positive")];
  prompt_label_mapping := [("Positive", "positiv")];
  task := {| metrics := [] |} |}.

Definition cfg_sentiment : DatasetConfig := {|
  id2label := [(0%Z, "negative"); (1%Z, "positive")];
  prompt_label_mapping := [("negative", "negativ"); ("positive", "positiv")];
  task := {| metrics := [] |} |}.

(** An example whose first step gives ["ye"] and whose second step gives
    ["l"]. *)
Definition sample_ye_l : list logprob_list :=
  [[("ye", (-0.125)%float)]; [("l", (-0.25)%float)]].

Definition cfg_possible : DatasetConfig := {|
  id2label := [(0%Z, "positive"); (1%Z, "possible")];
  prompt_label_mapping := [("positive", "positive"); ("possible", "possible")];
  task := {| metrics := [] |} |}.

Definition cfg_yesterday : DatasetConfig := {|
  id2label := [(0%Z, "yes"); (1%Z, "yesterday")];
  prompt_label_mapping := [("yes", "yes"); ("yesterday", "yesterday")];
  task := {| metrics := [] |} |}.

(** One step whose alternatives are ["po"] and ["s"]. *)
Definition step_po_s : logprob_list := [("po", (-0.125)%float); ("s", (-2)%float)].

(** One step whose alternatives are ["ye"], ["s"] and ["sterday"]. *)
Definition step_ye_s_sterday : logprob_list :=
  [("ye", (-0.125)%float); ("s", (-2)%float); ("sterday", (-4)%float)].

(** The candidate universe of [cfg_possible]. *)
Definition cands_possible : list string :=
  ["positive"; "possible"; "positive"; "possible"].

(** The state of the loop after the alternative ["po"] of [step_po_s]. *)
Definition st_po : scan_state :=
  {| output_label := None; previously_generated_labels := ["po"]; logged := [] |}.

(** The labels that match the probe ["pos"]. *)
Definition X_pos : gset string := {[ "positive"; "possible" ]}.

(** The candidate universe of [cfg_yesterday]. *)
Definition cands_yesterday : list string := ["yes"; "yesterday"; "yes"; "yesterday"].

(** A mapping that exchanges two labels. *)
Definition cfg_swap : DatasetConfig := {|
  id2label := [(0%Z, "a"); (1%Z, "b")];
  prompt_label_mapping := [("a", "b"); ("b", "a")];
  task := {| metrics := [] |} |}.

(** A metric that computes on the main process only: the module [true]
    is loaded there, the module [false] on another process. *)
Definition main_process_metric (main : bool) (predictions references : list entry)
    (kwargs : list (string * string)) : result (option (gmap string scores)) :=
  if main then same_lists_metric tt predictions references kwargs else Ok None.

Definition f1_cfg : MetricConfig :=
  {| name := "f1"; huggingface_id := "f1";
     results_key := "accuracy"; compute_kwargs := [("average", "macro")] |}.

(** ** The entry point of label extraction *)

Module ModelOutput.

(** [GenerativeModelOutput]: the generated sequences, and the ranked
    log-probabilities when the model reports them. *)
Record t : Type := {
  sequences : list string;
  scores : option (list (list logprob_list));
}.

End ModelOutput.

(** [extract_labels_from_generation]; [input_batch] is not read. *)
Definition extract_labels_from_generation (set_pop : gset string → string)
    (input_batch : list (string * list string)) (model_output : ModelOutput.t)
    (dataset_config : DatasetConfig) : result (list string * list diagnostic) :=
  match ModelOutput.scores model_output with
  | Some generation_logprobs =>
      get_closest_logprobs_labels set_pop dataset_config generation_logprobs
  | None =>
      (λ labels, (labels, [])) <$>
        get_closest_word_edit_labels (ModelOutput.sequences model_output)
          dataset_config
  end.

(** An output label is the image under [english2local.get] of a candidate. *)
Definition from_candidate (cfg : DatasetConfig) (cands : list string)
    (o : option string) : Prop :=
  ∀ x, o = Some x →
    ∃ c, c ∈ cands ∧ x = dict_get (prompt_label_mapping cfg) c c.

(** A prompt label with a capital letter. *)
Definition cfg_capital_prompt : DatasetConfig := {|
  id2label := [(0%Z, "positive")];
  prompt_label_mapping := [("positive", "Positiv")];
  task := {| metrics := [] |} |}.

(** A metric library on a process that is not the main one: loading
    succeeds and no computation has a result. *)
Definition worker_load (_ _ : string) : result unit := Ok tt.

Definition worker_compute (_ : unit) (_ _ : list entry) (_ : list (string * string))
    : result (option (gmap string scores)) :=
  Ok None.

Definition cfg_two_metrics : DatasetConfig := {|
  id2label := [(0%Z, "negative"); (1%Z, "positive")];
  prompt_label_mapping := [("negative", "negativ"); ("positive", "positiv")];
  task := {| metrics := [accuracy_cfg; f1_cfg] |} |}.

(** ** The answer span of a decoded generation (scandeval) *)

Module RawPredictions.

(** The line feed, and the paragraph separator ["\n\n"]. *)
Definition newline_char : ascii := ascii_of_N 10.
Definition newline : string := String newline_char EmptyString.
Definition double_newline : string := String newline_char newline.
Definition colon_char : ascii := ascii_of_N 58.
Definition colon : string := String colon_char EmptyString.

(** The characters of a string. *)
Definition chars (s : string) : list ascii := list_ascii_of_string s.

(** [s.split(sep)] for a non-empty [sep]: the pieces between the
    occurrences of [sep], found from the left without overlap. [skip]
    counts the characters of an occurrence still to be passed over. *)
Fixpoint split_from (sep : string) (skip : nat) (s : string) : list string :=
  match s with
  | EmptyString => [EmptyString]
  | String c s' =>
      match skip with
      | S k => split_from sep k s'
      | 0 =>
          if String.prefix sep s
          then EmptyString :: split_from sep (String.length sep - 1) s'
          else match split_from sep 0 s' with
               | piece :: pieces => String c piece :: pieces
               | [] => [String c EmptyString]
               end
      end
  end.

Definition split (s sep : string) : list string := split_from sep 0 s.

(** [l[-1]] *)
Definition last_item {A} (l : list A) : result A :=
  match last l with Some x => Ok x | None => Raise IndexError end.

(** [str.isspace] on U+0000..U+00FF. *)
Definition is_space (c : ascii) : bool :=
  let n := N_of_ascii c in
  ((9 <=? n) && (n <=? 13) || (28 <=? n) && (n <=? 32) || (n =? 133) || (n =? 160))%N.

Fixpoint lstrip (s : string) : string :=
  match s with
  | EmptyString => EmptyString
  | String c s' => if is_space c then lstrip s' else s
  end.

(** [s.strip()] *)
Definition strip (s : string) : string :=
  String.rev (lstrip (String.rev (lstrip s))).

(** The attributes of the tokenizer that are used. *)
Record Tokenizer : Type := {
  decode : list Z → string;
  bos_token_id : option Z;
  eos_token_id : option Z;
}.

(** The attributes of the dataset configuration that are used; the
    instruction infix counts when it is not the empty string. *)
Record Config : Type := {
  num_few_shot_examples : nat;
  prompt_instruction_infix : string;
}.

(** [[token_id for token_id in completion_ids
      if token_id not in [tokenizer.bos_token_id, tokenizer.eos_token_id]]] *)
Definition completion_ids_list (tokenizer : Tokenizer) (completion_ids : list Z)
    : list Z :=
  filter (λ token_id, Some token_id ≠ bos_token_id tokenizer
                      ∧ Some token_id ≠ eos_token_id tokenizer) completion_ids.

Definition pred_idx (cfg : Config) : nat :=
  if decide (prompt_instruction_infix cfg ≠ "")
  then num_few_shot_examples cfg + 1 + 1
  else num_few_shot_examples cfg + 1.

(** [text.split("\n\n")[pred_idx].split("\n")[-1].split(":")[-1].strip()] *)
Definition answer_span (idx : nat) (text : string) : result string :=
  paragraph ← list_getitem (split text double_newline) idx;
  line ← last_item (split paragraph newline);
  field ← last_item (split line colon);
  Ok (strip field).

(** [BenchmarkDataset._extract_raw_predictions]: an [IndexError] in the
    list comprehension discards it as a whole. *)
Definition _extract_raw_predictions (cfg : Config)
    (generated_sequences : list (list Z)) (tokenizer : Tokenizer)
    : result (list string) :=
  let completion_ids_lists := completion_ids_list tokenizer <$> generated_sequences in
  match mapM (λ ids, answer_span (pred_idx cfg) (decode tokenizer ids))
             completion_ids_lists with
  | Ok answers => Ok answers
  | Raise IndexError =>
      Ok ((λ ids, strip (decode tokenizer ids)) <$> completion_ids_lists)
  | Raise e => Raise e
  end.

(** A tokenizer for the examples: a token id is the code of a character. *)
Definition char_tokenizer : Tokenizer :=
  {| decode := λ ids, string_of_list_ascii ((λ z, ascii_of_N (Z.to_N z)) <$> ids);
     bos_token_id := Some 1%Z;
     eos_token_id := Some 2%Z |}.

(** The token ids of a string, for [char_tokenizer]. *)
Definition encode (s : string) : list Z :=
  (λ c, Z.of_N (N_of_ascii c)) <$> list_ascii_of_string s.

End RawPredictions.

(** ** Further exceptions *)

(** What the code below raises: an exception of [exn], [StopIteration] of
    an exhausted iterator, [RuntimeError] of the tensor library, or
    [InvalidBenchmark] of scandeval with its message. *)
Inductive exception : Type :=
| StopIteration
| RuntimeError
| InvalidBenchmark (message : string)
| Exn (e : exn).

Inductive outcome (A : Type) : Type :=
| Return (a : A)
| Throw (e : exception).
Arguments Return {A} a.
Arguments Throw {A} e.

(** ** The few-shot examples (scandeval) *)

Module FewShot.

(** [it.cycle(labels)]: the items still to come in this round, and the
    saved items, which the next round goes through again. *)
Record cycle : Type := { pending : list string; saved : list string }.

Definition it_cycle (labels : list string) : cycle :=
  {| pending := labels; saved := labels |}.

(** [next(labels)] *)
Definition next (labels : cycle) : outcome (string * cycle) :=
  match pending labels with
  | label :: rest => Return (label, {| pending := rest; saved := saved labels |})
  | [] =>
      match saved labels with
      | label :: rest => Return (label, {| pending := rest; saved := saved labels |})
      | [] => Throw StopIteration
      end
  end.

Section Rows.

(** A row of the training split, with [x["text"]] and [x["label"]]. A
    dataset is the list of its rows; [filter] keeps their order. *)
Variable Row : Type.
Variable row_text : Row → string.
Variable row_label : Row → string.

(** [dataset.select(range(1))[0]]: the first row, [IndexError] without one. *)
Definition first_row (dataset : list Row) : outcome Row :=
  match dataset with
  | example :: _ => Return example
  | [] => Throw (Exn IndexError)
  end.

(** The [while] loop of [_load_prepared_data] that fills
    [few_shot_examples]; [remaining] is
    [num_few_shots - len(few_shot_examples)], which every pass lowers by
    one. The chosen example leaves [shuffled_train] with every row of the
    same text. *)
Fixpoint _load_prepared_data_few_shot_examples (remaining : nat) (labels : cycle)
    (shuffled_train few_shot_examples : list Row) : outcome (list Row) :=
  match remaining with
  | 0 => Return few_shot_examples
  | S remaining' =>
      match next labels with
      | Throw e => Throw e
      | Return (label, labels') =>
          match first_row (filter (λ x, lower (row_label x) = lower label)
                                  shuffled_train) with
          | Throw e => Throw e
          | Return example =>
              _load_prepared_data_few_shot_examples remaining' labels'
                (filter (λ x, row_text x ≠ row_text example) shuffled_train)
                (few_shot_examples ++ [example])
          end
      end
  end.

(** The [while] loop of [_extract_few_shot_examples]: the same without
    the removal from [shuffled_train]. *)
Fixpoint few_shot_examples_loop (remaining : nat) (labels : cycle)
    (shuffled_train few_shot_examples : list Row) : outcome (list Row) :=
  match remaining with
  | 0 => Return few_shot_examples
  | S remaining' =>
      match next labels with
      | Throw e => Throw e
      | Return (label, labels') =>
          match first_row (filter (λ x, lower (row_label x) = lower label)
                                  shuffled_train) with
          | Throw e => Throw e
          | Return example =>
              few_shot_examples_loop remaining' labels' shuffled_train
                (few_shot_examples ++ [example])
          end
      end
  end.

(** [shuffled_train.select(range(num_few_shots)).to_pandas().to_dict("records")],
    of the dataset library and pandas. *)
Variable select_records : list Row → nat → outcome (list Row).

(** [BenchmarkDataset._extract_few_shot_examples] *)
Definition _extract_few_shot_examples (supertask : string) (num_few_shots : nat)
    (task_labels : list string) (shuffled_train : list Row) : outcome (list Row) :=
  if decide (supertask = "sequence-classification")
  then few_shot_examples_loop num_few_shots (it_cycle task_labels) shuffled_train []
  else select_records shuffled_train num_few_shots.

End Rows.

(** A training split for the examples: rows are pairs of a text and a
    label. *)
Definition reviews : list (string * string) :=
  [("bra", "positive"); ("ok", "Positive"); ("nej", "negative"); ("bra", "negative")].

End FewShot.

(** ** The stop-word criterion (scandeval) *)

Module StopWordCriteria.

(** A one-dimensional tensor of token ids is the list of its items, and
    the batch [input_ids] the list of its rows. The object holds the stop
    words. *)
Record t : Type := { stop_word_ids : list (list Z) }.

(** [StopWordCriteria.__init__] *)
Definition init (stop_word_ids : list (list Z)) : t :=
  {| stop_word_ids := stop_word_ids |}.

(** [row[-k:]]: the last [k] items, all items when there are fewer;
    [row[-0:]] is [row[0:]], the whole row. *)
Definition last_items (row : list Z) (k : nat) : list Z :=
  match k with
  | 0 => row
  | S _ => drop (length row - k) row
  end.

(** [a == b] on one-dimensional tensors: item by item for equal sizes; a
    tensor of one item is compared with every item of the other; other
    sizes cannot be broadcast. *)
Definition tensor_eq (a b : list Z) : outcome (list bool) :=
  if decide (length a = length b) then Return (zip_with Z.eqb a b)
  else match a, b with
       | [x], _ => Return (Z.eqb x <$> b)
       | _, [y] => Return ((λ x, Z.eqb x y) <$> a)
       | _, _ => Throw RuntimeError
       end.

(** [torch.all(t).item()] *)
Definition torch_all (t : list bool) : bool := forallb id t.

(** [input_ids[0]] *)
Definition first_row (input_ids : list (list Z)) : outcome (list Z) :=
  match input_ids with
  | row :: _ => Return row
  | [] => Throw (Exn IndexError)
  end.

(** [for stop_word_tensor in self.stop_word_ids: ...] *)
Fixpoint any_stop_word (stop_word_ids : list (list Z)) (input_ids : list (list Z))
    : outcome bool :=
  match stop_word_ids with
  | [] => Return false
  | stop_word_tensor :: stop_word_ids' =>
      match first_row input_ids with
      | Throw e => Throw e
      | Return row =>
          match tensor_eq stop_word_tensor
                  (last_items row (length stop_word_tensor)) with
          | Throw e => Throw e
          | Return equal =>
              if torch_all equal then Return true
              else any_stop_word stop_word_ids' input_ids
          end
      end
  end.

(** [StopWordCriteria.__call__]; the scores are not read. *)
Definition call {Scores : Type} (self : t) (input_ids : list (list Z))
    (scores : Scores) : outcome bool :=
  any_stop_word (stop_word_ids self) input_ids.

End StopWordCriteria.

(** ** The search for a batch size that fits (scandeval) *)

Module BatchSizeSearch.

Definition oom_error : list string :=
  ["CUDA out of memory"; "CUDA error"; "MPS backend out of memory";
   "Too many parallel completions requested."].

(** [sub in s] on strings *)
Fixpoint contains (sub s : string) : bool :=
  String.prefix sub s
  || match s with
     | EmptyString => false
     | String _ s' => contains sub s'
     end.

(** [max(map(len, prepared_dataset["input_ids"]))] *)
Definition max_seq_len_in_dataset (input_ids : list (list Z)) : outcome nat :=
  match input_ids with
  | [] => Throw (Exn ValueError)
  | ids :: input_ids' => Return (foldl Nat.max (length ids) (length <$> input_ids'))
  end.

Section Search.

(** [np.log2(batch_size).astype(int)], of numpy. *)
Variable log2_int : Z → Z.

(** [torch.full(size=(batch_size, max_seq_len_in_dataset), ...)] builds
    the dummy inputs, and [model.generate] runs on them: [None] when it
    returns, [Some message] when it raises an exception [e] with
    [str(e) = message]. *)
Variable Inputs : Type.
Variable torch_full : Z → nat → outcome Inputs.
Variable generate : Inputs → option string.

(** [[batch_size // (2**n) for n in range(1 + log2_int(batch_size))]] *)
Definition batch_sizes (batch_size : Z) : list Z :=
  (λ n, batch_size `div` 2 ^ n)%Z <$> seqZ 0 (1 + log2_int batch_size).

(** [for batch_size in batch_sizes: ... else: raise InvalidBenchmark(...)] *)
Fixpoint try_batch_sizes (max_seq_len : nat) (sizes : list Z) : outcome Z :=
  match sizes with
  | [] => Throw (InvalidBenchmark "GPU out of memory, even with a batch size of 1!")
  | batch_size :: sizes' =>
      match torch_full batch_size max_seq_len with
      | Throw e => Throw e
      | Return dummy_inputs =>
          match generate dummy_inputs with
          | None => Return batch_size
          | Some message =>
              if forallb (λ error, negb (contains error message)) oom_error
              then Throw (InvalidBenchmark message)
              else try_batch_sizes max_seq_len sizes'
          end
      end
  end.

(** The part of [_generate_single_iteration] that finds the largest batch
    size that fits in memory; the result is the new
    [benchmark_config.batch_size]. *)
Definition find_batch_size (input_ids : list (list Z)) (batch_size : Z)
    : outcome Z :=
  match max_seq_len_in_dataset input_ids with
  | Throw e => Throw e
  | Return max_seq_len =>
      match batch_sizes batch_size with
      | [] => Throw (Exn IndexError)
      | sizes => try_batch_sizes max_seq_len sizes
      end
  end.

End Search.

(** A device for the examples: it holds dummy inputs of at most three
    rows. *)
Definition small_device (rows : Z * nat) : option string :=
  if decide (rows.1 ≤ 3)%Z then None else Some "CUDA out of memory. Tried to allocate".

End BatchSizeSearch.

(** * Properties *)

(** ** Results and strings *)

Lemma bind_Ok {A B} (f : A → result B) (m : result A) (b : B) :
  m ≫= f = Ok b ↔ ∃ a, m = Ok a ∧ f a = Ok b.
Proof.
  destruct m as [a|e]; simpl.
  - split; [eauto | by intros (? & [= ->] & ?)].
  - split; [done | by intros (? & ? & ?)].
Qed.

Lemma fmap_Ok {A B} (f : A → B) (m : result A) (b : B) :
  f <$> m = Ok b ↔ ∃ a, m = Ok a ∧ b = f a.
Proof.
  destruct m as [a|e]; simpl.
  - split; [intros [= <-]; eauto | by intros (? & [= ->] & ->)].
  - split; [done | by intros (? & ? & ?)].
Qed.

Lemma mapM_Ok_Forall2 {A B} (f : A → result B) (l : list A) (k : list B) :
  mapM f l = Ok k ↔ Forall2 (λ x y, f x = Ok y) l k.
Proof.
  revert k. induction l as [|x l IH]; intros k; simpl.
  - split; [intros [= <-]; constructor | by inversion 1].
  - rewrite bind_Ok. split.
    + intros (y & Hy & Hk). apply bind_Ok in Hk as (k' & Hk' & [= <-]).
      constructor; [done | by apply IH].
    + inversion 1 as [|? y ? k' Hy Hk']; subst. exists y. split; [done|].
      apply bind_Ok. exists k'. split; [by apply IH | done].
Qed.

Lemma mapM_Ok_length {A B} (f : A → result B) (l : list A) (k : list B) :
  mapM f l = Ok k → length k = length l.
Proof. intros H%mapM_Ok_Forall2. symmetry. by eapply Forall2_length. Qed.

Lemma mapM_is_Ok {A B} (f : A → result B) (l : list A) :
  Forall (λ x, is_Ok (f x)) l → ∃ k, mapM f l = Ok k.
Proof.
  induction 1 as [|x l Hx _ [k Hk]]; simpl; [by eexists|].
  destruct (f x) as [y|]; [|done]. rewrite Hk. by eexists.
Qed.

Lemma lower_char_idem (c : ascii) : lower_char (lower_char c) = lower_char c.
Proof. by destruct c as [[] [] [] [] [] [] [] []]. Qed.

Lemma lower_idem (s : string) : lower (lower s) = lower s.
Proof.
  induction s as [|c s IH]; simpl; [done|]. by rewrite lower_char_idem, IH.
Qed.

(** ** The candidate universe *)

Lemma local_labels_spec (cfg : DatasetConfig) (ll : list string) :
  local_labels cfg = Ok ll ↔
  Forall2 (λ english l, ∃ loc,
             dict_lookup (prompt_label_mapping cfg) english = Some loc ∧ l = lower loc)
          (english_labels cfg) ll.
Proof.
  unfold local_labels. rewrite mapM_Ok_Forall2.
  split; intros H; (eapply Forall2_impl; [exact H|]); intros english l.
  - intros (loc & Hloc & ->)%fmap_Ok. exists loc. split; [|done].
    by destruct (dict_lookup _ _); simplify_eq/=.
  - intros (loc & -> & ->). done.
Qed.

Lemma candidate_labels_Ok (cfg : DatasetConfig) :
  Forall (λ lbl, is_Some (dict_lookup (prompt_label_mapping cfg) lbl))
         (english_labels cfg) →
  ∃ ll, local_labels cfg = Ok ll
    ∧ candidate_labels cfg = Ok (ll ++ english_labels cfg)%list
    ∧ length ll = length (english_labels cfg).
Proof.
  intros Hkeys.
  destruct (mapM_is_Ok
    (λ lbl, lower <$> getitem (dict_lookup (prompt_label_mapping cfg) lbl))
    (english_labels cfg)) as [ll Hll].
  { eapply Forall_impl; [exact Hkeys|]. by intros lbl [loc ->]. }
  exists ll. unfold candidate_labels, local_labels. rewrite Hll.
  split_and!; [done..|]. by apply mapM_Ok_length in Hll.
Qed.

(** C4 (amended). For a dataset whose English labels are all keys of
    [prompt_label_mapping], the candidate universe is built without an
    exception and is the list of the localized labels, lower-cased, in
    [id2label] order, followed by the English labels exactly as [id2label]
    gives them. Every localized entry equals its own lower-casing; the
    whole list does when the English labels are lower-case already. *)
Theorem candidate_labels_localized_lower (cfg : DatasetConfig) :
  Forall (λ lbl, is_Some (dict_lookup (prompt_label_mapping cfg) lbl))
         (english_labels cfg) →
  ∃ ll, candidate_labels cfg = Ok (ll ++ english_labels cfg)%list
    ∧ Forall2 (λ english l, ∃ loc,
                 dict_lookup (prompt_label_mapping cfg) english = Some loc
                 ∧ l = lower loc)
              (english_labels cfg) ll
    ∧ Forall (λ c, lower c = c) ll
    ∧ (Forall (λ c, lower c = c) (english_labels cfg) →
       Forall (λ c, lower c = c) (ll ++ english_labels cfg)%list).
Proof.
  intros Hkeys. destruct (candidate_labels_Ok cfg Hkeys) as (ll & Hll & Hc & _).
  apply local_labels_spec in Hll. exists ll.
  assert (Forall (λ c, lower c = c) ll) as Hlow.
  { clear -Hll. induction Hll as [|e l es ls (loc & _ & ->) _ IH]; constructor;
      [apply lower_idem | done]. }
  split_and!; [done..|]. intros He. by apply Forall_app.
Qed.

Lemma candidate_labels_localized_lower_witness :
  Forall (λ lbl, is_Some (dict_lookup (prompt_label_mapping cfg_sentiment) lbl))
         (english_labels cfg_sentiment)
  ∧ candidate_labels cfg_sentiment
      = Ok ["negativ"; "positiv"; "negative"; "positive"]
  ∧ ∃ ll, candidate_labels cfg_sentiment
            = Ok (ll ++ english_labels cfg_sentiment)%list
    ∧ Forall2 (λ english l, ∃ loc,
                 dict_lookup (prompt_label_mapping cfg_sentiment) english = Some loc
                 ∧ l = lower loc)
              (english_labels cfg_sentiment) ll
    ∧ Forall (λ c, lower c = c) ll
    ∧ (Forall (λ c, lower c = c) (english_labels cfg_sentiment) →
       Forall (λ c, lower c = c) (ll ++ english_labels cfg_sentiment)%list).
Proof.
  assert (Forall (λ lbl, is_Some (dict_lookup (prompt_label_mapping cfg_sentiment) lbl))
                 (english_labels cfg_sentiment)) as Hkeys.
  { repeat constructor; eexists; reflexivity. }
  split; [exact Hkeys|]. split; [reflexivity|].
  exact (candidate_labels_localized_lower cfg_sentiment Hkeys).
Defined.

(** C4 (as stated) fails: an English label with a capital letter enters
    the candidate universe unchanged. *)
Lemma candidate_labels_keeps_english_case :
  candidate_labels cfg_capital = Ok ["positiv"; "Positive"]
  ∧ ¬ Forall (λ c, lower c = c) ["positiv"; "Positive"].
Proof.
  split; [reflexivity|].
  intros H. apply Forall_cons in H as [_ H]. apply Forall_cons in H as [H _].
  discriminate H.
Qed.

(** ** The resolver returns one label per example *)

Section LogprobFacts.

Variable set_pop : gset string → string.
Variable cfg : DatasetConfig.

Lemma py_pop_nonempty (X : gset string) :
  X ≠ ∅ → py_pop set_pop X = Ok (set_pop X, X ∖ {[set_pop X]}).
Proof. intros HX. unfold py_pop. by destruct (decide (X = ∅)). Qed.

Lemma size_pos_nonempty (X : gset string) : 0 < size X → X ≠ ∅.
Proof. intros Hs ->. rewrite size_empty in Hs. lia. Qed.

Lemma scan_body_Ok cands i g st :
  ∃ st' c, scan_body set_pop cfg cands i g st = Ok (st', c).
Proof.
  unfold scan_body.
  destruct (decide (size _ = 1)) as [H1|H1].
  { rewrite py_pop_nonempty by (apply size_pos_nonempty; lia). simpl. eauto. }
  destruct (decide (1 < size _)) as [H2|H2]; [|eauto].
  destruct (decide (i = 0)); [eauto|].
  rewrite py_pop_nonempty by (apply size_pos_nonempty; lia). simpl. eauto.
Qed.

Lemma scan_Ok cands gls : ∀ i st, ∃ st', scan set_pop cfg cands i gls st = Ok st'.
Proof.
  induction gls as [|g gls IH]; intros i st; simpl; [eauto|].
  destruct (scan_body_Ok cands i g st) as (st' & c & ->). simpl.
  destruct c; [apply IH | eauto].
Qed.

Lemma scan_sample_Ok cands sample :
  ∃ out log, scan_sample set_pop cfg cands sample = Ok (out, log).
Proof.
  induction sample as [|step sample (out & log & IH)]; simpl; [eauto|].
  unfold scan_step. destruct (scan_Ok cands (generated_labels step) 0 scan_init)
    as [st ->]. simpl.
  destruct (output_label st); [eauto|]. rewrite IH. simpl. eauto.
Qed.

Lemma resolve_sample_Ok cands sample :
  cands ≠ [] → ∃ l log, resolve_sample set_pop cfg cands sample = Ok (l, log).
Proof.
  intros Hne. unfold resolve_sample.
  destruct (scan_sample_Ok cands sample) as (out & log & ->). simpl.
  destruct out; [eauto|]. destruct cands; [done|]. simpl. eauto.
Qed.

Lemma resolve_samples_spec cands samples : ∀ acc out log,
  resolve_samples set_pop cfg cands samples acc = Ok (out, log) ↔
  ∃ rs, mapM (resolve_sample set_pop cfg cands) samples = Ok rs
    ∧ out = (acc.1 ++ rs.*1)%list ∧ log = (acc.2 ++ mjoin (rs.*2))%list.
Proof.
  induction samples as [|sample samples IH]; intros [accl acclog] out log; simpl.
  - split.
    + intros [= <- <-]. exists []. by rewrite !app_nil_r.
    + intros (rs & [= <-] & -> & ->). by rewrite !app_nil_r.
  - destruct (resolve_sample set_pop cfg cands sample) as [[l lg]|e]; simpl.
    + rewrite IH. simpl. split.
      * intros (rs & -> & -> & ->). exists ((l, lg) :: rs). simpl.
        by rewrite <-!app_assoc.
      * intros (rs' & Hrs & -> & ->).
        apply bind_Ok in Hrs as (rs & -> & [= <-]). exists rs. simpl.
        by rewrite <-!app_assoc.
    + split; [done | by intros (? & ? & _)].
Qed.

Lemma get_closest_logprobs_labels_spec cands batch :
  candidate_labels cfg = Ok cands → cands ≠ [] →
  ∃ rs, mapM (resolve_sample set_pop cfg cands) batch = Ok rs
    ∧ get_closest_logprobs_labels set_pop cfg batch = Ok (rs.*1, mjoin (rs.*2)).
Proof.
  intros Hc Hne.
  destruct (mapM_is_Ok (resolve_sample set_pop cfg cands) batch) as [rs Hrs].
  { apply Forall_forall. intros sample _.
    by destruct (resolve_sample_Ok cands sample Hne) as (l & lg & ->). }
  exists rs. split; [done|].
  unfold get_closest_logprobs_labels. rewrite Hc. simpl.
  assert (resolve_samples set_pop cfg cands batch ([], [])
            = Ok (rs.*1, mjoin (rs.*2))) as ->.
  { apply resolve_samples_spec. eauto. }
  simpl. apply mapM_Ok_length in Hrs.
  rewrite bool_decide_true; [done|]. by rewrite length_fmap.
Qed.

End LogprobFacts.

(** C2. For every batch, [get_closest_logprobs_labels] returns without an
    exception a list with one label per example, for a dataset that has a
    label and maps every English label to a prompt label. *)
Theorem get_closest_logprobs_labels_length (set_pop : gset string → string)
    (cfg : DatasetConfig) (batch : list (list logprob_list)) :
  english_labels cfg ≠ [] →
  Forall (λ lbl, is_Some (dict_lookup (prompt_label_mapping cfg) lbl))
         (english_labels cfg) →
  ∃ labels log,
    get_closest_logprobs_labels set_pop cfg batch = Ok (labels, log)
    ∧ length labels = length batch.
Proof.
  intros Hne Hkeys.
  destruct (candidate_labels_Ok cfg Hkeys) as (ll & _ & Hc & _).
  destruct (get_closest_logprobs_labels_spec set_pop cfg _ batch Hc)
    as (rs & Hrs & ->).
  { destruct (english_labels cfg); [done | by destruct ll]. }
  eexists _, _. split; [done|].
  rewrite length_fmap. by apply mapM_Ok_length in Hrs.
Qed.

Lemma get_closest_logprobs_labels_length_witness :
  english_labels cfg_yes ≠ []
  ∧ Forall (λ lbl, is_Some (dict_lookup (prompt_label_mapping cfg_yes) lbl))
           (english_labels cfg_yes)
  ∧ ∃ labels log,
      get_closest_logprobs_labels pop_first cfg_yes [sample_ye_l; []] = Ok (labels, log)
      ∧ length labels = length [sample_ye_l; []].
Proof.
  assert (english_labels cfg_yes ≠ []) as Hne by discriminate.
  assert (Forall (λ lbl, is_Some (dict_lookup (prompt_label_mapping cfg_yes) lbl))
                 (english_labels cfg_yes)) as Hkeys.
  { repeat constructor; eexists; reflexivity. }
  split_and!; [exact Hne | exact Hkeys |].
  exact (get_closest_logprobs_labels_length pop_first cfg_yes [sample_ye_l; []]
           Hne Hkeys).
Defined.

(** ** The accumulator lives for one step *)

(** C1 (the code at the failing input). With the labels ["yes"] and
    ["yellow"], a first step ["ye"] and a second step ["l"]: the token of
    the first step is a prefix of both labels, the two tokens together are
    a prefix of ["yellow"] only, and the resolver returns the default
    ["yes"], having found no candidate. *)
Theorem accumulator_is_reset_at_each_step (set_pop : gset string → string) :
  candidate_labels cfg_yes = Ok ["yes"; "yellow"; "yes"; "yellow"]
  ∧ candidate_output_labels cfg_yes ["yes"; "yellow"; "yes"; "yellow"] "ye"
      = {[ "yes"; "yellow" ]}
  ∧ candidate_output_labels cfg_yes ["yes"; "yellow"; "yes"; "yellow"] "yel"
      = {[ "yellow" ]}
  ∧ get_closest_logprobs_labels set_pop cfg_yes [sample_ye_l]
      = Ok (["yes"], [NoCandidateFound sample_ye_l "yes"]).
Proof. split_and!; by vm_compute. Qed.

(** ** The default label *)

Section FallbackFacts.

Variable set_pop : gset string → string.
Variable cfg : DatasetConfig.

(** An iteration that leaves no output label has logged nothing and
    started without one. *)
Lemma scan_body_None cands i g st st' c :
  scan_body set_pop cfg cands i g st = Ok (st', c) →
  output_label st' = None →
  output_label st = None ∧ logged st' = logged st.
Proof.
  unfold scan_body.
  destruct (decide (size _ = 1)).
  { intros ((x & X') & _ & [= <- <-])%bind_Ok. done. }
  destruct (decide (1 < size _)); [|by intros [= <- <-]].
  destruct (decide (i = 0)); [by intros [= <- <-]|].
  intros ((x & X') & _ & [= <- <-])%bind_Ok. done.
Qed.

Lemma scan_None cands gls : ∀ i st st',
  scan set_pop cfg cands i gls st = Ok st' →
  output_label st' = None →
  output_label st = None ∧ logged st' = logged st.
Proof.
  induction gls as [|g gls IH]; intros i st st'; simpl.
  { by intros [= <-]. }
  intros ((st1 & c) & Hbody & Hrest)%bind_Ok Hnone.
  destruct c.
  - destruct (IH _ _ _ Hrest Hnone) as [Hn1 Hl1].
    destruct (scan_body_None _ _ _ _ _ _ Hbody Hn1) as [Hn Hl].
    split; [done | congruence].
  - injection Hrest as <-. eauto using scan_body_None.
Qed.

Lemma scan_sample_unresolved cands sample :
  Forall (λ step, output_label <$> scan_step set_pop cfg cands step = Ok None) sample →
  scan_sample set_pop cfg cands sample = Ok (None, []).
Proof.
  induction 1 as [|step sample Hstep _ IH]; simpl; [done|].
  apply fmap_Ok in Hstep as (st & Hst & Hnone). rewrite Hst. simpl.
  rewrite <-Hnone, IH. simpl.
  destruct (scan_None _ _ _ _ _ Hst) as [_ ->]; [done|]. done.
Qed.

Lemma resolve_sample_unresolved cands default sample :
  cands !! 0 = Some default →
  Forall (λ step, output_label <$> scan_step set_pop cfg cands step = Ok None) sample →
  resolve_sample set_pop cfg cands sample
    = Ok (default, [fallback_message sample default]).
Proof.
  intros Hd Hs. unfold resolve_sample.
  rewrite (scan_sample_unresolved _ _ Hs). simpl.
  unfold list_getitem. by rewrite Hd.
Qed.

(** A step none of whose cleaned tokens is a prefix of a candidate leaves
    the loop as it entered it. *)
Lemma scan_no_match cands gls : ∀ i st,
  previously_generated_labels st = [] →
  Forall (λ g, Forall (λ c, startswith c g = false) cands) gls →
  scan set_pop cfg cands i gls st = Ok st.
Proof.
  induction gls as [|g gls IH]; intros i st Hprev Hno; simpl; [done|].
  apply Forall_cons in Hno as [Hg Hno].
  assert (candidate_output_labels cfg cands (probe st g) = ∅) as HX.
  { unfold candidate_output_labels, matching_candidates, probe.
    rewrite Hprev. change (join [] +:+ g) with g.
    replace (filter _ cands) with (@nil string); [done|].
    clear -Hg. induction Hg as [|c cands Hc _ IH]; [done|].
    rewrite filter_cons_False; [done | by rewrite Hc]. }
  unfold scan_body. rewrite HX, size_empty. simpl. by apply IH.
Qed.

Lemma scan_step_no_match cands step :
  Forall (λ g, Forall (λ c, startswith c g = false) cands) (generated_labels step) →
  output_label <$> scan_step set_pop cfg cands step = Ok None.
Proof. intros H. unfold scan_step. by rewrite scan_no_match. Qed.

End FallbackFacts.

(** C7. An example none of whose steps resolves a label (an example
    without steps among them) gets the first entry of the candidate
    universe, and a message is logged: one for the empty example, another
    for the example whose tokens matched no candidate. *)
Theorem unresolved_sample_gets_first_candidate (set_pop : gset string → string)
    (cfg : DatasetConfig) (cands : list string) (default : string)
    (batch : list (list logprob_list)) (i : nat) (sample : list logprob_list) :
  candidate_labels cfg = Ok cands →
  cands !! 0 = Some default →
  batch !! i = Some sample →
  Forall (λ step, output_label <$> scan_step set_pop cfg cands step = Ok None) sample →
  ∃ labels log,
    get_closest_logprobs_labels set_pop cfg batch = Ok (labels, log)
    ∧ labels !! i = Some default
    ∧ match sample with
      | [] => EmptyOutput default
      | _ => NoCandidateFound sample default
      end ∈ log.
Proof.
  intros Hc Hd Hi Hs.
  destruct (get_closest_logprobs_labels_spec set_pop cfg cands batch Hc)
    as (rs & Hrs & ->).
  { by intros ->. }
  eexists _, _. split; [done|].
  apply mapM_Ok_Forall2 in Hrs.
  destruct (Forall2_lookup_l _ _ _ _ _ Hrs Hi) as ([l lg] & Hri & Hr).
  rewrite (resolve_sample_unresolved set_pop cfg cands default sample Hd Hs) in Hr.
  injection Hr as <- <-. split.
  - by rewrite list_lookup_fmap, Hri.
  - apply list_elem_of_join. exists [fallback_message sample default]. split.
    + unfold fallback_message. destruct sample; simpl; apply list_elem_of_singleton; done.
    + apply list_elem_of_fmap. exists (default, [fallback_message sample default]).
      split; [done|]. by eapply list_elem_of_lookup_2.
Qed.

Lemma unresolved_sample_gets_first_candidate_witness :
  candidate_labels cfg_yes = Ok ["yes"; "yellow"; "yes"; "yellow"]
  ∧ ["yes"; "yellow"; "yes"; "yellow"] !! 0 = Some "yes"
  ∧ [[]; sample_ye_l] !! 1 = Some sample_ye_l
  ∧ Forall (λ step, output_label <$>
              scan_step pop_first cfg_yes ["yes"; "yellow"; "yes"; "yellow"] step
              = Ok None) sample_ye_l
  ∧ ∃ labels log,
      get_closest_logprobs_labels pop_first cfg_yes [[]; sample_ye_l] = Ok (labels, log)
      ∧ labels !! 1 = Some "yes"
      ∧ NoCandidateFound sample_ye_l "yes" ∈ log.
Proof.
  assert (Forall (λ step, output_label <$>
              scan_step pop_first cfg_yes ["yes"; "yellow"; "yes"; "yellow"] step
              = Ok None) sample_ye_l) as Hs.
  { repeat constructor. }
  split_and!; [reflexivity | reflexivity | reflexivity | exact Hs |].
  exact (unresolved_sample_gets_first_candidate pop_first cfg_yes
           ["yes"; "yellow"; "yes"; "yellow"] "yes" [[]; sample_ye_l] 1 sample_ye_l
           eq_refl eq_refl eq_refl Hs).
Defined.

(** ** An ambiguous alternative after the first *)

Lemma pop_first_ok : set_pop_ok pop_first.
Proof.
  intros X HX. unfold pop_first.
  destruct (elements X) as [|x l] eqn:HE.
  - apply elements_empty_iff in HE. by apply leibniz_equiv in HE.
  - apply elem_of_elements. rewrite HE. simpl. by left.
Qed.

Lemma pop_last_ok : set_pop_ok pop_last.
Proof.
  intros X HX. unfold pop_last.
  destruct (last (elements X)) as [x|] eqn:HE; simpl.
  - apply elem_of_elements. by eapply last_Some_elem_of.
  - apply last_None in HE. apply elements_empty_iff in HE.
    by apply leibniz_equiv in HE.
Qed.

Section ScanFacts.

Variable set_pop : gset string → string.
Variable cfg : DatasetConfig.
Variable cands : list string.

Lemma scan_body_unique i g st x :
  set_pop_ok set_pop →
  candidate_output_labels cfg cands (probe st g) = {[ x ]} →
  scan_body set_pop cfg cands i g st
    = Ok ({| output_label := Some x;
             previously_generated_labels := previously_generated_labels st;
             logged := logged st |}, Break).
Proof.
  intros Hpop Hset. unfold scan_body. rewrite Hset, size_singleton. simpl.
  assert (({[x]} : gset string) ≠ ∅) as Hne.
  { apply size_pos_nonempty. rewrite size_singleton. lia. }
  rewrite py_pop_nonempty by done. simpl.
  pose proof (Hpop _ Hne) as Hin.
  apply elem_of_singleton in Hin. by rewrite Hin.
Qed.

Lemma scan_body_ambiguous_first g st :
  1 < size (candidate_output_labels cfg cands (probe st g)) →
  scan_body set_pop cfg cands 0 g st
    = Ok ({| output_label := output_label st;
             previously_generated_labels :=
               (previously_generated_labels st ++ [probe st g])%list;
             logged := logged st |}, Continue).
Proof.
  intros HX. unfold scan_body.
  destruct (decide (size _ = 1)); [lia|]. by destruct (decide (1 < size _)).
Qed.

Lemma scan_body_ambiguous_later i g st X :
  i ≠ 0 →
  X = candidate_output_labels cfg cands (probe st g) →
  1 < size X →
  scan_body set_pop cfg cands i g st
    = Ok ({| output_label := Some (set_pop X);
             previously_generated_labels := previously_generated_labels st;
             logged := (logged st
                        ++ [MultipleCandidates (probe st g) (X ∖ {[set_pop X]})])%list |},
          Continue).
Proof.
  intros Hi -> HX. unfold scan_body.
  destruct (decide (size _ = 1)); [lia|]. destruct (decide (1 < size _)); [|lia].
  destruct (decide (i = 0)); [done|].
  by rewrite py_pop_nonempty by (apply size_pos_nonempty; lia).
Qed.

Lemma scan_body_no_match i g st :
  candidate_output_labels cfg cands (probe st g) = ∅ →
  scan_body set_pop cfg cands i g st = Ok (st, Continue).
Proof. intros HX. unfold scan_body. by rewrite HX, size_empty. Qed.

(** Tokens that match nothing leave the state alone. *)
Lemma scan_unmatched gls : ∀ i st,
  Forall (λ g, candidate_output_labels cfg cands (probe st g) = ∅) gls →
  scan set_pop cfg cands i gls st = Ok st.
Proof.
  induction gls as [|g gls IH]; intros i st Hno; simpl; [done|].
  apply Forall_cons in Hno as [Hg Hno].
  rewrite scan_body_no_match by done. simpl. by apply IH.
Qed.

Lemma runs_on_scan i st pre st' rest :
  runs_on set_pop cfg cands i st pre st' →
  scan set_pop cfg cands i (pre ++ rest) st
    = scan set_pop cfg cands (i + length pre) rest st'.
Proof.
  induction 1 as [i st|i st g st1 gls st2 Hbody _ IH]; simpl.
  - by rewrite Nat.add_0_r.
  - rewrite Hbody. simpl. rewrite IH. f_equal. lia.
Qed.

Lemma scan_sample_first_resolved earlier step later st l :
  Forall (λ s, output_label <$> scan_step set_pop cfg cands s = Ok None) earlier →
  scan_step set_pop cfg cands step = Ok st →
  output_label st = Some l →
  scan_sample set_pop cfg cands (earlier ++ step :: later)
    = Ok (Some (dict_get (prompt_label_mapping cfg) l l), logged st).
Proof.
  intros He Hst Hl. induction He as [|s earlier Hs _ IH]; simpl.
  - by rewrite Hst; simpl; rewrite Hl.
  - apply fmap_Ok in Hs as (st0 & Hst0 & Hnone). rewrite Hst0. simpl.
    rewrite <-Hnone, IH. simpl.
    destruct (scan_None _ _ _ _ _ _ _ Hst0) as [_ ->]; done.
Qed.

End ScanFacts.

(** C3 (amended). When the loop over the alternatives of a step reaches a
    position other than the first at which several labels match the probe,
    it takes the label that [set.pop()] removes from the set of the
    matching labels, a member of that set; when no later alternative of
    the step matches a candidate and no earlier step resolved, this label,
    passed through [english2local.get], is the label of the example, and
    the ambiguity is logged. *)
Theorem ambiguous_later_position_takes_popped_label
    (set_pop : gset string → string) (cfg : DatasetConfig) (cands : list string)
    (earlier later : list logprob_list) (step : logprob_list)
    (pre post : list string) (g : string) (st : scan_state) (X : gset string) :
  set_pop_ok set_pop →
  Forall (λ s, output_label <$> scan_step set_pop cfg cands s = Ok None) earlier →
  generated_labels step = (pre ++ g :: post)%list →
  pre ≠ [] →
  runs_on set_pop cfg cands 0 scan_init pre st →
  X = candidate_output_labels cfg cands (probe st g) →
  1 < size X →
  Forall (λ g', candidate_output_labels cfg cands (probe st g') = ∅) post →
  set_pop X ∈ X
  ∧ resolve_sample set_pop cfg cands (earlier ++ step :: later)
      = Ok (dict_get (prompt_label_mapping cfg) (set_pop X) (set_pop X),
            (logged st ++ [MultipleCandidates (probe st g) (X ∖ {[set_pop X]})])%list).
Proof.
  intros Hpop He Hgl Hpre Hruns HX Hsize Hpost.
  split. { apply Hpop, size_pos_nonempty. lia. }
  assert (scan_step set_pop cfg cands step
          = Ok {| output_label := Some (set_pop X);
                  previously_generated_labels := previously_generated_labels st;
                  logged := (logged st ++ [MultipleCandidates (probe st g)
                                             (X ∖ {[set_pop X]})])%list |}) as Hstep.
  { unfold scan_step. rewrite Hgl, (runs_on_scan _ _ _ _ _ _ _ _ Hruns). simpl.
    rewrite (scan_body_ambiguous_later set_pop cfg cands _ g st X);
      [|by destruct pre|done..].
    simpl. by rewrite scan_unmatched. }
  unfold resolve_sample.
  by rewrite (scan_sample_first_resolved _ _ _ _ _ _ _ _ He Hstep eq_refl).
Qed.


Lemma ambiguous_later_position_takes_popped_label_witness :
  set_pop_ok pop_first
  ∧ Forall (λ s, output_label <$> scan_step pop_first cfg_possible cands_possible s
                 = Ok None) []
  ∧ generated_labels step_po_s = (["po"] ++ "s" :: [])%list
  ∧ ["po"] ≠ []
  ∧ runs_on pop_first cfg_possible cands_possible 0 scan_init ["po"] st_po
  ∧ X_pos = candidate_output_labels cfg_possible cands_possible (probe st_po "s")
  ∧ 1 < size X_pos
  ∧ Forall (λ g', candidate_output_labels cfg_possible cands_possible (probe st_po g')
                  = ∅) []
  ∧ (pop_first X_pos ∈ X_pos
     ∧ resolve_sample pop_first cfg_possible cands_possible ([] ++ step_po_s :: [])
       = Ok (dict_get (prompt_label_mapping cfg_possible)
               (pop_first X_pos) (pop_first X_pos),
             (logged st_po
              ++ [MultipleCandidates (probe st_po "s")
                    (X_pos ∖ {[pop_first X_pos]})])%list)).
Proof.
  assert (generated_labels step_po_s = (["po"] ++ "s" :: [])%list) as Hgl.
  { vm_compute. reflexivity. }
  assert (["po"] ≠ []) as Hpre by discriminate.
  assert (runs_on pop_first cfg_possible cands_possible 0 scan_init ["po"] st_po)
    as Hruns.
  { eapply runs_on_cons; [vm_compute; reflexivity | apply runs_on_nil]. }
  assert (X_pos = candidate_output_labels cfg_possible cands_possible (probe st_po "s"))
    as HX.
  { vm_compute. reflexivity. }
  assert (1 < size X_pos) as Hsize.
  { vm_compute. lia. }
  split; [exact pop_first_ok|]. split; [apply Forall_nil_2|].
  split; [exact Hgl|]. split; [exact Hpre|]. split; [exact Hruns|].
  split; [exact HX|]. split; [exact Hsize|]. split; [apply Forall_nil_2|].
  exact (ambiguous_later_position_takes_popped_label pop_first cfg_possible
           cands_possible [] [] step_po_s ["po"] [] "s" st_po X_pos
           pop_first_ok (Forall_nil_2 _) Hgl Hpre Hruns HX Hsize (Forall_nil_2 _)).
Defined.

Lemma scan_step_ye_s_sterday (set_pop : gset string → string) :
  set_pop_ok set_pop →
  ∃ log, scan_step set_pop cfg_yesterday cands_yesterday step_ye_s_sterday
         = Ok {| output_label := Some "yesterday";
                 previously_generated_labels := ["ye"];
                 logged := log |}.
Proof.
  intros Hpop. unfold scan_step.
  change (generated_labels step_ye_s_sterday) with ["ye"; "s"; "sterday"].
  cbn [scan].
  rewrite scan_body_ambiguous_first by (vm_compute; lia).
  cbn [mbind result_bind scan].
  erewrite scan_body_ambiguous_later; [|lia|reflexivity|vm_compute; lia].
  cbn [mbind result_bind scan].
  erewrite (scan_body_unique _ _ _ _ _ _ "yesterday" Hpop);
    [|vm_compute; reflexivity].
  cbn [mbind result_bind]. eexists. reflexivity.
Qed.

(** C3 (as stated) fails. With the labels ["positive"] and ["possible"]
    and the alternatives ["po"], ["s"] of one step, the probe ["pos"] at
    position 1 matches both; ["positive"] comes first in the candidate
    universe, a [set.pop()] that removes ["possible"] makes it the label
    of the example, and one that removes ["positive"] makes that one the
    label. With the labels ["yes"] and ["yesterday"]
    and the alternatives ["ye"], ["s"], ["sterday"], the probe ["yes"] at
    position 1 matches both, and whatever [set.pop()] removes, the label of
    the example is ["yesterday"], resolved by the next alternative. *)
Lemma popped_label_is_not_first_in_universe_order :
  (set_pop_ok pop_first
   ∧ candidate_labels cfg_possible = Ok cands_possible
   ∧ matching_candidates cands_possible "pos"
       = ["positive"; "possible"; "positive"; "possible"]
   ∧ get_closest_logprobs_labels pop_first cfg_possible [[step_po_s]]
       = Ok (["possible"], [MultipleCandidates "pos" {[ "positive" ]}])
   ∧ set_pop_ok pop_last
   ∧ get_closest_logprobs_labels pop_last cfg_possible [[step_po_s]]
       = Ok (["positive"], [MultipleCandidates "pos" {[ "possible" ]}]))
  ∧ (candidate_labels cfg_yesterday = Ok cands_yesterday
     ∧ matching_candidates cands_yesterday "yes"
         = ["yes"; "yesterday"; "yes"; "yesterday"]
     ∧ ∀ set_pop, set_pop_ok set_pop →
         ∃ log, get_closest_logprobs_labels set_pop cfg_yesterday [[step_ye_s_sterday]]
                = Ok (["yesterday"], log)).
Proof.
  split.
  - split; [exact pop_first_ok|]. do 3 (split; [by vm_compute|]).
    split; [exact pop_last_ok | by vm_compute].
  - split; [by vm_compute|]. split; [by vm_compute|].
    intros set_pop Hpop.
    destruct (scan_step_ye_s_sterday set_pop Hpop) as [log Hstep].
    exists log.
    unfold get_closest_logprobs_labels.
    change (candidate_labels cfg_yesterday) with (Ok cands_yesterday).
    cbn [mbind result_bind resolve_samples resolve_sample scan_sample].
    rewrite Hstep. reflexivity.
Qed.

(** ** Resolution by edit distance *)

Lemma distance_kitten_sitting : distance "kitten" "sitting" = 3.
Proof. reflexivity. Qed.

Lemma distance_empty_l (s : string) : distance "" s = String.length s.
Proof. by destruct s. Qed.

Lemma distance_refl (s : string) : distance s s = 0.
Proof.
  induction s as [|a s IH]; [done|].
  change (distance (String a s) (String a s))
    with (Nat.min (distance s (String a s) + 1)
            (Nat.min (distance (String a s) s + 1)
               (distance s s + (if decide (a = a) then 0 else 1)))).
  rewrite IH. destruct (decide (a = a)); [lia | done].
Qed.

(** [argmin_from] continues a scan whose least value so far, [b], stands
    first at index [bi] of the part [pre] already read. *)
Lemma argmin_from_spec (l : list nat) : ∀ (pre : list nat) (bi b : nat),
  pre !! bi = Some b →
  (∀ j x, pre !! j = Some x → (b ≤ x)%nat) →
  (∀ j x, (j < bi)%nat → pre !! j = Some x → (b < x)%nat) →
  ∃ m, (pre ++ l)%list !! argmin_from bi b (length pre) l = Some m
    ∧ (∀ j x, (pre ++ l)%list !! j = Some x → (m ≤ x)%nat)
    ∧ (∀ j x, (j < argmin_from bi b (length pre) l)%nat →
         (pre ++ l)%list !! j = Some x → (m < x)%nat).
Proof.
  induction l as [|x l IH]; intros pre bi b Hb Hmin Hfirst; simpl.
  { rewrite app_nil_r. eauto. }
  assert (length (pre ++ [x])%list = S (length pre)) as Hlen.
  { rewrite length_app. simpl. lia. }
  replace (pre ++ x :: l)%list with ((pre ++ [x]) ++ l)%list
    by (by rewrite <-app_assoc).
  rewrite <-Hlen.
  assert (∀ j y, (pre ++ [x])%list !! j = Some y →
                 (j < length pre)%nat ∧ pre !! j = Some y
                 ∨ j = length pre ∧ y = x) as Hsplit.
  { intros j y Hj. destruct (decide (j < length pre)) as [Hlt|Hge].
    - left. by rewrite lookup_app_l in Hj.
    - right. rewrite lookup_app_r in Hj by lia.
      destruct (j - length pre) as [|k] eqn:Hk; simplify_eq/=. split; [lia|done]. }
  destruct (decide (x < b)) as [Hx|Hx]; apply IH.
  - rewrite lookup_app_r by lia.
    by replace (length pre - length pre) with 0 by lia.
  - intros j y [[_ Hj]|[_ ->]]%Hsplit; [|lia]. specialize (Hmin _ _ Hj). lia.
  - intros j y Hlt [[_ Hj]|[-> _]]%Hsplit; [|lia]. specialize (Hmin _ _ Hj). lia.
  - rewrite lookup_app_l; [done|]. by eapply lookup_lt_Some.
  - intros j y [[_ Hj]|[_ ->]]%Hsplit; [by eapply Hmin | lia].
  - intros j y Hlt [[_ Hj]|[-> _]]%Hsplit; [by eapply Hfirst|].
    apply lookup_lt_Some in Hb. lia.
Qed.

Lemma np_argmin_spec (l : list nat) :
  l ≠ [] →
  ∃ i m, np_argmin l = Ok i ∧ l !! i = Some m
    ∧ (∀ j x, l !! j = Some x → (m ≤ x)%nat)
    ∧ (∀ j x, (j < i)%nat → l !! j = Some x → (m < x)%nat).
Proof.
  destruct l as [|x l]; [done|]. intros _. simpl.
  destruct (argmin_from_spec l [x] 0 x) as (m & Hm & Hmin & Hfirst).
  - done.
  - by intros [|j] y [= <-].
  - intros j y Hj. lia.
  - eauto 10.
Qed.


Lemma closest_label_spec (labels : list string) (predicted_label : string) :
  labels ≠ [] →
  ∃ i c, closest_label labels predicted_label = Ok c
    ∧ first_closest labels predicted_label i c.
Proof.
  intros Hne. unfold closest_label.
  destruct (np_argmin_spec
    ((λ c, distance (lower predicted_label) (lower c)) <$> labels))
    as (i & m & -> & Hi & Hmin & Hfirst).
  { by destruct labels. }
  simpl. rewrite list_lookup_fmap in Hi.
  destruct (labels !! i) as [c|] eqn:Hc; [|done]. injection Hi as <-.
  exists i, c. unfold list_getitem. rewrite Hc. split; [done|].
  split_and!; [done| |].
  - intros j c' Hj. apply (Hmin j). by rewrite list_lookup_fmap, Hj.
  - intros j c' Hlt Hj. apply (Hfirst j); [done|]. by rewrite list_lookup_fmap, Hj.
Qed.

Lemma mapM_closest_label (labels : list string) (sequences : list string) :
  labels ≠ [] →
  ∃ out, mapM (closest_label labels) sequences = Ok out
    ∧ Forall2 (λ s c, ∃ i, first_closest labels s i c) sequences out.
Proof.
  intros Hne.
  destruct (mapM_is_Ok (closest_label labels) sequences) as [out Hout].
  { apply Forall_forall. intros s _.
    by destruct (closest_label_spec labels s Hne) as (i & c & -> & _). }
  exists out. split; [done|].
  apply mapM_Ok_Forall2 in Hout. eapply Forall2_impl; [exact Hout|].
  intros s c Hc. destruct (closest_label_spec labels s Hne) as (i & c' & Hc' & Hfc).
  exists i. congruence.
Qed.

(** C8. For a non-empty list of candidate labels, the edit-distance
    resolver returns for every decoded string the candidate whose
    lower-cased form is nearest in Levenshtein distance to the lower-cased
    string, the first such candidate in the order of the list; this holds
    for the loop body and for the function of either file. *)
Theorem edit_distance_resolver_first_minimum (labels : list string) :
  labels ≠ [] →
  (∀ predicted_label, ∃ i c,
     closest_label labels predicted_label = Ok c
     ∧ first_closest labels predicted_label i c)
  ∧ (∀ cfg generated_sequences,
       mapM (λ lbl, getitem (dict_lookup (prompt_label_mapping cfg) lbl))
            (english_labels cfg) = Ok labels →
       ∃ out, get_closest_word_edit_labels generated_sequences cfg = Ok out
         ∧ Forall2 (λ s c, ∃ i, first_closest labels s i c) generated_sequences out)
  ∧ (∀ EvaluationModule Tokenizer extract
       (self : ScandEval.BenchmarkDataset EvaluationModule)
       generated_sequences (tokenizer : Tokenizer),
       ScandEval.id2label (ScandEval.dataset_config EvaluationModule self) = labels →
       ∃ out, ScandEval._get_closest_word_edit_labels EvaluationModule Tokenizer
                extract self generated_sequences tokenizer = Ok out
         ∧ Forall2 (λ s c, ∃ i, first_closest labels s i c)
             (extract (ScandEval.dataset_config EvaluationModule self)
                generated_sequences tokenizer) out).
Proof.
  intros Hne. split_and!.
  - intros s. by apply closest_label_spec.
  - intros cfg seqs Hl. unfold get_closest_word_edit_labels. rewrite Hl. simpl.
    by apply mapM_closest_label.
  - intros EM Tok extract self seqs tok Hl.
    unfold ScandEval._get_closest_word_edit_labels. rewrite Hl.
    by apply mapM_closest_label.
Qed.

Lemma edit_distance_resolver_first_minimum_witness :
  ["negativ"; "positiv"] ≠ []
  ∧ closest_label ["negativ"; "positiv"] "Positive." = Ok "positiv"
  ∧ get_closest_word_edit_labels ["Positive."; "xx"] cfg_sentiment
      = Ok ["positiv"; "negativ"]
  ∧ ((∀ predicted_label, ∃ i c,
        closest_label ["negativ"; "positiv"] predicted_label = Ok c
        ∧ first_closest ["negativ"; "positiv"] predicted_label i c)
     ∧ (∀ cfg generated_sequences,
          mapM (λ lbl, getitem (dict_lookup (prompt_label_mapping cfg) lbl))
               (english_labels cfg) = Ok ["negativ"; "positiv"] →
          ∃ out, get_closest_word_edit_labels generated_sequences cfg = Ok out
            ∧ Forall2 (λ s c, ∃ i, first_closest ["negativ"; "positiv"] s i c)
                generated_sequences out)
     ∧ (∀ EvaluationModule Tokenizer extract
          (self : ScandEval.BenchmarkDataset EvaluationModule)
          generated_sequences (tokenizer : Tokenizer),
          ScandEval.id2label (ScandEval.dataset_config EvaluationModule self)
            = ["negativ"; "positiv"] →
          ∃ out, ScandEval._get_closest_word_edit_labels EvaluationModule Tokenizer
                   extract self generated_sequences tokenizer = Ok out
            ∧ Forall2 (λ s c, ∃ i, first_closest ["negativ"; "positiv"] s i c)
                (extract (ScandEval.dataset_config EvaluationModule self)
                   generated_sequences tokenizer) out)).
Proof.
  assert (["negativ"; "positiv"] ≠ []) as Hne by discriminate.
  split; [exact Hne|]. split; [vm_compute; reflexivity|].
  split; [vm_compute; reflexivity|].
  exact (edit_distance_resolver_first_minimum ["negativ"; "positiv"] Hne).
Defined.

(** ** Normalisation of predictions and references *)

Lemma foldl_inverted_lookup {K} (d : list (K * string)) : ∀ (m : gmap string K) v,
  foldl (λ m kv, <[kv.1 := kv.2]> m) m (prod_swap <$> d) !! v
  = match last_key_of d v with Some k => Some k | None => m !! v end.
Proof.
  induction d as [|[k v'] d IH]; intros m v; simpl; [done|].
  rewrite IH. destruct (last_key_of d v); [done|].
  destruct (decide (v' = v)) as [->|Hne].
  - by rewrite lookup_insert_eq.
  - by rewrite lookup_insert_ne.
Qed.

Lemma inverted_lookup {K} (d : list (K * string)) (v : string) :
  inverted d !! v = last_key_of d v.
Proof.
  unfold inverted, dict_of_items. rewrite foldl_inverted_lookup.
  by destruct (last_key_of d v).
Qed.

(** A key found by [last_key_of] belongs to an item of the dictionary. *)
Lemma last_key_of_elem_of {K} (d : list (K * string)) (v : string) (k : K) :
  last_key_of d v = Some k → (k, v) ∈ d.
Proof.
  induction d as [|[k' v'] d IH]; simpl; [done|].
  destruct (last_key_of d v) as [k''|].
  - intros [= ->]. right. by apply IH.
  - destruct (decide (v' = v)) as [->|]; [|done]. intros [= ->]. by left.
Qed.

Lemma mapM_ext {A B} (f g : A → result B) (l : list A) :
  (∀ x, f x = g x) → mapM f l = mapM g l.
Proof. intros Hfg. induction l as [|x l IH]; simpl; [done|]. by rewrite Hfg, IH. Qed.

Lemma prediction_id_spec (cfg : DatasetConfig) (x : entry) :
  prediction_id cfg x = spec_normalize cfg x.
Proof.
  destruct x as [i|s]; simpl; [done|].
  unfold localized_to_english, english_to_id. rewrite inverted_lookup.
  destruct (last_key_of (prompt_label_mapping cfg) (lower s)) as [label|]; simpl; [|done].
  rewrite inverted_lookup. by destruct (last_key_of (id2label cfg) label).
Qed.

Lemma label_id_spec (cfg : DatasetConfig) (x : entry) :
  label_id cfg x = spec_normalize_english cfg x.
Proof.
  destruct x as [i|s]; simpl; [done|].
  unfold english_to_id. rewrite inverted_lookup.
  by destruct (last_key_of (id2label cfg) (lower s)).
Qed.

Lemma entry_index_spec (cfg : ScandEval.DatasetConfig) (ids : list string) (x : entry) :
  ScandEval.entry_index cfg ids x
  = spec_normalize_by_position (ScandEval.prompt_label_mapping cfg) ids x.
Proof.
  destruct x as [i|s]; simpl; [done|].
  unfold localized_to_english. rewrite inverted_lookup.
  destruct (last_key_of _ (lower s)) as [label|]; simpl; [|done].
  by destruct (ScandEval.index ids label).
Qed.

(** C5 (amended). In [compute_metrics] a string prediction is lower-cased,
    mapped through the localized to English mapping and then through the
    English label to numeric id mapping; a string reference is lower-cased
    and mapped through the English label to numeric id mapping alone; a
    number passes through unchanged; the metrics receive the lists so
    normalised. In [_compute_metrics] of the earlier implementation
    predictions and references alike are lower-cased, mapped through the
    localized to English mapping, and replaced by the position of the
    label in [id2label]. *)
Theorem normalization_before_metrics :
  (∀ cfg x, prediction_id cfg x = spec_normalize cfg x)
  ∧ (∀ cfg x, label_id cfg x = spec_normalize_english cfg x)
  ∧ (∀ cfg i, spec_normalize cfg (Id i) = Ok (Id i)
              ∧ spec_normalize_english cfg (Id i) = Ok (Id i))
  ∧ (∀ EvaluationModule evaluate_load metric_compute model_outputs labels
       dataset_config benchmark_config,
       compute_metrics EvaluationModule evaluate_load metric_compute
         (model_outputs, labels) dataset_config benchmark_config
       = (loaded ← load_metrics EvaluationModule evaluate_load
                     (cache_dir benchmark_config)
                     (metrics (task dataset_config)) ∅;
          predictions ← raw_predictions (model_predictions model_outputs);
          _ ← raise_if_model_output_contains_nan_values
                (model_predictions model_outputs);
          predictions ← mapM (spec_normalize dataset_config) predictions;
          label_ids ← mapM (spec_normalize_english dataset_config) labels;
          run_metrics EvaluationModule metric_compute loaded predictions label_ids
            (metrics (task dataset_config)) ∅))
  ∧ (∀ EvaluationModule metric_compute
       (self : ScandEval.BenchmarkDataset EvaluationModule)
       model_outputs labels id2label,
       ScandEval._compute_metrics EvaluationModule metric_compute self
         (model_outputs, labels) id2label
       = (predictions ← raw_predictions model_outputs;
          predictions ←
            mapM (spec_normalize_by_position
                    (ScandEval.prompt_label_mapping
                       (ScandEval.dataset_config EvaluationModule self)) id2label)
                 predictions;
          labels ←
            mapM (spec_normalize_by_position
                    (ScandEval.prompt_label_mapping
                       (ScandEval.dataset_config EvaluationModule self)) id2label)
                 labels;
          ScandEval.run_metrics EvaluationModule metric_compute
            (ScandEval._metrics EvaluationModule self) predictions labels
            (metrics (ScandEval.task (ScandEval.dataset_config EvaluationModule self)))
            ∅)).
Proof.
  split_and!.
  - apply prediction_id_spec.
  - apply label_id_spec.
  - done.
  - intros EM load compute mo labels cfg bcfg. unfold compute_metrics.
    destruct (load_metrics _ _ _ _ _) as [loaded|]; simpl; [|done].
    unfold normalized_inputs.
    destruct (raw_predictions _) as [preds|]; simpl; [|done].
    destruct (raise_if_model_output_contains_nan_values _); simpl; [|done].
    rewrite (mapM_ext _ _ preds (prediction_id_spec cfg)).
    rewrite (mapM_ext _ _ labels (label_id_spec cfg)).
    destruct (mapM _ preds) as [p|]; simpl; [|done].
    by destruct (mapM _ labels) as [r|].
  - intros EM compute self mo labels ids. unfold ScandEval._compute_metrics.
    unfold ScandEval.normalized_inputs.
    destruct (raw_predictions _) as [preds|]; simpl; [|done].
    rewrite (mapM_ext _ _ preds (entry_index_spec _ ids)).
    rewrite (mapM_ext _ _ labels (entry_index_spec _ ids)).
    destruct (mapM _ preds) as [p|]; simpl; [|done].
    by destruct (mapM _ labels) as [r|].
Qed.

(** C5 (as stated) fails for the references of [compute_metrics]. The
    reference ["Positive"] becomes the id 1 although it is no localized
    label, so that the stated normalisation has no value for it; and
    where a mapping exchanges the labels ["a"] and ["b"], the reference
    ["a"] becomes the id 0 of ["a"], while the stated normalisation gives
    the id 1. *)
Lemma reference_skips_localized_to_english :
  normalized_inputs cfg_sentiment (Entries [Label "Positiv"]) [Label "Positive"]
    = Ok ([Id 1], [Id 1])
  ∧ spec_normalize cfg_sentiment (Label "Positive") = Raise KeyError
  ∧ normalized_inputs cfg_swap (Entries [Label "a"]) [Label "a"]
      = Ok ([Id 1], [Id 0])
  ∧ spec_normalize cfg_swap (Label "a") = Ok (Id 1).
Proof. split_and!; by vm_compute. Qed.

(** ** Not-a-number scores *)

(** [compute_metrics] raises on scores with a NaN, whatever the metrics. *)
Lemma compute_metrics_rejects_nan EvaluationModule evaluate_load metric_compute
    model_outputs labels dataset_config benchmark_config :
  contains_nan (model_predictions model_outputs) = true →
  raises (compute_metrics EvaluationModule evaluate_load metric_compute
            (model_outputs, labels) dataset_config benchmark_config).
Proof.
  intros Hnan. unfold compute_metrics.
  destruct (load_metrics _ _ _ _ _) as [loaded|]; simpl; [|done].
  unfold normalized_inputs.
  destruct (raw_predictions _) as [preds|]; simpl; [|done].
  unfold raise_if_model_output_contains_nan_values. by rewrite Hnan.
Qed.

(** C6 (the code at the failing input). [_compute_metrics] of the earlier
    implementation has no guard: for one row of scores whose first score
    is a NaN, the arg-max is class 0, the metrics are computed on it, and
    a metric that compares predictions with references reports 1 for the
    reference 0. *)
Theorem scandeval_scores_nan_are_scored :
  contains_nan (Scores [[nan; 0.5%float]]) = true
  ∧ raw_predictions (Scores [[nan; 0.5%float]]) = Ok [Id 0]
  ∧ (∀ EvaluationModule metric_compute
       (self : ScandEval.BenchmarkDataset EvaluationModule) labels id2label,
       ScandEval._compute_metrics EvaluationModule metric_compute self
         (Scores [[nan; 0.5%float]], labels) id2label
       = (labels ← mapM (ScandEval.entry_index
                           (ScandEval.dataset_config EvaluationModule self) id2label)
                        labels;
          ScandEval.run_metrics EvaluationModule metric_compute
            (ScandEval._metrics EvaluationModule self) [Id 0] labels
            (metrics (ScandEval.task (ScandEval.dataset_config EvaluationModule self)))
            ∅))
  ∧ ScandEval._compute_metrics unit same_lists_metric scandeval_self
      (Scores [[nan; 0.5%float]], [Id 0]) ["negative"; "positive"]
    = Ok {[ "accuracy" := Scalar 1%float ]}.
Proof.
  split_and!; [by vm_compute | by vm_compute | | by vm_compute].
  intros EM compute self labels ids. unfold ScandEval._compute_metrics.
  unfold ScandEval.normalized_inputs.
  change (raw_predictions (Scores [[nan; 0.5%float]])) with (Ok [Id 0%Z]).
  cbn [mbind result_bind mapM ScandEval.entry_index mret result_ret].
  by destruct (mapM _ labels).
Qed.

(** ** Metrics without a result *)

Section OmittedMetrics.

Variable EvaluationModule : Type.
Variable metric_compute :
  EvaluationModule → list entry → list entry → list (string * string) →
  result (option (gmap string scores)).
Variable loaded : gmap string (option EvaluationModule).
Variables predictions references : list entry.

Lemma run_metrics_skip cfg cfgs results :
  returns_none EvaluationModule metric_compute loaded predictions references cfg = true →
  run_metrics EvaluationModule metric_compute loaded predictions references
    (cfg :: cfgs) results
  = run_metrics EvaluationModule metric_compute loaded predictions references
      cfgs results.
Proof.
  unfold returns_none. simpl.
  destruct (loaded !! name cfg) as [[metric|]|]; simpl; [|done..].
  by destruct (metric_compute _ _ _ _) as [[sd|]|].
Qed.

Lemma run_metrics_filter cfgs : ∀ results,
  run_metrics EvaluationModule metric_compute loaded predictions references cfgs results
  = run_metrics EvaluationModule metric_compute loaded predictions references
      (filter (λ cfg, returns_none EvaluationModule metric_compute loaded
                        predictions references cfg = false) cfgs) results.
Proof.
  induction cfgs as [|cfg cfgs IH]; intros results; [done|].
  destruct (returns_none EvaluationModule metric_compute loaded predictions
              references cfg) eqn:Hnone.
  - rewrite run_metrics_skip by done. rewrite filter_cons_False by congruence.
    apply IH.
  - rewrite filter_cons_True by done. simpl.
    destruct (loaded !! name cfg) as [[metric|]|]; simpl; [|done..].
    destruct (metric_compute _ _ _ _) as [[sd|]|]; simpl; [|by apply IH|done].
    destruct (sd !! results_key cfg) as [[x|xs]|]; simpl; [by apply IH| |done].
    destruct (mean xs); simpl; [by apply IH|done].
Qed.

Lemma run_metrics_omits cfgs : ∀ results results' n,
  run_metrics EvaluationModule metric_compute loaded predictions references cfgs results
    = Ok results' →
  (∀ cfg, cfg ∈ cfgs → name cfg = n →
     returns_none EvaluationModule metric_compute loaded predictions references cfg
     = true) →
  results' !! n = results !! n.
Proof.
  induction cfgs as [|cfg cfgs IH]; intros results results' n; simpl.
  { by intros [= <-]. }
  intros Hrun Hnone.
  assert (∀ c, c ∈ cfgs → name c = n →
            returns_none EvaluationModule metric_compute loaded predictions
              references c = true) as Hrest.
  { intros c Hc. apply Hnone. by right. }
  destruct (decide (name cfg = n)) as [Hn|Hn].
  { change (run_metrics EvaluationModule metric_compute loaded predictions
              references (cfg :: cfgs) results = Ok results') in Hrun.
    rewrite run_metrics_skip in Hrun by (apply Hnone; [by left | done]).
    by eapply IH. }
  destruct (loaded !! name cfg) as [[metric|]|]; simpl in Hrun; [|done..].
  destruct (metric_compute _ _ _ _) as [[sd|]|]; simpl in Hrun; [|by eapply IH|done].
  destruct (sd !! results_key cfg) as [[x|xs]|]; simpl in Hrun; [| |done].
  - rewrite (IH _ _ _ Hrun Hrest). by rewrite lookup_insert_ne.
  - destruct (mean xs); simpl in Hrun; [|done].
    rewrite (IH _ _ _ Hrun Hrest). by rewrite lookup_insert_ne.
Qed.

Lemma scandeval_run_metrics_skip cfg cfgs results :
  ScandEval.returns_none EvaluationModule metric_compute loaded predictions
    references cfg = true →
  ScandEval.run_metrics EvaluationModule metric_compute loaded predictions references
    (cfg :: cfgs) results
  = ScandEval.run_metrics EvaluationModule metric_compute loaded predictions
      references cfgs results.
Proof.
  unfold ScandEval.returns_none. simpl.
  destruct (loaded !! name cfg) as [[metric|]|]; simpl; [|done..].
  by destruct (metric_compute _ _ _ _) as [[sd|]|].
Qed.

Lemma scandeval_run_metrics_filter cfgs : ∀ results,
  ScandEval.run_metrics EvaluationModule metric_compute loaded predictions references
    cfgs results
  = ScandEval.run_metrics EvaluationModule metric_compute loaded predictions
      references
      (filter (λ cfg, ScandEval.returns_none EvaluationModule metric_compute loaded
                        predictions references cfg = false) cfgs) results.
Proof.
  induction cfgs as [|cfg cfgs IH]; intros results; [done|].
  destruct (ScandEval.returns_none EvaluationModule metric_compute loaded predictions
              references cfg) eqn:Hnone.
  - rewrite scandeval_run_metrics_skip by done.
    rewrite filter_cons_False by congruence. apply IH.
  - rewrite filter_cons_True by done. simpl.
    destruct (loaded !! name cfg) as [[metric|]|]; simpl; [|done..].
    destruct (metric_compute _ _ _ _) as [[sd|]|]; simpl; [|by apply IH|done].
    destruct (sd !! results_key cfg) as [sc|]; simpl; [by apply IH|done].
Qed.

Lemma scandeval_run_metrics_omits cfgs : ∀ results results' n,
  ScandEval.run_metrics EvaluationModule metric_compute loaded predictions references
    cfgs results = Ok results' →
  (∀ cfg, cfg ∈ cfgs → name cfg = n →
     ScandEval.returns_none EvaluationModule metric_compute loaded predictions
       references cfg = true) →
  results' !! n = results !! n.
Proof.
  induction cfgs as [|cfg cfgs IH]; intros results results' n; simpl.
  { by intros [= <-]. }
  intros Hrun Hnone.
  assert (∀ c, c ∈ cfgs → name c = n →
            ScandEval.returns_none EvaluationModule metric_compute loaded
              predictions references c = true) as Hrest.
  { intros c Hc. apply Hnone. by right. }
  destruct (decide (name cfg = n)) as [Hn|Hn].
  { change (ScandEval.run_metrics EvaluationModule metric_compute loaded predictions
              references (cfg :: cfgs) results = Ok results') in Hrun.
    rewrite scandeval_run_metrics_skip in Hrun by (apply Hnone; [by left | done]).
    by eapply IH. }
  destruct (loaded !! name cfg) as [[metric|]|]; simpl in Hrun; [|done..].
  destruct (metric_compute _ _ _ _) as [[sd|]|]; simpl in Hrun; [|by eapply IH|done].
  destruct (sd !! results_key cfg) as [sc|]; simpl in Hrun; [|done].
  rewrite (IH _ _ _ Hrun Hrest). by rewrite lookup_insert_ne.
Qed.

End OmittedMetrics.

Section OmittedByName.

Variable EvaluationModule : Type.
Variable metric_compute :
  EvaluationModule → list entry → list entry → list (string * string) →
  result (option (gmap string scores)).
Variable loaded : gmap string (option EvaluationModule).
Variables predictions references : list entry.
Variable n : string.

(** Every computation of a metric named [n] returns [None]. *)
Hypothesis without_result : ∀ cfg metric,
  name cfg = n →
  metric_compute metric predictions references (compute_kwargs cfg) = Ok None.

Lemma run_metrics_omits_name cfgs : ∀ results results',
  run_metrics EvaluationModule metric_compute loaded predictions references cfgs results
    = Ok results' →
  results' !! n = results !! n.
Proof.
  induction cfgs as [|cfg cfgs IH]; intros results results'; simpl.
  { by intros [= <-]. }
  destruct (loaded !! name cfg) as [[metric|]|]; simpl; [|done..].
  destruct (decide (name cfg = n)) as [Hn|Hn].
  { rewrite without_result by done. simpl. apply IH. }
  destruct (metric_compute _ _ _ _) as [[sd|]|]; simpl; [|by apply IH|done].
  destruct (sd !! results_key cfg) as [[x|xs]|]; simpl; [| |done].
  - intros Hrun. rewrite (IH _ _ Hrun). by rewrite lookup_insert_ne.
  - destruct (mean xs); simpl; [|done].
    intros Hrun. rewrite (IH _ _ Hrun). by rewrite lookup_insert_ne.
Qed.

Lemma scandeval_run_metrics_omits_name cfgs : ∀ results results',
  ScandEval.run_metrics EvaluationModule metric_compute loaded predictions references
    cfgs results = Ok results' →
  results' !! n = results !! n.
Proof.
  induction cfgs as [|cfg cfgs IH]; intros results results'; simpl.
  { by intros [= <-]. }
  destruct (loaded !! name cfg) as [[metric|]|]; simpl; [|done..].
  destruct (decide (name cfg = n)) as [Hn|Hn].
  { rewrite without_result by done. simpl. apply IH. }
  destruct (metric_compute _ _ _ _) as [[sd|]|]; simpl; [|by apply IH|done].
  destruct (sd !! results_key cfg) as [sc|]; simpl; [|done].
  intros Hrun. rewrite (IH _ _ Hrun). by rewrite lookup_insert_ne.
Qed.

End OmittedByName.

(** C9. A configured metric whose computation returns [None] adds no entry
    to the results: the loop over the metrics gives the same result as on
    the list without these metrics, and the entry of a name all of whose
    metrics return [None] is what it was before the loop, that is absent
    from the mapping [compute_metrics] and [_compute_metrics] return. *)
Theorem metrics_without_result_are_omitted (EvaluationModule : Type)
    (metric_compute :
       EvaluationModule → list entry → list entry → list (string * string) →
       result (option (gmap string scores))) :
  (∀ loaded predictions references cfgs results,
     run_metrics EvaluationModule metric_compute loaded predictions references
       cfgs results
     = run_metrics EvaluationModule metric_compute loaded predictions references
         (filter (λ cfg, returns_none EvaluationModule metric_compute loaded
                           predictions references cfg = false) cfgs) results)
  ∧ (∀ loaded predictions references cfgs results results' n,
       run_metrics EvaluationModule metric_compute loaded predictions references
         cfgs results = Ok results' →
       (∀ cfg, cfg ∈ cfgs → name cfg = n →
          returns_none EvaluationModule metric_compute loaded predictions
            references cfg = true) →
       results' !! n = results !! n)
  ∧ (∀ evaluate_load model_outputs labels dataset_config benchmark_config results n,
       compute_metrics EvaluationModule evaluate_load metric_compute
         (model_outputs, labels) dataset_config benchmark_config = Ok results →
       (∀ cfg metric predictions references, name cfg = n →
          metric_compute metric predictions references (compute_kwargs cfg)
          = Ok None) →
       results !! n = None)
  ∧ (∀ loaded predictions references cfgs results,
       ScandEval.run_metrics EvaluationModule metric_compute loaded predictions
         references cfgs results
       = ScandEval.run_metrics EvaluationModule metric_compute loaded predictions
           references
           (filter (λ cfg, ScandEval.returns_none EvaluationModule metric_compute
                             loaded predictions references cfg = false) cfgs)
           results)
  ∧ (∀ (self : ScandEval.BenchmarkDataset EvaluationModule) model_outputs labels
       id2label results n,
       ScandEval._compute_metrics EvaluationModule metric_compute self
         (model_outputs, labels) id2label = Ok results →
       (∀ cfg metric predictions references, name cfg = n →
          metric_compute metric predictions references (compute_kwargs cfg)
          = Ok None) →
       results !! n = None).
Proof.
  split_and!.
  - intros. apply run_metrics_filter.
  - intros *. apply run_metrics_omits.
  - intros load mo labels cfg bcfg results n Hrun Hnone.
    unfold compute_metrics in Hrun.
    apply bind_Ok in Hrun as (loaded & _ & Hrun).
    apply bind_Ok in Hrun as ([p r] & _ & Hrun).
    erewrite run_metrics_omits_name; [apply lookup_empty | | exact Hrun].
    intros c m Hc. by apply Hnone.
  - intros. apply scandeval_run_metrics_filter.
  - intros self mo labels ids results n Hrun Hnone.
    unfold ScandEval._compute_metrics in Hrun.
    apply bind_Ok in Hrun as ([p r] & _ & Hrun).
    erewrite scandeval_run_metrics_omits_name; [apply lookup_empty | | exact Hrun].
    intros c m Hc. by apply Hnone.
Qed.

(** ** The empty batch *)

(** C10. On an empty list of model outputs [compute_metrics] raises: the
    array of an empty list is a float array, the arg-max branch is taken,
    and the arg-max of an empty axis is a [ValueError]; this is the
    exception as soon as the metrics could be loaded. *)
Theorem compute_metrics_empty_outputs_raise (EvaluationModule : Type)
    (evaluate_load : string → string → result EvaluationModule)
    (metric_compute :
       EvaluationModule → list entry → list entry → list (string * string) →
       result (option (gmap string scores)))
    (labels : list entry) (dataset_config : DatasetConfig)
    (benchmark_config : BenchmarkConfig) :
  asarray_dtype (Entries []) = Ok float64
  ∧ argmax_last_axis (Entries []) = Raise ValueError
  ∧ raises (compute_metrics EvaluationModule evaluate_load metric_compute
              (Single (Entries []), labels) dataset_config benchmark_config)
  ∧ raises (compute_metrics EvaluationModule evaluate_load metric_compute
              (Single (Scores []), labels) dataset_config benchmark_config)
  ∧ (is_Ok (load_metrics EvaluationModule evaluate_load (cache_dir benchmark_config)
              (metrics (task dataset_config)) ∅) →
     compute_metrics EvaluationModule evaluate_load metric_compute
       (Single (Entries []), labels) dataset_config benchmark_config
     = Raise ValueError).
Proof.
  unfold compute_metrics.
  destruct (load_metrics _ _ _ _ _) as [loaded|]; simpl; split_and!; done.
Qed.

(** One metric with a result and one without: only the first is reported. *)
Lemma metric_without_result_example :
  run_metrics bool main_process_metric
    {[ "accuracy" := Some true; "f1" := Some false ]}
    [Id 1; Id 0] [Id 1; Id 0] [f1_cfg; accuracy_cfg] ∅
  = Ok {[ "accuracy" := 1%float ]}.
Proof. by vm_compute. Qed.

(** * Further properties of the code *)

(** ** Where a resolved label comes from *)

Lemma dict_lookup_elem_of {V} (d : list (string * V)) (k : string) (v : V) :
  dict_lookup d k = Some v → (k, v) ∈ d.
Proof.
  induction d as [|[k' v'] d IH]; simpl; [done|].
  destruct (decide (k' = k)) as [->|].
  - intros [= ->]. by left.
  - intros H. right. by apply IH.
Qed.

Lemma dict_get_cases (d : list (string * string)) (k : string) :
  dict_get d k k = k ∨ dict_get d k k ∈ d.*2.
Proof.
  unfold dict_get. destruct (dict_lookup d k) as [v|] eqn:Hk; [|by left].
  right. apply dict_lookup_elem_of in Hk.
  apply list_elem_of_fmap. by exists (k, v).
Qed.

Section LabelOrigin.

Variable set_pop : gset string → string.
Variable cfg : DatasetConfig.
Variable cands : list string.
Hypothesis set_pop_member : set_pop_ok set_pop.

Lemma candidate_output_labels_elem_of x p :
  x ∈ candidate_output_labels cfg cands p →
  ∃ c, c ∈ cands ∧ startswith c p = true
       ∧ x = dict_get (prompt_label_mapping cfg) c c.
Proof.
  unfold candidate_output_labels, matching_candidates.
  rewrite elem_of_list_to_set, list_elem_of_fmap.
  intros (c & -> & Hc). apply list_elem_of_filter in Hc as [Hs Hc]. eauto.
Qed.

Lemma py_pop_elem_of X x X' : py_pop set_pop X = Ok (x, X') → x ∈ X.
Proof.
  unfold py_pop. destruct (decide (X = ∅)); [done|].
  intros [= <- _]. by apply set_pop_member.
Qed.

Lemma scan_body_from_candidate i g st st' c :
  scan_body set_pop cfg cands i g st = Ok (st', c) →
  from_candidate cfg cands (output_label st) →
  from_candidate cfg cands (output_label st').
Proof.
  unfold scan_body, from_candidate.
  destruct (decide (size _ = 1)).
  { intros ((x & X') & Hpop & [= <- <-])%bind_Ok _ y [= <-].
    apply py_pop_elem_of, candidate_output_labels_elem_of in Hpop
      as (cand & ? & _ & ?). eauto. }
  destruct (decide (1 < size _)); [|by intros [= <- <-]].
  destruct (decide (i = 0)); [by intros [= <- <-]|].
  intros ((x & X') & Hpop & [= <- <-])%bind_Ok _ y [= <-].
  apply py_pop_elem_of, candidate_output_labels_elem_of in Hpop
    as (cand & ? & _ & ?). eauto.
Qed.

Lemma scan_from_candidate gls : ∀ i st st',
  scan set_pop cfg cands i gls st = Ok st' →
  from_candidate cfg cands (output_label st) →
  from_candidate cfg cands (output_label st').
Proof.
  induction gls as [|g gls IH]; intros i st st'; simpl.
  { by intros [= <-]. }
  intros ((st1 & c) & Hbody & Hrest)%bind_Ok Hst.
  pose proof (scan_body_from_candidate _ _ _ _ _ Hbody Hst) as H1.
  destruct c; [by eapply IH | by injection Hrest as <-].
Qed.

Lemma scan_sample_from_candidate sample : ∀ l log,
  scan_sample set_pop cfg cands sample = Ok (Some l, log) →
  ∃ c, c ∈ cands
    ∧ l = dict_get (prompt_label_mapping cfg)
            (dict_get (prompt_label_mapping cfg) c c)
            (dict_get (prompt_label_mapping cfg) c c).
Proof.
  induction sample as [|step sample IH]; intros l log; simpl; [done|].
  intros (st & Hst & Hrest)%bind_Ok.
  destruct (output_label st) as [x|] eqn:Hx.
  - injection Hrest as <- <-.
    destruct (scan_from_candidate _ _ _ _ Hst) with (x := x)
      as (c & Hc & ->); [by intros ? [=] | done | eauto].
  - apply bind_Ok in Hrest as ([out lg] & Hs & [= -> _]). by eapply IH.
Qed.

Lemma resolve_sample_origin sample l log :
  resolve_sample set_pop cfg cands sample = Ok (l, log) →
  cands !! 0 = Some l
  ∨ ∃ c, c ∈ cands
      ∧ l = dict_get (prompt_label_mapping cfg)
              (dict_get (prompt_label_mapping cfg) c c)
              (dict_get (prompt_label_mapping cfg) c c).
Proof.
  unfold resolve_sample. intros ([out lg] & Hs & Hrest)%bind_Ok.
  destruct out as [l'|].
  - injection Hrest as <- <-. right. by eapply scan_sample_from_candidate.
  - left. unfold list_getitem in Hrest.
    destruct (cands !! 0); simplify_eq/=. done.
Qed.

End LabelOrigin.

Lemma last_key_of_is_Some {K} (d : list (K * string)) (v : string) :
  v ∈ d.*2 → is_Some (last_key_of d v).
Proof.
  induction d as [|[k v'] d IH]; simpl.
  { by intros ?%elem_of_nil. }
  intros [->|Hin]%elem_of_cons.
  - destruct (last_key_of d v'); [by eexists|].
    destruct (decide (v' = v')); [by eexists | done].
  - destruct (IH Hin) as [k' ->]. by eexists.
Qed.

(** What the candidate universe holds: lower-cased prompt labels, then keys
    of [prompt_label_mapping]. *)
Lemma candidate_labels_cases (cfg : DatasetConfig) (cands : list string) :
  candidate_labels cfg = Ok cands →
  (∀ c, c ∈ cands →
     (∃ loc, loc ∈ (prompt_label_mapping cfg).*2 ∧ c = lower loc)
     ∨ (∃ loc, dict_lookup (prompt_label_mapping cfg) c = Some loc))
  ∧ (∀ c, cands !! 0 = Some c →
       ∃ loc, loc ∈ (prompt_label_mapping cfg).*2 ∧ c = lower loc).
Proof.
  unfold candidate_labels. intros (ll & Hll & [= <-])%bind_Ok.
  apply local_labels_spec in Hll.
  assert (∀ c, c ∈ ll → ∃ loc, loc ∈ (prompt_label_mapping cfg).*2 ∧ c = lower loc)
    as Hlocal.
  { intros c Hc. apply list_elem_of_lookup in Hc as [i Hi].
    destruct (Forall2_lookup_r _ _ _ _ _ Hll Hi) as (e & _ & loc & Hloc & ->).
    exists loc. split; [|done]. apply dict_lookup_elem_of in Hloc.
    apply list_elem_of_fmap. by exists (e, loc). }
  split.
  - intros c [Hc|Hc]%elem_of_app; [left; by apply Hlocal|]. right.
    apply list_elem_of_lookup in Hc as [i Hi].
    destruct (Forall2_lookup_l _ _ _ _ _ Hll Hi) as (l & _ & loc & Hloc & _). eauto.
  - intros c Hc. apply Hlocal.
    destruct ll as [|l ll'].
    + apply Forall2_nil_inv_r in Hll. rewrite Hll in Hc. done.
    + injection Hc as <-. by left.
Qed.

Lemma resolved_label_is_prompt_label (set_pop : gset string → string)
    (cfg : DatasetConfig) (cands : list string) (sample : list logprob_list)
    (l : string) (log : list diagnostic) :
  set_pop_ok set_pop →
  candidate_labels cfg = Ok cands →
  resolve_sample set_pop cfg cands sample = Ok (l, log) →
  ∃ loc, loc ∈ (prompt_label_mapping cfg).*2 ∧ (l = loc ∨ l = lower loc).
Proof.
  intros Hpop Hc Hr. destruct (candidate_labels_cases cfg cands Hc) as [Hcases Hfirst].
  destruct (resolve_sample_origin set_pop cfg cands Hpop sample l log Hr)
    as [Hd|(c & Hin & ->)].
  { destruct (Hfirst _ Hd) as (loc & ? & ->). eauto. }
  set (m := prompt_label_mapping cfg) in *.
  assert (∀ x, x ∈ m.*2 → ∃ loc, loc ∈ m.*2
            ∧ (dict_get m x x = loc ∨ dict_get m x x = lower loc)) as Hval.
  { intros x Hx. destruct (dict_get_cases m x) as [->|?]; eauto. }
  destruct (Hcases c Hin) as [(loc & Hloc & ->)|(loc & Hloc)].
  - destruct (dict_get_cases m (lower loc)) as [->|Hv]; [|by apply Hval].
    destruct (dict_get_cases m (lower loc)) as [->|Hv]; eauto.
  - apply Hval. unfold dict_get. rewrite Hloc.
    apply dict_lookup_elem_of in Hloc. apply list_elem_of_fmap. by exists (c, loc).
Qed.

(** Every returned label is the label of an iteration of the outer loop. *)
Lemma returned_label_resolved (set_pop : gset string → string) (cfg : DatasetConfig)
    (batch : list (list logprob_list)) (labels : list string)
    (log : list diagnostic) (l : string) :
  get_closest_logprobs_labels set_pop cfg batch = Ok (labels, log) →
  l ∈ labels →
  ∃ cands sample lg,
    candidate_labels cfg = Ok cands ∧ sample ∈ batch
    ∧ resolve_sample set_pop cfg cands sample = Ok (l, lg).
Proof.
  unfold get_closest_logprobs_labels.
  intros (cands & Hc & Hrest)%bind_Ok Hl.
  apply bind_Ok in Hrest as ([out lg] & Hrs & Hrest).
  apply bind_Ok in Hrest as (_ & _ & [= <- <-]).
  apply resolve_samples_spec in Hrs as (rs & Hrs & -> & _). simpl in Hl.
  apply mapM_Ok_Forall2 in Hrs.
  apply list_elem_of_fmap in Hl as ([l' lg'] & -> & Hin).
  apply list_elem_of_lookup in Hin as [i Hi].
  destruct (Forall2_lookup_r _ _ _ _ _ Hrs Hi) as (sample & Hs & Hr).
  exists cands, sample, lg'. split_and!; [done | by eapply list_elem_of_lookup_2 | done].
Qed.

(** X1. When no earlier step of an example resolved a label and the first
    cleaned alternative of a step is a prefix of candidates that all stand
    for one label, that label (passed through [english2local.get]) is the
    label of the example, and nothing is logged. *)
Theorem first_alternative_unique_match (set_pop : gset string → string)
    (cfg : DatasetConfig) (cands : list string) (earlier later : list logprob_list)
    (step : logprob_list) (g x : string) (rest : list string) :
  set_pop_ok set_pop →
  Forall (λ s, output_label <$> scan_step set_pop cfg cands s = Ok None) earlier →
  generated_labels step = g :: rest →
  candidate_output_labels cfg cands g = {[ x ]} →
  resolve_sample set_pop cfg cands (earlier ++ step :: later)
    = Ok (dict_get (prompt_label_mapping cfg) x x, []).
Proof.
  intros Hpop He Hgl HX.
  assert (scan_step set_pop cfg cands step
          = Ok {| output_label := Some x; previously_generated_labels := [];
                  logged := [] |}) as Hstep.
  { unfold scan_step. rewrite Hgl. simpl.
    by rewrite (scan_body_unique set_pop cfg cands 0 g scan_init x Hpop HX). }
  unfold resolve_sample.
  by rewrite (scan_sample_first_resolved _ _ _ _ _ _ _ _ He Hstep eq_refl).
Qed.

Lemma first_alternative_unique_match_witness :
  set_pop_ok pop_first
  ∧ Forall (λ s, output_label <$> scan_step pop_first cfg_sentiment
                   ["negativ"; "positiv"; "negative"; "positive"] s = Ok None)
      [[("The", (-0.125)%float)]]
  ∧ generated_labels [(" Pos", (-0.125)%float); ("neg", (-2)%float)] = ["pos"; "neg"]
  ∧ candidate_output_labels cfg_sentiment
      ["negativ"; "positiv"; "negative"; "positive"] "pos" = {[ "positiv" ]}
  ∧ resolve_sample pop_first cfg_sentiment
      ["negativ"; "positiv"; "negative"; "positive"]
      ([[("The", (-0.125)%float)]]
         ++ [(" Pos", (-0.125)%float); ("neg", (-2)%float)] :: [])
    = Ok (dict_get (prompt_label_mapping cfg_sentiment) "positiv" "positiv", []).
Proof.
  assert (Forall (λ s, output_label <$> scan_step pop_first cfg_sentiment
                   ["negativ"; "positiv"; "negative"; "positive"] s = Ok None)
            [[("The", (-0.125)%float)]]) as He.
  { constructor; [vm_compute; reflexivity | constructor]. }
  assert (generated_labels [(" Pos", (-0.125)%float); ("neg", (-2)%float)]
          = ["pos"; "neg"]) as Hgl.
  { vm_compute. reflexivity. }
  assert (candidate_output_labels cfg_sentiment
            ["negativ"; "positiv"; "negative"; "positive"] "pos" = {[ "positiv" ]})
    as HX.
  { vm_compute. reflexivity. }
  split; [exact pop_first_ok|]. split; [exact He|]. split; [exact Hgl|].
  split; [exact HX|].
  exact (first_alternative_unique_match pop_first cfg_sentiment
           ["negativ"; "positiv"; "negative"; "positive"]
           [[("The", (-0.125)%float)]] []
           [(" Pos", (-0.125)%float); ("neg", (-2)%float)] "pos" "positiv" ["neg"]
           pop_first_ok He Hgl HX).
Defined.



(** X3. Where the prompt labels are lower-case and every key of
    [prompt_label_mapping] is an English label of [id2label], every label
    [get_closest_logprobs_labels] returns is accepted by the normalisation
    of [compute_metrics]: it becomes the id of an English label whose
    prompt label it is. *)
Theorem resolved_labels_are_accepted (set_pop : gset string → string)
    (cfg : DatasetConfig) (batch : list (list logprob_list))
    (labels : list string) (log : list diagnostic) :
  set_pop_ok set_pop →
  Forall (λ loc, lower loc = loc) (prompt_label_mapping cfg).*2 →
  Forall (λ k, k ∈ english_labels cfg) (prompt_label_mapping cfg).*1 →
  get_closest_logprobs_labels set_pop cfg batch = Ok (labels, log) →
  Forall (λ l, ∃ e i, (e, l) ∈ prompt_label_mapping cfg ∧ (i, e) ∈ id2label cfg
                      ∧ prediction_id cfg (Label l) = Ok (Id i)) labels.
Proof.
  intros Hpop Hlow Hkeys Hrun. apply Forall_forall. intros l Hl.
  destruct (returned_label_resolved _ _ _ _ _ _ Hrun Hl)
    as (cands & sample & lg & Hc & _ & Hr).
  destruct (resolved_label_is_prompt_label _ _ _ _ _ _ Hpop Hc Hr)
    as (loc & Hloc & Hl').
  assert (l = loc ∧ lower l = l) as [-> Hll].
  { pose proof (proj1 (Forall_forall _ _) Hlow loc Hloc) as Hlo.
    destruct Hl' as [->| ->]; by rewrite ?Hlo. }
  destruct (last_key_of_is_Some _ _ Hloc) as [e He].
  pose proof (last_key_of_elem_of _ _ _ He) as Hin.
  assert (e ∈ english_labels cfg) as Heng.
  { apply (proj1 (Forall_forall _ _) Hkeys). apply list_elem_of_fmap. by exists (e, loc). }
  destruct (last_key_of_is_Some _ _ Heng) as [i Hi].
  exists e, i. split_and!; [done | by apply last_key_of_elem_of |].
  simpl. rewrite Hll, !inverted_lookup, He. simpl.
  by rewrite inverted_lookup, Hi.
Qed.

Lemma resolved_labels_are_accepted_witness :
  set_pop_ok pop_first
  ∧ Forall (λ loc, lower loc = loc) (prompt_label_mapping cfg_sentiment).*2
  ∧ Forall (λ k, k ∈ english_labels cfg_sentiment) (prompt_label_mapping cfg_sentiment).*1
  ∧ get_closest_logprobs_labels pop_first cfg_sentiment
      [[[(" Pos", (-0.125)%float)]]; []] = Ok (["positiv"; "negativ"],
                                               [EmptyOutput "negativ"])
  ∧ Forall (λ l, ∃ e i, (e, l) ∈ prompt_label_mapping cfg_sentiment
                        ∧ (i, e) ∈ id2label cfg_sentiment
                        ∧ prediction_id cfg_sentiment (Label l) = Ok (Id i))
      ["positiv"; "negativ"].
Proof.
  assert (Forall (λ loc, lower loc = loc) (prompt_label_mapping cfg_sentiment).*2)
    as Hlow.
  { repeat constructor. }
  assert (Forall (λ k, k ∈ english_labels cfg_sentiment)
            (prompt_label_mapping cfg_sentiment).*1) as Hkeys.
  { repeat constructor. }
  assert (get_closest_logprobs_labels pop_first cfg_sentiment
            [[[(" Pos", (-0.125)%float)]]; []]
          = Ok (["positiv"; "negativ"], [EmptyOutput "negativ"])) as Hrun.
  { vm_compute. reflexivity. }
  split; [exact pop_first_ok|]. split; [exact Hlow|]. split; [exact Hkeys|].
  split; [exact Hrun|].
  exact (resolved_labels_are_accepted pop_first cfg_sentiment _ _ _
           pop_first_ok Hlow Hkeys Hrun).
Defined.

(** X4. For a dataset that has a label and maps every English label to a
    prompt label, [extract_labels_from_generation] returns one label per
    example of the log-probabilities when the model reports them, and one
    label per generated sequence otherwise. *)
Theorem extract_labels_from_generation_length (set_pop : gset string → string)
    (input_batch : list (string * list string)) (model_output : ModelOutput.t)
    (cfg : DatasetConfig) :
  english_labels cfg ≠ [] →
  Forall (λ lbl, is_Some (dict_lookup (prompt_label_mapping cfg) lbl))
         (english_labels cfg) →
  ∃ labels log,
    extract_labels_from_generation set_pop input_batch model_output cfg
      = Ok (labels, log)
    ∧ length labels
      = match ModelOutput.scores model_output with
        | Some generation_logprobs => length generation_logprobs
        | None => length (ModelOutput.sequences model_output)
        end.
Proof.
  intros Hne Hkeys. unfold extract_labels_from_generation.
  destruct (ModelOutput.scores model_output) as [logprobs|].
  - destruct (candidate_labels_Ok cfg Hkeys) as (ll & _ & Hc & _).
    destruct (get_closest_logprobs_labels_spec set_pop cfg _ logprobs Hc)
      as (rs & Hrs & ->).
    { destruct (english_labels cfg); [done | by destruct ll]. }
    eexists _, _. split; [done|].
    rewrite length_fmap. by apply mapM_Ok_length in Hrs.
  - unfold get_closest_word_edit_labels.
    destruct (mapM_is_Ok
      (λ lbl, getitem (dict_lookup (prompt_label_mapping cfg) lbl))
      (english_labels cfg)) as [cl Hcl].
    { eapply Forall_impl; [exact Hkeys|]. by intros lbl [loc ->]. }
    rewrite Hcl. simpl.
    destruct (mapM_closest_label cl (ModelOutput.sequences model_output))
      as (out & Hout & HF).
    { apply mapM_Ok_length in Hcl. intros ->. by destruct (english_labels cfg). }
    rewrite Hout. simpl. eexists _, _. split; [done|].
    symmetry. by eapply Forall2_length.
Qed.

Lemma extract_labels_from_generation_length_witness :
  english_labels cfg_sentiment ≠ []
  ∧ Forall (λ lbl, is_Some (dict_lookup (prompt_label_mapping cfg_sentiment) lbl))
           (english_labels cfg_sentiment)
  ∧ ∃ labels log,
      extract_labels_from_generation pop_first []
        {| ModelOutput.sequences := ["Positiv"; "negativt"; "?"];
           ModelOutput.scores := None |} cfg_sentiment
        = Ok (labels, log)
      ∧ length labels = 3.
Proof.
  assert (english_labels cfg_sentiment ≠ []) as Hne by discriminate.
  assert (Forall (λ lbl, is_Some (dict_lookup (prompt_label_mapping cfg_sentiment) lbl))
                 (english_labels cfg_sentiment)) as Hkeys.
  { repeat constructor; eexists; reflexivity. }
  split; [exact Hne|]. split; [exact Hkeys|].
  exact (extract_labels_from_generation_length pop_first []
           {| ModelOutput.sequences := ["Positiv"; "negativt"; "?"];
              ModelOutput.scores := None |} cfg_sentiment Hne Hkeys).
Defined.

(** ** An answer that is a label up to case *)

Lemma distance_cons (a b : ascii) (s t : string) :
  distance (String a s) (String b t)
  = Nat.min (distance s (String b t) + 1)
      (Nat.min (distance (String a s) t + 1)
         (distance s t + (if decide (a = b) then 0 else 1))).
Proof. reflexivity. Qed.

Lemma distance_eq_0 (s : string) : ∀ t, distance s t = 0 → s = t.
Proof.
  induction s as [|a s IH]; intros [|b t].
  - done.
  - discriminate.
  - discriminate.
  - rewrite distance_cons. intros H.
    destruct (decide (a = b)) as [->|]; [|lia].
    f_equal. apply IH. lia.
Qed.

(** X5. When a candidate label equals the decoded string up to case, the
    edit-distance resolver returns such a label: the first one of the
    candidate list that equals the string up to case. *)
Theorem exact_match_is_returned (labels : list string) (predicted_label : string)
    (j : nat) (c : string) :
  labels !! j = Some c →
  lower c = lower predicted_label →
  ∃ i c', (i ≤ j)%nat ∧ labels !! i = Some c'
    ∧ closest_label labels predicted_label = Ok c'
    ∧ lower c' = lower predicted_label
    ∧ (∀ k c'', (k < i)%nat → labels !! k = Some c'' →
         lower c'' ≠ lower predicted_label).
Proof.
  intros Hj Hc.
  destruct (closest_label_spec labels predicted_label)
    as (i & c' & Hcl & Hi & Hmin & Hfirst).
  { intros ->. done. }
  pose proof (Hmin j c Hj) as Hle.
  rewrite Hc, distance_refl in Hle.
  assert (distance (lower predicted_label) (lower c') = 0) as H0 by lia.
  exists i, c'. split_and!; [|done|done|by apply distance_eq_0 in H0|].
  - destruct (decide (i ≤ j)%nat) as [|Hgt]; [done|].
    assert (j < i)%nat as Hlt by lia.
    pose proof (Hfirst j c Hlt Hj) as Hlt'. rewrite Hc, distance_refl in Hlt'. lia.
  - intros k c'' Hk Hk' Heq.
    pose proof (Hfirst k c'' Hk Hk') as Hlt. rewrite Heq, distance_refl in Hlt. lia.
Qed.

Lemma exact_match_is_returned_witness :
  ["negativ"; "Positiv"; "positiv"] !! 2 = Some "positiv"
  ∧ lower "positiv" = lower "POSITIV"
  ∧ closest_label ["negativ"; "Positiv"; "positiv"] "POSITIV" = Ok "Positiv"
  ∧ ∃ i c', (i ≤ 2)%nat ∧ ["negativ"; "Positiv"; "positiv"] !! i = Some c'
      ∧ closest_label ["negativ"; "Positiv"; "positiv"] "POSITIV" = Ok c'
      ∧ lower c' = lower "POSITIV"
      ∧ (∀ k c'', (k < i)%nat → ["negativ"; "Positiv"; "positiv"] !! k = Some c'' →
           lower c'' ≠ lower "POSITIV").
Proof.
  split; [reflexivity|]. split; [reflexivity|]. split; [vm_compute; reflexivity|].
  exact (exact_match_is_returned ["negativ"; "Positiv"; "positiv"] "POSITIV" 2
           "positiv" eq_refl eq_refl).
Defined.

(** ** Edge cases of the edit-distance resolver *)

Lemma mapM_raise_KeyError {A B} (f : A → result B) (l : list A) (x : A) :
  (∀ y e, f y = Raise e → e = KeyError) →
  x ∈ l → f x = Raise KeyError → mapM f l = Raise KeyError.
Proof.
  intros Honly Hx Hfx. induction l as [|y l IH]; [by apply elem_of_nil in Hx|].
  simpl. destruct (f y) as [b|e] eqn:Hy; simpl.
  - apply elem_of_cons in Hx as [->|Hx]; [congruence|]. by rewrite IH.
  - by rewrite (Honly _ _ Hy).
Qed.

(** X6. [get_closest_word_edit_labels] builds the candidate list first:
    a label of [id2label] that is no key of [prompt_label_mapping] is a
    [KeyError], even without any sequence; with every label mapped, no
    sequence gives no label; and a dataset without labels is a
    [ValueError] as soon as there is a sequence. *)
Theorem get_closest_word_edit_labels_edges (cfg : DatasetConfig) :
  (∀ generated_sequences lbl,
     lbl ∈ english_labels cfg →
     dict_lookup (prompt_label_mapping cfg) lbl = None →
     get_closest_word_edit_labels generated_sequences cfg = Raise KeyError)
  ∧ (Forall (λ lbl, is_Some (dict_lookup (prompt_label_mapping cfg) lbl))
            (english_labels cfg) →
     get_closest_word_edit_labels [] cfg = Ok [])
  ∧ (∀ s generated_sequences,
       english_labels cfg = [] →
       get_closest_word_edit_labels (s :: generated_sequences) cfg
       = Raise ValueError).
Proof.
  unfold get_closest_word_edit_labels. split_and!.
  - intros seqs lbl Hin Hnone.
    rewrite (mapM_raise_KeyError _ _ lbl); [done| |done|by rewrite Hnone].
    intros y e. by destruct (dict_lookup _ y); intros [=].
  - intros Hkeys.
    destruct (mapM_is_Ok
      (λ lbl, getitem (dict_lookup (prompt_label_mapping cfg) lbl))
      (english_labels cfg)) as [cl ->]; [|done].
    eapply Forall_impl; [exact Hkeys|]. by intros lbl [loc ->].
  - intros s seqs ->. done.
Qed.

Lemma get_closest_word_edit_labels_edges_example :
  get_closest_word_edit_labels []
    {| id2label := [(0%Z, "positive")]; prompt_label_mapping := [];
       task := {| metrics := [] |} |} = Raise KeyError
  ∧ get_closest_word_edit_labels [] cfg_sentiment = Ok []
  ∧ get_closest_word_edit_labels ["ja"]
      {| id2label := []; prompt_label_mapping := []; task := {| metrics := [] |} |}
    = Raise ValueError.
Proof. split_and!; by vm_compute. Qed.

(** ** Class scores *)

Lemma argmax_from_bound (l : list float) : ∀ (bi : nat) (b : float) (i : nat),
  (bi < i)%nat → (argmax_from bi b i l < i + length l)%nat.
Proof.
  induction l as [|x l IH]; intros bi b i Hbi; simpl; [lia|].
  destruct (is_nan b); [lia|].
  destruct (negb (PrimFloat.leb x b)).
  - specialize (IH i x (S i)). lia.
  - specialize (IH bi b (S i)). lia.
Qed.

(** X7. When the model outputs are rows of class scores, the predictions
    are read off without an exception exactly from a non-empty batch of
    rows of one non-zero length, and then there is one prediction per row,
    a class index below the length of the row (also for a row that holds a
    NaN). *)
Theorem raw_predictions_of_scores (rows : list (list float)) :
  (∀ preds, raw_predictions (Scores rows) = Ok preds →
     Forall2 (λ row p, ∃ k, p = Id (Z.of_nat k) ∧ (k < length row)%nat) rows preds)
  ∧ (is_Ok (raw_predictions (Scores rows)) ↔
     ∃ row rows', rows = row :: rows' ∧ row ≠ []
                 ∧ Forall (λ r, length r = length row) rows').
Proof.
  assert (∀ rs preds, mapM row_argmax rs = Ok preds →
            Forall2 (λ row p, ∃ k, p = Id (Z.of_nat k) ∧ (k < length row)%nat)
              rs preds) as Hrows.
  { intros rs preds H%mapM_Ok_Forall2. eapply Forall2_impl; [exact H|].
    intros [|x l] p; simpl; [done|]. intros [= <-]. eexists. split; [done|].
    pose proof (argmax_from_bound l 0 x 1). lia. }
  assert (∀ n rs, n ≠ 0 → Forall (λ r : list float, length r = n) rs →
            is_Ok (mapM row_argmax rs)) as Hok.
  { intros n rs Hn HF.
    destruct (mapM_is_Ok row_argmax rs) as [k ->]; [|done].
    eapply Forall_impl; [exact HF|]. intros [|x l]; simpl; [done|done]. }
  unfold raw_predictions. destruct rows as [|row rows]; simpl.
  { split; [done|]. split; [done|]. by intros (? & ? & ? & _). }
  destruct (forallb _ rows) eqn:Hreg; simpl.
  - split; [intros preds Hp; exact (Hrows (row :: rows) preds Hp)|].
    assert (Forall (λ r, length r = length row) rows) as HF.
    { apply Forall_forall. intros r Hr. apply list_elem_of_In in Hr.
      pose proof (proj1 (forallb_forall _ _) Hreg r Hr) as Hb.
      by apply bool_decide_eq_true in Hb. }
    split.
    + intros Hres. exists row, rows. split_and!; [done| |done].
      intros ->. done.
    + intros (row' & rows' & [= <- <-] & Hne & _).
      apply (Hok (length row) (row :: rows)).
      * by destruct row.
      * by constructor.
  - split; [done|]. split; [done|].
    intros (row' & rows' & [= <- <-] & _ & HF). exfalso.
    assert (forallb (λ r', bool_decide (length r' = length row)) rows = true) as Ht.
    { apply forallb_forall. intros r Hr. apply bool_decide_eq_true.
      apply (proj1 (Forall_forall _ _) HF). by apply list_elem_of_In. }
    congruence.
Qed.

(** ** The entries of the result *)

Section ResultKeys.

Variable EvaluationModule : Type.
Variable metric_compute :
  EvaluationModule → list entry → list entry → list (string * string) →
  result (option (gmap string scores)).
Variable loaded : gmap string (option EvaluationModule).
Variables predictions references : list entry.

Lemma run_metrics_keys cfgs : ∀ results results' n,
  run_metrics EvaluationModule metric_compute loaded predictions references cfgs results
    = Ok results' →
  is_Some (results' !! n) →
  is_Some (results !! n) ∨ ∃ cfg, cfg ∈ cfgs ∧ name cfg = n.
Proof.
  induction cfgs as [|cfg cfgs IH]; intros results results' n; simpl.
  { intros [= <-]. by left. }
  assert (∀ results0 : gmap string float,
            is_Some (results0 !! n) ∨ (∃ c, c ∈ cfgs ∧ name c = n) →
            (∀ k, is_Some (results0 !! k) → k ≠ name cfg → is_Some (results !! k)) →
            is_Some (results !! n) ∨ ∃ c, c ∈ cfg :: cfgs ∧ name c = n) as Hstep.
  { intros results0 [Hs|(c & Hc & Hn)] Hold.
    - destruct (decide (n = name cfg)) as [->|Hne].
      + right. exists cfg. split; [by left | done].
      + left. by apply Hold.
    - right. exists c. split; [by right | done]. }
  destruct (loaded !! name cfg) as [[metric|]|]; simpl; [|done..].
  destruct (metric_compute _ _ _ _) as [[sd|]|]; simpl; [| |done].
  - destruct (sd !! results_key cfg) as [[x|xs]|]; simpl; [| |done].
    + intros Hrun Hn. apply (Hstep _ (IH _ _ _ Hrun Hn)).
      intros k Hk Hne. by rewrite lookup_insert_ne in Hk.
    + destruct (mean xs); simpl; [|done].
      intros Hrun Hn. apply (Hstep _ (IH _ _ _ Hrun Hn)).
      intros k Hk Hne. by rewrite lookup_insert_ne in Hk.
  - intros Hrun Hn. apply (Hstep _ (IH _ _ _ Hrun Hn)). done.
Qed.

Lemma scandeval_run_metrics_keys cfgs : ∀ results results' n,
  ScandEval.run_metrics EvaluationModule metric_compute loaded predictions references
    cfgs results = Ok results' →
  is_Some (results' !! n) →
  is_Some (results !! n) ∨ ∃ cfg, cfg ∈ cfgs ∧ name cfg = n.
Proof.
  induction cfgs as [|cfg cfgs IH]; intros results results' n; simpl.
  { intros [= <-]. by left. }
  assert (∀ results0 : gmap string scores,
            is_Some (results0 !! n) ∨ (∃ c, c ∈ cfgs ∧ name c = n) →
            (∀ k, is_Some (results0 !! k) → k ≠ name cfg → is_Some (results !! k)) →
            is_Some (results !! n) ∨ ∃ c, c ∈ cfg :: cfgs ∧ name c = n) as Hstep.
  { intros results0 [Hs|(c & Hc & Hn)] Hold.
    - destruct (decide (n = name cfg)) as [->|Hne].
      + right. exists cfg. split; [by left | done].
      + left. by apply Hold.
    - right. exists c. split; [by right | done]. }
  destruct (loaded !! name cfg) as [[metric|]|]; simpl; [|done..].
  destruct (metric_compute _ _ _ _) as [[sd|]|]; simpl; [| |done].
  - destruct (sd !! results_key cfg) as [sc|]; simpl; [|done].
    intros Hrun Hn. apply (Hstep _ (IH _ _ _ Hrun Hn)).
    intros k Hk Hne. by rewrite lookup_insert_ne in Hk.
  - intros Hrun Hn. apply (Hstep _ (IH _ _ _ Hrun Hn)). done.
Qed.

End ResultKeys.

(** X8. Every key of the mapping that [compute_metrics] (and
    [_compute_metrics] of the earlier implementation) returns is the name
    of a configured metric. *)
Theorem result_keys_are_metric_names (EvaluationModule : Type)
    (metric_compute :
       EvaluationModule → list entry → list entry → list (string * string) →
       result (option (gmap string scores))) :
  (∀ evaluate_load model_outputs labels dataset_config benchmark_config results n,
     compute_metrics EvaluationModule evaluate_load metric_compute
       (model_outputs, labels) dataset_config benchmark_config = Ok results →
     is_Some (results !! n) →
     ∃ cfg, cfg ∈ metrics (task dataset_config) ∧ name cfg = n)
  ∧ (∀ (self : ScandEval.BenchmarkDataset EvaluationModule) model_outputs labels
       id2label results n,
       ScandEval._compute_metrics EvaluationModule metric_compute self
         (model_outputs, labels) id2label = Ok results →
       is_Some (results !! n) →
       ∃ cfg, cfg ∈ metrics (ScandEval.task
                               (ScandEval.dataset_config EvaluationModule self))
              ∧ name cfg = n).
Proof.
  split.
  - intros load mo labels cfg bcfg results n Hrun Hn.
    unfold compute_metrics in Hrun.
    apply bind_Ok in Hrun as (loaded & _ & Hrun).
    apply bind_Ok in Hrun as ([p r] & _ & Hrun).
    destruct (run_metrics_keys _ _ _ _ _ _ _ _ _ Hrun Hn) as [[x Hx]|H]; [|done].
    by rewrite lookup_empty in Hx.
  - intros self mo labels ids results n Hrun Hn.
    unfold ScandEval._compute_metrics in Hrun.
    apply bind_Ok in Hrun as ([p r] & _ & Hrun).
    destruct (scandeval_run_metrics_keys _ _ _ _ _ _ _ _ _ Hrun Hn) as [[x Hx]|H];
      [|done].
    by rewrite lookup_empty in Hx.
Qed.

(** ** Labels the normalisation knows and does not know *)

Lemma last_key_of_None {K} (d : list (K * string)) (v : string) :
  v ∉ d.*2 → last_key_of d v = None.
Proof.
  intros Hv. destruct (last_key_of d v) as [k|] eqn:Hk; [|done].
  exfalso. apply Hv. apply last_key_of_elem_of in Hk.
  apply list_elem_of_fmap. by exists (k, v).
Qed.

Lemma last_key_of_NoDup {K} (d : list (K * string)) (k : K) (v : string) :
  NoDup d.*2 → (k, v) ∈ d → last_key_of d v = Some k.
Proof.
  induction d as [|[k' v'] d IH]; simpl.
  { by intros _ ?%elem_of_nil. }
  intros [Hv' Hd]%NoDup_cons [[= -> ->]|Hin]%elem_of_cons.
  - rewrite last_key_of_None by done. by destruct (decide (v' = v')).
  - by rewrite IH.
Qed.

Lemma raw_predictions_entries (e : entry) (l : list entry) :
  raw_predictions (Entries (e :: l)) = Ok (e :: l).
Proof. unfold raw_predictions. simpl. by destruct (is_label e || existsb is_label l). Qed.

(** X9. A string prediction whose lower-casing is no prompt label makes
    [compute_metrics] raise [KeyError] once the metrics are loaded; this
    is so for a prompt label that is written with a capital letter. *)
Theorem unknown_prediction_label_is_KeyError (EvaluationModule : Type)
    (evaluate_load : string → string → result EvaluationModule)
    (metric_compute :
       EvaluationModule → list entry → list entry → list (string * string) →
       result (option (gmap string scores)))
    (l labels : list entry) (cfg : DatasetConfig) (bcfg : BenchmarkConfig)
    (s : string) :
  Label s ∈ l →
  lower s ∉ (prompt_label_mapping cfg).*2 →
  is_Ok (load_metrics EvaluationModule evaluate_load (cache_dir bcfg)
           (metrics (task cfg)) ∅) →
  compute_metrics EvaluationModule evaluate_load metric_compute
    (Single (Entries l), labels) cfg bcfg = Raise KeyError.
Proof.
  intros Hin Hs Hload. unfold compute_metrics.
  destruct (load_metrics _ _ _ _ _) as [loaded|]; [|done]. simpl.
  unfold normalized_inputs. destruct l as [|e l]; [by apply elem_of_nil in Hin|].
  rewrite raw_predictions_entries.
  unfold raise_if_model_output_contains_nan_values, contains_nan.
  cbn [mbind result_bind].
  rewrite (mapM_raise_KeyError (prediction_id cfg) (e :: l) (Label s)); [done| |done|].
  - intros [i|s'] err; simpl; [done|].
    destruct (inverted (prompt_label_mapping cfg) !! (lower s')) as [lab|]; simpl;
      [|by intros [= <-]].
    destruct (inverted (id2label cfg) !! lab); simpl; [done | by intros [= <-]].
  - simpl. by rewrite inverted_lookup, last_key_of_None.
Qed.

Lemma unknown_prediction_label_is_KeyError_witness :
  Label "positiv" ∈ [Label "positiv"]
  ∧ (lower "positiv" ∉ (prompt_label_mapping cfg_capital_prompt).*2)
  ∧ is_Ok (load_metrics unit worker_load (cache_dir {| cache_dir := "" |})
             (metrics (task cfg_capital_prompt)) ∅)
  ∧ get_closest_logprobs_labels pop_first cfg_capital_prompt
      [[[("Pos", (-0.125)%float)]]]
    = Ok (["positiv"], [NoCandidateFound [[("Pos", (-0.125)%float)]] "positiv"])
  ∧ compute_metrics unit worker_load worker_compute
      (Single (Entries [Label "positiv"]), [Id 0]) cfg_capital_prompt
      {| cache_dir := "" |} = Raise KeyError.
Proof.
  assert (Label "positiv" ∈ [Label "positiv"]) as Hin by (by left).
  assert (lower "positiv" ∉ (prompt_label_mapping cfg_capital_prompt).*2) as Hs.
  { intros H. apply list_elem_of_singleton in H. discriminate H. }
  assert (is_Ok (load_metrics unit worker_load (cache_dir {| cache_dir := "" |})
             (metrics (task cfg_capital_prompt)) ∅)) as Hload by exact I.
  split; [exact Hin|]. split; [exact Hs|]. split; [exact Hload|].
  split; [vm_compute; reflexivity|].
  exact (unknown_prediction_label_is_KeyError unit worker_load worker_compute
           [Label "positiv"] [Id 0] cfg_capital_prompt {| cache_dir := "" |}
           "positiv" Hin Hs Hload).
Defined.

(** X10. Where the prompt labels are pairwise distinct and the English
    labels are pairwise distinct, a lower-case prompt label as prediction
    and its English label as reference get the same numeric id, the id of
    the English label in [id2label]. *)
Theorem prompt_and_english_label_same_id (cfg : DatasetConfig) (i : Z)
    (e loc : string) :
  NoDup (prompt_label_mapping cfg).*2 →
  NoDup (id2label cfg).*2 →
  (i, e) ∈ id2label cfg →
  (e, loc) ∈ prompt_label_mapping cfg →
  lower loc = loc →
  lower e = e →
  prediction_id cfg (Label loc) = Ok (Id i)
  ∧ label_id cfg (Label e) = Ok (Id i).
Proof.
  intros Hm Hi Hie Hel Hloc He. simpl.
  rewrite Hloc, He, !inverted_lookup.
  rewrite (last_key_of_NoDup _ _ _ Hm Hel). simpl.
  rewrite inverted_lookup. by rewrite (last_key_of_NoDup _ _ _ Hi Hie).
Qed.

Lemma prompt_and_english_label_same_id_witness :
  NoDup (prompt_label_mapping cfg_sentiment).*2
  ∧ NoDup (id2label cfg_sentiment).*2
  ∧ (1%Z, "positive") ∈ id2label cfg_sentiment
  ∧ ("positive", "positiv") ∈ prompt_label_mapping cfg_sentiment
  ∧ lower "positiv" = "positiv"
  ∧ lower "positive" = "positive"
  ∧ prediction_id cfg_sentiment (Label "positiv") = Ok (Id 1)
  ∧ label_id cfg_sentiment (Label "positive") = Ok (Id 1).
Proof.
  assert (NoDup (prompt_label_mapping cfg_sentiment).*2) as Hm.
  { apply (bool_decide_unpack _). reflexivity. }
  assert (NoDup (id2label cfg_sentiment).*2) as Hi.
  { apply (bool_decide_unpack _). reflexivity. }
  assert ((1%Z, "positive") ∈ id2label cfg_sentiment) as Hie by (right; left).
  assert (("positive", "positiv") ∈ prompt_label_mapping cfg_sentiment) as Hel
    by (right; left).
  split; [exact Hm|]. split; [exact Hi|]. split; [exact Hie|]. split; [exact Hel|].
  split; [reflexivity|]. split; [reflexivity|].
  exact (prompt_and_english_label_same_id cfg_sentiment 1 "positive" "positiv"
           Hm Hi Hie Hel eq_refl eq_refl).
Defined.

(** ** A process on which no metric has a result *)

Section LoadedMetrics.

Variable EvaluationModule : Type.
Variable evaluate_load : string → string → result EvaluationModule.

(** Every configured metric gets an entry, and with a metric identifier
    everywhere the entry is a module. *)
Lemma load_metrics_lookup cache cfgs : ∀ acc loaded,
  load_metrics EvaluationModule evaluate_load cache cfgs acc = Ok loaded →
  Forall (λ c, huggingface_id c ≠ "") cfgs →
  (∀ n o, acc !! n = Some o → is_Some o) →
  (∀ n o, loaded !! n = Some o → is_Some o)
  ∧ (∀ n, is_Some (acc !! n) → is_Some (loaded !! n))
  ∧ (∀ c, c ∈ cfgs → is_Some (loaded !! name c)).
Proof.
  induction cfgs as [|cfg cfgs IH]; intros acc loaded; simpl.
  { intros [= <-] _ Hacc. split_and!; [done | done | by intros c ?%elem_of_nil]. }
  intros (m & Hm & Hrest)%bind_Ok [Hid Hids]%Forall_cons Hacc.
  destruct (decide (huggingface_id cfg ≠ "")) as [_|]; [|done].
  apply fmap_Ok in Hm as (module & _ & ->).
  destruct (IH _ _ Hrest Hids) as (Hall & Hkeep & Hin).
  { intros n o. destruct (decide (name cfg = n)) as [<-|Hne].
    - rewrite lookup_insert_eq. intros [= <-]. by eexists.
    - rewrite lookup_insert_ne by done. apply Hacc. }
  split_and!; [done| |].
  - intros n Hn. apply Hkeep. destruct (decide (name cfg = n)) as [<-|Hne].
    + rewrite lookup_insert_eq. by eexists.
    + by rewrite lookup_insert_ne.
  - intros c [->|Hc]%elem_of_cons; [|by apply Hin].
    apply Hkeep. rewrite lookup_insert_eq. by eexists.
Qed.

End LoadedMetrics.

(** X11. Where every configured metric has a metric identifier and every
    computation returns [None], [compute_metrics] returns the empty
    mapping whenever the metrics are loaded and the inputs are normalised
    without an exception. *)
Theorem no_metric_result_gives_empty_mapping (EvaluationModule : Type)
    (evaluate_load : string → string → result EvaluationModule)
    (metric_compute :
       EvaluationModule → list entry → list entry → list (string * string) →
       result (option (gmap string scores)))
    (model_outputs : model_outputs) (labels : list entry)
    (cfg : DatasetConfig) (bcfg : BenchmarkConfig) :
  Forall (λ c, huggingface_id c ≠ "") (metrics (task cfg)) →
  is_Ok (load_metrics EvaluationModule evaluate_load (cache_dir bcfg)
           (metrics (task cfg)) ∅) →
  is_Ok (normalized_inputs cfg (model_predictions model_outputs) labels) →
  (∀ metric predictions references kwargs,
     metric_compute metric predictions references kwargs = Ok None) →
  compute_metrics EvaluationModule evaluate_load metric_compute
    (model_outputs, labels) cfg bcfg = Ok ∅.
Proof.
  intros Hids Hload Hnorm Hnone. unfold compute_metrics.
  destruct (load_metrics _ _ _ _ _) as [loaded|] eqn:Hl; [|done]. simpl.
  destruct (normalized_inputs _ _ _) as [[p r]|]; [|done]. simpl.
  destruct (load_metrics_lookup _ _ _ _ _ _ Hl Hids) as (Hall & _ & Hin).
  { intros n o. by rewrite lookup_empty. }
  assert (∀ cfgs res, (∀ c, c ∈ cfgs → is_Some (loaded !! name c)) →
            run_metrics EvaluationModule metric_compute loaded p r cfgs res = Ok res)
    as Hloop.
  { induction cfgs as [|c cfgs IH]; intros res Hc; simpl; [done|].
    destruct (Hc c) as [o Ho]; [by left|]. rewrite Ho. simpl.
    destruct (Hall _ _ Ho) as [m ->]. rewrite Hnone. simpl.
    apply IH. intros c' Hc'. apply Hc. by right. }
  by apply Hloop.
Qed.

Lemma no_metric_result_gives_empty_mapping_witness :
  Forall (λ c, huggingface_id c ≠ "") (metrics (task cfg_two_metrics))
  ∧ is_Ok (load_metrics unit worker_load (cache_dir {| cache_dir := "" |})
             (metrics (task cfg_two_metrics)) ∅)
  ∧ is_Ok (normalized_inputs cfg_two_metrics
             (model_predictions (Single (Entries [Label "Positiv"; Id 0])))
             [Id 1; Label "negative"])
  ∧ (∀ metric predictions references kwargs,
       worker_compute metric predictions references kwargs = Ok None)
  ∧ compute_metrics unit worker_load worker_compute
      (Single (Entries [Label "Positiv"; Id 0]), [Id 1; Label "negative"])
      cfg_two_metrics {| cache_dir := "" |} = Ok ∅.
Proof.
  assert (Forall (λ c, huggingface_id c ≠ "") (metrics (task cfg_two_metrics)))
    as Hids.
  { repeat constructor; discriminate. }
  assert (is_Ok (load_metrics unit worker_load (cache_dir {| cache_dir := "" |})
             (metrics (task cfg_two_metrics)) ∅)) as Hload.
  { vm_compute. exact I. }
  assert (is_Ok (normalized_inputs cfg_two_metrics
             (model_predictions (Single (Entries [Label "Positiv"; Id 0])))
             [Id 1; Label "negative"])) as Hnorm.
  { vm_compute. exact I. }
  assert (∀ metric predictions references kwargs,
            worker_compute metric predictions references kwargs = Ok None) as Hnone.
  { reflexivity. }
  split; [exact Hids|]. split; [exact Hload|]. split; [exact Hnorm|].
  split; [exact Hnone|].
  exact (no_metric_result_gives_empty_mapping unit worker_load worker_compute
           (Single (Entries [Label "Positiv"; Id 0])) [Id 1; Label "negative"]
           cfg_two_metrics {| cache_dir := "" |} Hids Hload Hnorm Hnone).
Defined.

(** ** The answer span of a decoded generation *)

Lemma mapM_raise_only {A B} (f : A → result B) (l : list A) (x : A) (e : exn) :
  (∀ y e', f y = Raise e' → e' = e) →
  x ∈ l → f x = Raise e → mapM f l = Raise e.
Proof.
  intros Honly Hx Hfx. induction l as [|y l IH]; [by apply elem_of_nil in Hx|].
  simpl. destruct (f y) as [b|e'] eqn:Hy; simpl.
  - apply elem_of_cons in Hx as [->|Hx]; [congruence|]. by rewrite IH.
  - by rewrite (Honly _ _ Hy).
Qed.

Section SplitFacts.

Import RawPredictions.

Lemma split_from_nonempty sep s : ∀ k, split_from sep k s ≠ [].
Proof.
  induction s as [|c s IH]; intros k; cbn [split_from]; [done|].
  destruct k; [|apply IH]. destruct (String.prefix sep (String c s)); [done|].
  by destruct (split_from sep 0 s).
Qed.

Lemma last_item_split s sep : ∃ piece, last_item (split s sep) = Ok piece
                                       ∧ piece ∈ split s sep.
Proof.
  unfold last_item. destruct (last (split s sep)) as [piece|] eqn:Hl.
  - exists piece. split; [done|]. by eapply last_Some_elem_of.
  - apply last_None in Hl. by apply split_from_nonempty in Hl.
Qed.

(** A piece holds characters of the string only. *)
Lemma split_from_chars sep s : ∀ k piece x,
  piece ∈ split_from sep k s → x ∈ chars piece → x ∈ chars s.
Proof.
  induction s as [|c s IH]; intros k piece x; cbn [split_from].
  { intros ->%list_elem_of_singleton. done. }
  change (chars (String c s)) with (c :: chars s).
  destruct k as [|k].
  - destruct (String.prefix sep (String c s)).
    + intros [->|Hp]%elem_of_cons Hx; [by apply elem_of_nil in Hx|].
      right. by eapply IH.
    + destruct (split_from sep 0 s) as [|p ps] eqn:Hs.
      { by apply split_from_nonempty in Hs. }
      intros [->|Hp]%elem_of_cons Hx.
      * change (chars (String c p)) with (c :: chars p) in Hx.
        apply elem_of_cons in Hx as [->|Hx]; [by left|].
        right. eapply (IH 0 p); [rewrite Hs; by left | done].
      * right. eapply (IH 0 piece); [rewrite Hs; by right | done].
  - intros Hp Hx. right. by eapply IH.
Qed.

Lemma prefix_single c a s :
  String.prefix (String c EmptyString) (String a s) = bool_decide (c = a).
Proof.
  simpl. destruct (ascii_dec c a) as [->|Hne].
  - rewrite bool_decide_true by done. by destruct s.
  - by rewrite bool_decide_false.
Qed.

(** No piece of a split at one character holds that character. *)
Lemma split_char_free c s : ∀ piece,
  piece ∈ split s (String c EmptyString) → c ∉ chars piece.
Proof.
  unfold split. induction s as [|a s IH]; intros piece; cbn [split_from].
  { intros ->%list_elem_of_singleton. by intros ?%elem_of_nil. }
  rewrite prefix_single. change (String.length (String c "") - 1) with 0.
  destruct (decide (c = a)) as [->|Hne].
  - rewrite bool_decide_true by done.
    intros [->|Hp]%elem_of_cons; [by intros ?%elem_of_nil | by apply IH].
  - rewrite bool_decide_false by done.
    destruct (split_from (String c EmptyString) 0 s) as [|p ps] eqn:Hs.
    { by apply split_from_nonempty in Hs. }
    intros [->|Hp]%elem_of_cons.
    + change (chars (String a p)) with (a :: chars p).
      intros [?|Hx]%elem_of_cons; [done|]. revert Hx. apply IH.
      rewrite ?Hs. by left.
    + apply IH. rewrite ?Hs. by right.
Qed.

Lemma chars_rev_app s : ∀ acc x,
  x ∈ chars (String.rev_app s acc) ↔ x ∈ chars s ∨ x ∈ chars acc.
Proof.
  induction s as [|c s IH]; intros acc x; simpl.
  - split; [by right | by intros [?%elem_of_nil|?]].
  - rewrite IH. simpl. rewrite !elem_of_cons. tauto.
Qed.

Lemma chars_rev s x : x ∈ chars (String.rev s) ↔ x ∈ chars s.
Proof.
  unfold String.rev. rewrite chars_rev_app. simpl.
  split; [by intros [?|?%elem_of_nil] | by left].
Qed.

Lemma chars_lstrip s x : x ∈ chars (lstrip s) → x ∈ chars s.
Proof.
  induction s as [|c s IH]; simpl; [done|].
  destruct (is_space c); [|done]. intros H. right. by apply IH.
Qed.

Lemma chars_strip s x : x ∈ chars (strip s) → x ∈ chars s.
Proof.
  unfold strip. intros H. apply chars_lstrip.
  apply (proj1 (chars_rev _ _)), chars_lstrip. by apply (proj1 (chars_rev _ _)).
Qed.

Lemma answer_span_only_IndexError idx text e :
  answer_span idx text = Raise e → e = IndexError.
Proof.
  unfold answer_span, list_getitem, last_item.
  destruct (split text double_newline !! idx) as [par|]; simpl; [|by intros [= <-]].
  destruct (last (split par newline)) as [line|]; simpl; [|by intros [= <-]].
  destruct (last (split line colon)) as [field|]; simpl; [done | by intros [= <-]].
Qed.

Lemma answer_span_Ok idx text :
  (idx < length (split text double_newline))%nat →
  ∃ a, answer_span idx text = Ok a
    ∧ (newline_char ∉ chars a) ∧ (colon_char ∉ chars a).
Proof.
  intros Hidx. unfold answer_span, list_getitem.
  destruct (lookup_lt_is_Some_2 _ _ Hidx) as [par ->]. simpl.
  destruct (last_item_split par newline) as (line & -> & Hline). simpl.
  destruct (last_item_split line colon) as (field & -> & Hfield). simpl.
  exists (strip field). split; [done|]. split.
  - intros H%chars_strip.
    apply (split_char_free newline_char par line Hline).
    by eapply (split_from_chars colon line 0 field).
  - intros H%chars_strip. by apply (split_char_free colon_char line field Hfield).
Qed.

End SplitFacts.

(** X12. In [_extract_raw_predictions] one generation that is too short
    decides for the whole batch: when the decoded text of some sequence
    has no paragraph at the expected position, every sequence of the
    batch, also one that has the paragraph, gets its whole decoded text,
    trimmed of white space. *)
Theorem short_generation_falls_back_for_the_batch (cfg : RawPredictions.Config)
    (generated_sequences : list (list Z)) (tokenizer : RawPredictions.Tokenizer)
    (ids : list Z) :
  ids ∈ generated_sequences →
  (length (RawPredictions.split
             (RawPredictions.decode tokenizer
                (RawPredictions.completion_ids_list tokenizer ids))
             RawPredictions.double_newline)
   ≤ RawPredictions.pred_idx cfg)%nat →
  RawPredictions._extract_raw_predictions cfg generated_sequences tokenizer
  = Ok ((λ ids, RawPredictions.strip (RawPredictions.decode tokenizer ids))
          <$> (RawPredictions.completion_ids_list tokenizer <$> generated_sequences)).
Proof.
  intros Hin Hshort. unfold RawPredictions._extract_raw_predictions.
  rewrite (mapM_raise_only _ _ (RawPredictions.completion_ids_list tokenizer ids)
             IndexError); [done| | |].
  - intros y e. apply answer_span_only_IndexError.
  - apply list_elem_of_fmap. eauto.
  - unfold RawPredictions.answer_span, list_getitem.
    by rewrite (lookup_ge_None_2 _ _ Hshort).
Qed.

Lemma short_generation_falls_back_for_the_batch_witness :
  RawPredictions.encode "b" ∈
    [RawPredictions.encode
       (String "a" (RawPredictions.double_newline +:+ "Label: ja"));
     RawPredictions.encode "b"]
  ∧ (length (RawPredictions.split
               (RawPredictions.decode RawPredictions.char_tokenizer
                  (RawPredictions.completion_ids_list RawPredictions.char_tokenizer
                     (RawPredictions.encode "b")))
               RawPredictions.double_newline)
     ≤ RawPredictions.pred_idx
         {| RawPredictions.num_few_shot_examples := 0;
            RawPredictions.prompt_instruction_infix := "" |})%nat
  ∧ RawPredictions._extract_raw_predictions
      {| RawPredictions.num_few_shot_examples := 0;
         RawPredictions.prompt_instruction_infix := "" |}
      [RawPredictions.encode
         (String "a" (RawPredictions.double_newline +:+ "Label: ja"));
       RawPredictions.encode "b"]
      RawPredictions.char_tokenizer
    = Ok [String "a" (RawPredictions.double_newline +:+ "Label: ja"); "b"]
  ∧ RawPredictions._extract_raw_predictions
      {| RawPredictions.num_few_shot_examples := 0;
         RawPredictions.prompt_instruction_infix := "" |}
      [RawPredictions.encode
         (String "a" (RawPredictions.double_newline +:+ "Label: ja"))]
      RawPredictions.char_tokenizer
    = Ok ["ja"].
Proof.
  assert (RawPredictions.encode "b" ∈
            [RawPredictions.encode
               (String "a" (RawPredictions.double_newline +:+ "Label: ja"));
             RawPredictions.encode "b"]) as Hin by (right; left).
  assert (length (RawPredictions.split
               (RawPredictions.decode RawPredictions.char_tokenizer
                  (RawPredictions.completion_ids_list RawPredictions.char_tokenizer
                     (RawPredictions.encode "b")))
               RawPredictions.double_newline)
     ≤ RawPredictions.pred_idx
         {| RawPredictions.num_few_shot_examples := 0;
            RawPredictions.prompt_instruction_infix := "" |})%nat as Hshort.
  { vm_compute. lia. }
  split; [exact Hin|]. split; [exact Hshort|].
  split; [|vm_compute; reflexivity].
  pose proof (short_generation_falls_back_for_the_batch
           {| RawPredictions.num_few_shot_examples := 0;
              RawPredictions.prompt_instruction_infix := "" |}
           [RawPredictions.encode
              (String "a" (RawPredictions.double_newline +:+ "Label: ja"));
            RawPredictions.encode "b"]
           RawPredictions.char_tokenizer (RawPredictions.encode "b") Hin Hshort) as H.
  rewrite H. vm_compute. reflexivity.
Defined.

(** X13. When the decoded text of every sequence has a paragraph at the
    expected position, [_extract_raw_predictions] returns one answer per
    sequence, and no answer holds a line feed or a colon. *)
Theorem extracted_answers_are_single_fields (cfg : RawPredictions.Config)
    (generated_sequences : list (list Z)) (tokenizer : RawPredictions.Tokenizer) :
  Forall (λ ids,
            (RawPredictions.pred_idx cfg
             < length (RawPredictions.split
                         (RawPredictions.decode tokenizer
                            (RawPredictions.completion_ids_list tokenizer ids))
                         RawPredictions.double_newline))%nat)
         generated_sequences →
  ∃ answers,
    RawPredictions._extract_raw_predictions cfg generated_sequences tokenizer
      = Ok answers
    ∧ length answers = length generated_sequences
    ∧ Forall (λ a, (RawPredictions.newline_char ∉ RawPredictions.chars a)
                   ∧ (RawPredictions.colon_char ∉ RawPredictions.chars a)) answers.
Proof.
  intros Hlong. unfold RawPredictions._extract_raw_predictions.
  set (f := λ ids, RawPredictions.answer_span (RawPredictions.pred_idx cfg)
                     (RawPredictions.decode tokenizer ids)).
  destruct (mapM_is_Ok f
              (RawPredictions.completion_ids_list tokenizer <$> generated_sequences))
    as [answers Ha].
  { apply Forall_fmap. eapply Forall_impl; [exact Hlong|]. intros ids Hidx. simpl.
    unfold f. by destruct (answer_span_Ok _ _ Hidx) as (a & -> & _). }
  rewrite Ha. exists answers. split; [done|].
  pose proof (mapM_Ok_length _ _ _ Ha) as Hlen. rewrite length_fmap in Hlen.
  split; [done|].
  apply mapM_Ok_Forall2 in Ha. apply Forall_forall. intros a Hin.
  apply list_elem_of_lookup in Hin as [i Hi].
  destruct (Forall2_lookup_r _ _ _ _ _ Ha Hi) as (ids' & Hids & Hf).
  rewrite list_lookup_fmap in Hids.
  destruct (generated_sequences !! i) as [ids|] eqn:Hg; [|done].
  injection Hids as <-.
  pose proof (proj1 (Forall_forall _ _) Hlong ids
                (list_elem_of_lookup_2 _ _ _ Hg)) as Hidx.
  destruct (answer_span_Ok _ _ Hidx) as (a' & Ha' & Hfree).
  unfold f in Hf. rewrite Ha' in Hf. by injection Hf as <-.
Qed.

Lemma extracted_answers_are_single_fields_witness :
  Forall (λ ids,
            (RawPredictions.pred_idx
               {| RawPredictions.num_few_shot_examples := 0;
                  RawPredictions.prompt_instruction_infix := "" |}
             < length (RawPredictions.split
                         (RawPredictions.decode RawPredictions.char_tokenizer
                            (RawPredictions.completion_ids_list
                               RawPredictions.char_tokenizer ids))
                         RawPredictions.double_newline))%nat)
         [RawPredictions.encode
            (String "a" (RawPredictions.double_newline +:+ "Label: ja"))]
  ∧ ∃ answers,
      RawPredictions._extract_raw_predictions
        {| RawPredictions.num_few_shot_examples := 0;
           RawPredictions.prompt_instruction_infix := "" |}
        [RawPredictions.encode
           (String "a" (RawPredictions.double_newline +:+ "Label: ja"))]
        RawPredictions.char_tokenizer
        = Ok answers
      ∧ length answers
        = length [RawPredictions.encode
                    (String "a" (RawPredictions.double_newline +:+ "Label: ja"))]
      ∧ Forall (λ a, (RawPredictions.newline_char ∉ RawPredictions.chars a)
                     ∧ (RawPredictions.colon_char ∉ RawPredictions.chars a)) answers.
Proof.
  assert (Forall (λ ids,
            (RawPredictions.pred_idx
               {| RawPredictions.num_few_shot_examples := 0;
                  RawPredictions.prompt_instruction_infix := "" |}
             < length (RawPredictions.split
                         (RawPredictions.decode RawPredictions.char_tokenizer
                            (RawPredictions.completion_ids_list
                               RawPredictions.char_tokenizer ids))
                         RawPredictions.double_newline))%nat)
         [RawPredictions.encode
            (String "a" (RawPredictions.double_newline +:+ "Label: ja"))]) as Hlong.
  { constructor; [vm_compute; lia | constructor]. }
  split; [exact Hlong|].
  exact (extracted_answers_are_single_fields
           {| RawPredictions.num_few_shot_examples := 0;
              RawPredictions.prompt_instruction_infix := "" |}
           [RawPredictions.encode
              (String "a" (RawPredictions.double_newline +:+ "Label: ja"))]
           RawPredictions.char_tokenizer Hlong).
Defined.

(** ** The edit-distance labels and the normalisation of scandeval *)

Lemma index_from_is_Ok (l : list string) (x : string) :
  x ∈ l → ∀ i, is_Ok (ScandEval.index_from i l x).
Proof.
  induction l as [|y l IH]; simpl; [by intros ?%elem_of_nil|].
  intros Hx i. destruct (decide (y = x)) as [|Hne]; [done|].
  apply elem_of_cons in Hx as [->|Hx]; [done | by apply IH].
Qed.

Lemma scandeval_entry_index_only_KeyError (cfg : ScandEval.DatasetConfig)
    (x : entry) (e : exn) :
  (∀ k v, (k, v) ∈ ScandEval.prompt_label_mapping cfg → k ∈ ScandEval.id2label cfg) →
  ScandEval.entry_index cfg (ScandEval.id2label cfg) x = Raise e → e = KeyError.
Proof.
  intros Hkeys. destruct x as [i|s]; simpl; [done|].
  rewrite inverted_lookup.
  destruct (last_key_of _ (lower s)) as [k|] eqn:Hk; simpl; [|by intros [= <-]].
  apply last_key_of_elem_of, Hkeys in Hk.
  pose proof (index_from_is_Ok _ _ Hk 0) as Hi. unfold ScandEval.index.
  by destruct (ScandEval.index_from 0 _ k).
Qed.

(** X14. The edit-distance path of scandeval returns English labels, that
    is elements of [id2label], while [_compute_metrics] looks a string
    prediction up among the prompt labels: when the lower-casing of a
    returned label is no prompt label, [_compute_metrics] raises
    [KeyError] on the returned labels. *)
Theorem edit_distance_labels_are_english (EvaluationModule : Type)
    (metric_compute :
       EvaluationModule → list entry → list entry → list (string * string) →
       result (option (gmap string scores)))
    (Tokenizer : Type)
    (_extract_raw_predictions :
       ScandEval.DatasetConfig → list (list Z) → Tokenizer → list string)
    (self : ScandEval.BenchmarkDataset EvaluationModule)
    (generated_sequences : list (list Z)) (tokenizer : Tokenizer)
    (predicted_labels : list string) (true_labels : list entry) (p : string) :
  ScandEval._get_closest_word_edit_labels EvaluationModule Tokenizer
    _extract_raw_predictions self generated_sequences tokenizer
  = Ok predicted_labels →
  (∀ k v, (k, v) ∈ ScandEval.prompt_label_mapping (ScandEval.dataset_config _ self) →
          k ∈ ScandEval.id2label (ScandEval.dataset_config _ self)) →
  p ∈ predicted_labels →
  lower p ∉ (ScandEval.prompt_label_mapping (ScandEval.dataset_config _ self)).*2 →
  Forall (λ l, l ∈ ScandEval.id2label (ScandEval.dataset_config _ self))
         predicted_labels
  ∧ ScandEval._compute_metrics EvaluationModule metric_compute self
      (Entries (Label <$> predicted_labels), true_labels)
      (ScandEval.id2label (ScandEval.dataset_config _ self))
    = Raise KeyError.
Proof.
  intros Hpred Hkeys Hp Hlow. split.
  - unfold ScandEval._get_closest_word_edit_labels in Hpred.
    apply mapM_Ok_Forall2 in Hpred. apply Forall_forall. intros l Hl.
    apply list_elem_of_lookup in Hl as [i Hi].
    destruct (Forall2_lookup_r _ _ _ _ _ Hpred Hi) as (s & _ & Hs).
    unfold closest_label in Hs. apply bind_Ok in Hs as (j & _ & Hj).
    unfold list_getitem in Hj.
    destruct (ScandEval.id2label _ !! j) as [c|] eqn:Hc; [|done].
    injection Hj as <-. by eapply list_elem_of_lookup_2.
  - unfold ScandEval._compute_metrics, ScandEval.normalized_inputs.
    destruct predicted_labels as [|q qs]; [by apply elem_of_nil in Hp|].
    rewrite fmap_cons, raw_predictions_entries. cbn [mbind result_bind].
    rewrite (mapM_raise_KeyError (ScandEval.entry_index _ _)
               (Label q :: (Label <$> qs)) (Label p)); [reflexivity| | |].
    + intros y e. by apply scandeval_entry_index_only_KeyError.
    + rewrite <- fmap_cons. apply list_elem_of_fmap. eauto.
    + simpl. rewrite inverted_lookup, (last_key_of_None _ _ Hlow). done.
Qed.

Lemma edit_distance_labels_are_english_witness :
  ScandEval._get_closest_word_edit_labels unit unit
    (λ _ _ _, ["negativ"; "Positiv!"]) scandeval_self [[1%Z]; [2%Z]] tt
  = Ok ["negative"; "positive"]
  ∧ (∀ k v, (k, v) ∈ ScandEval.prompt_label_mapping
                       (ScandEval.dataset_config _ scandeval_self) →
            k ∈ ScandEval.id2label (ScandEval.dataset_config _ scandeval_self))
  ∧ "positive" ∈ ["negative"; "positive"]
  ∧ (lower "positive"
     ∉ (ScandEval.prompt_label_mapping
          (ScandEval.dataset_config _ scandeval_self)).*2)
  ∧ Forall (λ l, l ∈ ScandEval.id2label (ScandEval.dataset_config _ scandeval_self))
           ["negative"; "positive"]
  ∧ ScandEval._compute_metrics unit same_lists_metric scandeval_self
      (Entries (Label <$> ["negative"; "positive"]),
       [Label "negativ"; Label "positiv"])
      (ScandEval.id2label (ScandEval.dataset_config _ scandeval_self))
    = Raise KeyError.
Proof.
  assert (ScandEval._get_closest_word_edit_labels unit unit
            (λ _ _ _, ["negativ"; "Positiv!"]) scandeval_self [[1%Z]; [2%Z]] tt
          = Ok ["negative"; "positive"]) as Hpred.
  { vm_compute. reflexivity. }
  assert (∀ k v, (k, v) ∈ ScandEval.prompt_label_mapping
                            (ScandEval.dataset_config _ scandeval_self) →
            k ∈ ScandEval.id2label (ScandEval.dataset_config _ scandeval_self))
    as Hkeys.
  { intros k v Hkv. simpl in Hkv.
    apply elem_of_cons in Hkv as [[= -> _]|Hkv]; [by left|].
    apply list_elem_of_singleton in Hkv as [= -> _]. right. by left. }
  assert ("positive" ∈ ["negative"; "positive"]) as Hp by (right; left).
  assert (lower "positive"
          ∉ (ScandEval.prompt_label_mapping
               (ScandEval.dataset_config _ scandeval_self)).*2) as Hlow.
  { apply (bool_decide_unpack _). vm_compute. reflexivity. }
  split; [exact Hpred|]. split; [exact Hkeys|]. split; [exact Hp|].
  split; [exact Hlow|].
  exact (edit_distance_labels_are_english unit same_lists_metric unit
           (λ _ _ _, ["negativ"; "Positiv!"]) scandeval_self [[1%Z]; [2%Z]] tt
           ["negative"; "positive"] [Label "negativ"; Label "positiv"] "positive"
           Hpred Hkeys Hp Hlow).
Defined.

(** ** Stripped strings *)

Section StripFacts.

Import RawPredictions.

Lemma chars_inj s t : chars s = chars t → s = t.
Proof.
  intros H. rewrite <- (string_of_list_ascii_of_string s),
    <- (string_of_list_ascii_of_string t). unfold chars in H. by rewrite H.
Qed.

Lemma chars_rev_app_eq s : ∀ acc,
  chars (String.rev_app s acc) = (rev (chars s) ++ chars acc)%list.
Proof.
  induction s as [|c s IH]; intros acc; simpl; [done|].
  rewrite IH. simpl. by rewrite <- app_assoc.
Qed.

Lemma chars_rev_eq s : chars (String.rev s) = rev (chars s).
Proof. unfold String.rev. rewrite chars_rev_app_eq. simpl. by rewrite app_nil_r. Qed.

Lemma string_rev_involutive s : String.rev (String.rev s) = s.
Proof. apply chars_inj. by rewrite !chars_rev_eq, rev_involutive. Qed.

Lemma lstrip_head s c : head (chars (lstrip s)) = Some c → is_space c = false.
Proof.
  induction s as [|a s IH]; simpl; [done|].
  destruct (is_space a) eqn:Ha; [done|]. simpl. by intros [= <-].
Qed.

Lemma lstrip_id s :
  (∀ c, head (chars s) = Some c → is_space c = false) → lstrip s = s.
Proof. destruct s as [|a s]; simpl; [done|]. intros H. by rewrite (H a). Qed.

Lemma lstrip_suffix s : ∃ p, chars s = (p ++ chars (lstrip s))%list.
Proof.
  induction s as [|a s [p Hp]]; simpl; [by exists []|].
  destruct (is_space a).
  - exists (a :: p). simpl. by rewrite <- Hp.
  - by exists [].
Qed.

Lemma strip_head s c : head (chars (strip s)) = Some c → is_space c = false.
Proof.
  unfold strip. rewrite chars_rev_eq.
  destruct (lstrip_suffix (String.rev (lstrip s))) as [p Hp].
  rewrite chars_rev_eq in Hp. apply (f_equal (@rev ascii)) in Hp.
  rewrite rev_involutive, rev_app_distr in Hp.
  intros Hc. apply (lstrip_head s). rewrite Hp.
  by destruct (rev (chars (lstrip (String.rev (lstrip s))))).
Qed.

(** [strip] leaves a stripped string as it is. *)
Lemma strip_idem s : strip (strip s) = strip s.
Proof.
  unfold strip at 1. rewrite (lstrip_id (strip s)) by apply strip_head.
  unfold strip at 1. rewrite string_rev_involutive.
  rewrite (lstrip_id (lstrip _)) by apply lstrip_head. done.
Qed.

Lemma answer_span_stripped idx text a : answer_span idx text = Ok a → strip a = a.
Proof.
  unfold answer_span. intros (par & _ & H)%bind_Ok.
  apply bind_Ok in H as (line & _ & H). apply bind_Ok in H as (field & _ & [= <-]).
  apply strip_idem.
Qed.

End StripFacts.

Lemma mapM_Raise_elem_of {A B} (f : A → result B) (l : list A) (e : exn) :
  mapM f l = Raise e → ∃ x, x ∈ l ∧ f x = Raise e.
Proof.
  induction l as [|y l IH]; simpl; [done|].
  destruct (f y) as [b|e'] eqn:Hy; simpl.
  - destruct (mapM f l) as [k|e'']; simpl; [done|].
    intros [= ->]. destruct IH as (x & Hx & Hfx); [done|].
    exists x. split; [by right | done].
  - intros [= ->]. exists y. split; [by left | done].
Qed.

(** X15. [_extract_raw_predictions] raises nothing (where decoding raises
    nothing): it returns one string per generated sequence, and every
    returned string is stripped, on the primary path and on the fall-back
    path alike. *)
Theorem extract_raw_predictions_returns_stripped (cfg : RawPredictions.Config)
    (generated_sequences : list (list Z)) (tokenizer : RawPredictions.Tokenizer) :
  ∃ answers,
    RawPredictions._extract_raw_predictions cfg generated_sequences tokenizer
      = Ok answers
    ∧ length answers = length generated_sequences
    ∧ Forall (λ a, RawPredictions.strip a = a) answers.
Proof.
  unfold RawPredictions._extract_raw_predictions.
  destruct (mapM _ _) as [answers|e] eqn:Hm.
  - exists answers. split; [done|].
    pose proof (mapM_Ok_length _ _ _ Hm) as Hlen. rewrite length_fmap in Hlen.
    split; [done|]. apply mapM_Ok_Forall2 in Hm. apply Forall_forall.
    intros a [i Hi]%list_elem_of_lookup.
    destruct (Forall2_lookup_r _ _ _ _ _ Hm Hi) as (ids & _ & Hf).
    by eapply answer_span_stripped.
  - destruct (mapM_Raise_elem_of _ _ _ Hm) as (ids & _ & Hf).
    apply answer_span_only_IndexError in Hf as ->.
    eexists. split; [done|]. rewrite !length_fmap. split; [done|].
    apply Forall_fmap, Forall_fmap, Forall_forall. intros ids' _. simpl.
    apply strip_idem.
Qed.

(** ** The few-shot examples *)

Section FewShotFacts.

Import FewShot.

Context {Row : Type} (row_text row_label : Row → string).

Lemma first_row_Return (dataset : list Row) (example : Row) :
  first_row Row dataset = Return example ↔ head dataset = Some example.
Proof. destruct dataset; simpl; [done|]. split; by intros [= ->]. Qed.

Lemma first_row_Throw (dataset : list Row) (e : exception) :
  first_row Row dataset = Throw e → e = Exn IndexError.
Proof. destruct dataset; simpl; [|done]. by intros [= <-]. Qed.

Lemma next_saved (c c' : cycle) (label : string) :
  next c = Return (label, c') →
  saved c' = saved c ∧ label ∈ saved c ∨ saved c' = saved c ∧ label ∈ pending c.
Proof.
  unfold next. destruct (pending c) as [|l rest] eqn:Hp.
  - destruct (saved c) as [|l rest] eqn:Hs; [done|]. intros [= <- <-]. simpl.
    left. split; [done | by left].
  - intros [= <- <-]. simpl. right. split; [done | by left].
Qed.

Lemma filter_head_elem (P : Row → Prop) `{∀ x, Decision (P x)} (l : list Row) (x : Row) :
  head (filter P l) = Some x → P x ∧ x ∈ l.
Proof.
  intros Hh. apply (list_elem_of_filter P l x).
  destruct (filter P l); [done|]. injection Hh as ->. by left.
Qed.

(** The invariant of the loop of [_load_prepared_data]. *)
Lemma load_prepared_loop_inv (train0 : list Row) : ∀ remaining labels train acc examples,
  _load_prepared_data_few_shot_examples Row row_text row_label remaining labels train acc
  = Return examples →
  train ⊆ train0 → acc ⊆ train0 → NoDup (row_text <$> acc) →
  (∀ e x, e ∈ acc → x ∈ train → row_text x ≠ row_text e) →
  length examples = (length acc + remaining)%nat
  ∧ examples ⊆ train0 ∧ NoDup (row_text <$> examples).
Proof.
  induction remaining as [|n IH]; intros labels train acc examples; simpl.
  { intros [= <-] _ Hacc Hnd _. split; [lia | done]. }
  destruct (next labels) as [[label labels']|e]; [|done].
  destruct (first_row _ _) as [example|e] eqn:Hex; [|done].
  apply first_row_Return, filter_head_elem in Hex as [Hlab Hin].
  intros Hloop Htrain Hacc Hnd Hfresh.
  apply IH in Hloop as (Hlen & Hsub & Hnd').
  - rewrite length_app in Hlen. simpl in Hlen. split; [lia | done].
  - intros x [_ Hx]%list_elem_of_filter. by apply Htrain.
  - intros x [Hx| ->%list_elem_of_singleton]%elem_of_app; [by apply Hacc | by apply Htrain].
  - rewrite fmap_app. apply NoDup_app. split; [done|]. split; [|apply NoDup_singleton].
    intros t [e [-> He]]%list_elem_of_fmap [= Ht]%list_elem_of_singleton.
    by apply (Hfresh e example).
  - intros e x [He| ->%list_elem_of_singleton]%elem_of_app [Hne Hx]%list_elem_of_filter;
      [by apply Hfresh | done].
Qed.


Lemma next_inv (c c' : cycle) (label : string) :
  next c = Return (label, c') → pending c ⊆ saved c →
  saved c' = saved c ∧ label ∈ saved c ∧ pending c' ⊆ saved c'.
Proof.
  unfold next. intros Hn Hsub. destruct (pending c) as [|l rest] eqn:Hp.
  - destruct (saved c) as [|l rest] eqn:Hs; [done|]. injection Hn as <- <-. simpl.
    split; [done|]. split; [by left|]. intros x Hx. by right.
  - injection Hn as <- <-. simpl. split; [done|]. split; [apply Hsub; by left|].
    intros x Hx. apply Hsub. by right.
Qed.

Lemma next_Throw (c : cycle) (e : exception) :
  next c = Throw e → saved c = [].
Proof.
  unfold next. destruct (pending c); [|done]. by destruct (saved c).
Qed.

(** With a label to cycle through, the loop raises [IndexError] only. *)
Lemma load_prepared_loop_Throw : ∀ remaining labels train acc e,
  _load_prepared_data_few_shot_examples Row row_text row_label remaining labels train acc
  = Throw e →
  saved labels ≠ [] → pending labels ⊆ saved labels → e = Exn IndexError.
Proof.
  induction remaining as [|n IH]; intros labels train acc e; simpl; [done|].
  destruct (next labels) as [[label labels']|e'] eqn:Hn.
  - destruct (first_row _ _) as [example|e'] eqn:Hex.
    + intros Hloop Hs Hsub. destruct (next_inv _ _ _ Hn Hsub) as (Hs' & _ & Hsub').
      eapply IH; [exact Hloop | by rewrite Hs' | done].
    + intros [= <-] _ _. by eapply first_row_Throw.
  - intros _ Hs _. by apply next_Throw in Hn.
Qed.

(** What the loop of [_extract_few_shot_examples] appends: for a label of
    the cycle, the first row of the split with this label up to case. *)
Lemma few_shot_examples_loop_spec : ∀ remaining labels train acc,
  saved labels ≠ [] → pending labels ⊆ saved labels →
  (∀ l, l ∈ saved labels → ∃ x, x ∈ train ∧ lower (row_label x) = lower l) →
  ∃ examples,
    few_shot_examples_loop Row row_label remaining labels train acc = Return examples
    ∧ length examples = (length acc + remaining)%nat
    ∧ ∀ e, e ∈ examples →
        e ∈ acc ∨ ∃ l, l ∈ saved labels
                       ∧ head (filter (λ x, lower (row_label x) = lower l) train) = Some e.
Proof.
  induction remaining as [|n IH]; intros labels train acc Hs Hsub Hall; simpl.
  { exists acc. split; [done|]. split; [lia | by left]. }
  destruct (next labels) as [[label labels']|e'] eqn:Hn;
    [|by apply next_Throw in Hn].
  destruct (next_inv _ _ _ Hn Hsub) as (Hs' & Hlabel & Hsub').
  destruct (Hall label Hlabel) as (x & Hx & Hxl).
  destruct (filter (λ x, lower (row_label x) = lower label) train)
    as [|example rest] eqn:Hf.
  { exfalso. eapply (not_elem_of_nil x). rewrite <- Hf.
    by apply list_elem_of_filter. }
  simpl.
  destruct (IH labels' train (acc ++ [example])%list) as (examples & -> & Hlen & Hex).
  - by rewrite Hs'.
  - done.
  - by rewrite Hs'.
  - exists examples. split; [done|]. rewrite length_app in Hlen. simpl in Hlen.
    split; [lia|]. intros e He.
    destruct (Hex e He) as [[Hacc| ->%list_elem_of_singleton]%elem_of_app|(l & Hl & Hh)].
    + by left.
    + right. exists label. split; [done|]. by rewrite Hf.
    + right. exists l. split; [by rewrite <- Hs' | done].
Qed.

(** Two first rows with the same label up to case are one row. *)
Lemma first_with_label_unique (train : list Row) (l1 l2 : string) (e1 e2 : Row) :
  head (filter (λ x, lower (row_label x) = lower l1) train) = Some e1 →
  head (filter (λ x, lower (row_label x) = lower l2) train) = Some e2 →
  lower (row_label e1) = lower (row_label e2) → e1 = e2.
Proof.
  intros H1 H2 Heq.
  pose proof (filter_head_elem _ _ _ H1) as [Hl1 _].
  pose proof (filter_head_elem _ _ _ H2) as [Hl2 _]. simpl in Hl1, Hl2.
  assert (lower l1 = lower l2) as Hl by congruence.
  rewrite Hl in H1. congruence.
Qed.

End FewShotFacts.

Lemma injective_choice_length {A B} (R : A → B → Prop) (l : list A) : ∀ k : list B,
  NoDup l → (∀ a, a ∈ l → ∃ b, b ∈ k ∧ R a b) →
  (∀ a1 a2 b, R a1 b → R a2 b → a1 = a2) → (length l ≤ length k)%nat.
Proof.
  induction l as [|a l IH]; intros k Hnd Hch Hinj; simpl; [lia|].
  apply NoDup_cons in Hnd as [Ha Hnd].
  destruct (Hch a) as (b & Hb & Hab); [by left|].
  apply elem_of_Permutation in Hb as [k' Hk]. rewrite Hk. simpl.
  apply le_n_S, IH; [done| |done].
  intros a' Ha'. destruct (Hch a') as (b' & Hb' & Hab'); [by right|].
  exists b'. split; [|done]. rewrite Hk in Hb'.
  apply elem_of_cons in Hb' as [->|Hb']; [|done].
  exfalso. apply Ha. by rewrite (Hinj a a' b Hab Hab').
Qed.

(** X16. The few-shot examples that [_load_prepared_data] selects for a
    classification task, when the selection returns: as many as asked
    for, all rows of the shuffled training split, with pairwise different
    texts. *)
Theorem few_shot_examples_have_distinct_texts (Row : Type)
    (row_text row_label : Row → string) (num_few_shots : nat)
    (task_labels : list string) (shuffled_train few_shot_examples : list Row) :
  FewShot._load_prepared_data_few_shot_examples Row row_text row_label num_few_shots
    (FewShot.it_cycle task_labels) shuffled_train []
  = Return few_shot_examples →
  length few_shot_examples = num_few_shots
  ∧ few_shot_examples ⊆ shuffled_train
  ∧ NoDup (row_text <$> few_shot_examples).
Proof.
  intros Hloop.
  apply (load_prepared_loop_inv row_text row_label shuffled_train) in Hloop.
  - done.
  - done.
  - by intros x ?%elem_of_nil.
  - constructor.
  - by intros e x ?%elem_of_nil.
Qed.

Lemma few_shot_examples_have_distinct_texts_witness :
  FewShot._load_prepared_data_few_shot_examples (string * string) fst snd 2
    (FewShot.it_cycle ["positive"; "negative"]) FewShot.reviews []
  = Return [("bra", "positive"); ("nej", "negative")]
  ∧ length [("bra", "positive"); ("nej", "negative")] = 2
  ∧ [("bra", "positive"); ("nej", "negative")] ⊆ FewShot.reviews
  ∧ NoDup (fst <$> [("bra", "positive"); ("nej", "negative")]).
Proof.
  assert (FewShot._load_prepared_data_few_shot_examples (string * string) fst snd 2
            (FewShot.it_cycle ["positive"; "negative"]) FewShot.reviews []
          = Return [("bra", "positive"); ("nej", "negative")]) as Hloop.
  { vm_compute. reflexivity. }
  split; [exact Hloop|].
  exact (few_shot_examples_have_distinct_texts (string * string) fst snd 2
           ["positive"; "negative"] FewShot.reviews
           [("bra", "positive"); ("nej", "negative")] Hloop).
Defined.

(** X17. With a label to cycle through, asking [_load_prepared_data] for
    more few-shot examples than the training split has rows raises
    [IndexError]: a chosen text is never chosen again. *)
Theorem more_few_shots_than_rows_is_IndexError (Row : Type)
    (row_text row_label : Row → string) (num_few_shots : nat)
    (task_labels : list string) (shuffled_train : list Row) :
  task_labels ≠ [] →
  (length shuffled_train < num_few_shots)%nat →
  FewShot._load_prepared_data_few_shot_examples Row row_text row_label num_few_shots
    (FewShot.it_cycle task_labels) shuffled_train []
  = Throw (Exn IndexError).
Proof.
  intros Hlabels Hlen.
  destruct (FewShot._load_prepared_data_few_shot_examples _ _ _ _ _ _ _)
    as [examples|e] eqn:Hloop.
  - exfalso.
    apply (load_prepared_loop_inv row_text row_label shuffled_train) in Hloop
      as (Hn & Hsub & Hnd);
      [|done|by intros x ?%elem_of_nil|constructor|by intros e x ?%elem_of_nil].
    apply NoDup_fmap_1 in Hnd.
    pose proof (submseteq_length _ _ (NoDup_submseteq _ _ Hnd Hsub)) as Hle.
    simpl in Hn. lia.
  - f_equal. by eapply (load_prepared_loop_Throw row_text row_label).
Qed.

Lemma more_few_shots_than_rows_is_IndexError_witness :
  ["positive"; "negative"] ≠ []
  ∧ (length FewShot.reviews < 5)%nat
  ∧ FewShot._load_prepared_data_few_shot_examples (string * string) fst snd 5
      (FewShot.it_cycle ["positive"; "negative"]) FewShot.reviews []
    = Throw (Exn IndexError).
Proof.
  assert (["positive"; "negative"] ≠ []) as Hlabels by discriminate.
  assert (length FewShot.reviews < 5)%nat as Hlen by (vm_compute; lia).
  split; [exact Hlabels|]. split; [exact Hlen|].
  exact (more_few_shots_than_rows_is_IndexError (string * string) fst snd 5
           ["positive"; "negative"] FewShot.reviews Hlabels Hlen).
Defined.

(** X18. [_extract_few_shot_examples] on a classification task never
    removes a chosen row: with a row for every task label it returns as
    many examples as asked for, whatever the size of the split, and two
    returned examples with the same label up to case are the same row; so
    asking for more examples than there are labels returns a row twice. *)
Theorem extract_few_shot_examples_repeats_rows (Row : Type)
    (row_label : Row → string)
    (select_records : list Row → nat → outcome (list Row))
    (num_few_shots : nat) (task_labels : list string) (shuffled_train : list Row) :
  task_labels ≠ [] →
  (∀ l, l ∈ task_labels →
        ∃ x, x ∈ shuffled_train ∧ lower (row_label x) = lower l) →
  ∃ few_shot_examples,
    FewShot._extract_few_shot_examples Row row_label select_records
      "sequence-classification" num_few_shots task_labels shuffled_train
    = Return few_shot_examples
    ∧ length few_shot_examples = num_few_shots
    ∧ (∀ e1 e2, e1 ∈ few_shot_examples → e2 ∈ few_shot_examples →
                lower (row_label e1) = lower (row_label e2) → e1 = e2)
    ∧ ((length task_labels < num_few_shots)%nat → ¬ NoDup few_shot_examples).
Proof.
  intros Hlabels Hall. unfold FewShot._extract_few_shot_examples.
  rewrite decide_True by done.
  destruct (few_shot_examples_loop_spec row_label num_few_shots
              (FewShot.it_cycle task_labels) shuffled_train [])
    as (examples & Hloop & Hlen & Hex); [done..|].
  exists examples. split; [done|]. split; [done|].
  assert (∀ e, e ∈ examples →
            ∃ l, l ∈ task_labels
                 ∧ head (filter (λ x, lower (row_label x) = lower l) shuffled_train)
                   = Some e) as Hfirst.
  { intros e He. by destruct (Hex e He) as [?%elem_of_nil|?]. }
  split.
  - intros e1 e2 (l1 & _ & H1)%Hfirst (l2 & _ & H2)%Hfirst.
    by apply (first_with_label_unique row_label shuffled_train l1 l2).
  - intros Hmore Hnd.
    assert (length examples ≤ length task_labels)%nat as Hle.
    { apply (injective_choice_length
        (λ e l, head (filter (λ x, lower (row_label x) = lower l) shuffled_train)
                = Some e)); [done..|].
      intros a1 a2 b. congruence. }
    simpl in Hlen. lia.
Qed.

Lemma extract_few_shot_examples_repeats_rows_witness :
  ["positive"; "negative"] ≠ []
  ∧ (∀ l, l ∈ ["positive"; "negative"] →
          ∃ x, x ∈ FewShot.reviews ∧ lower (snd x) = lower l)
  ∧ FewShot._extract_few_shot_examples (string * string) snd (λ _ _, Return [])
      "sequence-classification" 3 ["positive"; "negative"] FewShot.reviews
    = Return [("bra", "positive"); ("nej", "negative"); ("bra", "positive")]
  ∧ ∃ few_shot_examples,
      FewShot._extract_few_shot_examples (string * string) snd
        (λ _ _, Return [])
        "sequence-classification" 3 ["positive"; "negative"] FewShot.reviews
      = Return few_shot_examples
      ∧ length few_shot_examples = 3
      ∧ (∀ e1 e2, e1 ∈ few_shot_examples → e2 ∈ few_shot_examples →
                  lower (snd e1) = lower (snd e2) → e1 = e2)
      ∧ ((length ["positive"; "negative"] < 3)%nat → ¬ NoDup few_shot_examples).
Proof.
  assert (["positive"; "negative"] ≠ []) as Hlabels by discriminate.
  assert (∀ l, l ∈ ["positive"; "negative"] →
            ∃ x, x ∈ FewShot.reviews ∧ lower (snd x) = lower l) as Hall.
  { intros l [->|[->|?%elem_of_nil]%elem_of_cons]%elem_of_cons; [| |done].
    - exists ("bra", "positive"). split; [by left | reflexivity].
    - exists ("nej", "negative"). split; [right; right; by left | reflexivity]. }
  split; [exact Hlabels|]. split; [exact Hall|].
  split; [vm_compute; reflexivity|].
  exact (extract_few_shot_examples_repeats_rows (string * string) snd
           (λ _ _, Return []) 3 ["positive"; "negative"] FewShot.reviews
           Hlabels Hall).
Defined.

(** ** The stop-word criterion *)

Section StopWordFacts.

Import StopWordCriteria.

Lemma torch_all_zip_eqb (a : list Z) : ∀ b,
  length a = length b → torch_all (zip_with Z.eqb a b) = true ↔ a = b.
Proof.
  unfold torch_all. induction a as [|x a IH]; intros [|y b]; simpl; try done.
  intros [= Hlen]. rewrite andb_true_iff, (IH b Hlen). unfold id.
  rewrite Z.eqb_eq. split; [by intros [-> ->] | by intros [= -> ->]].
Qed.

Lemma last_items_length (row : list Z) (k : nat) :
  (1 ≤ k ≤ length row)%nat → length (last_items row k) = k.
Proof.
  intros Hk. unfold last_items. destruct k as [|k]; [lia|].
  rewrite length_drop. lia.
Qed.

Lemma last_items_suffix (row w : list Z) :
  (1 ≤ length w ≤ length row)%nat →
  w = last_items row (length w) ↔ w `suffix_of` row.
Proof.
  intros Hk. unfold last_items. destruct (length w) as [|k] eqn:Hw; [lia|].
  split.
  - intros Heq. exists (take (length row - S k) row). rewrite Heq.
    by rewrite take_drop.
  - intros [p ->]. rewrite length_app, Hw.
    replace (length p + S k - S k)%nat with (length p) by lia.
    by rewrite drop_app_length.
Qed.

End StopWordFacts.

(** X19. Where every stop word has an item and no more items than the
    first row of the batch, [StopWordCriteria.__call__] returns without an
    exception, and it returns [True] exactly when the first row ends with
    one of the stop words; the other rows of the batch and the scores play
    no part. *)
Theorem stop_word_criteria_tests_suffix_of_first_row (Scores : Type)
    (self : StopWordCriteria.t) (row : list Z) (rows : list (list Z))
    (scores : Scores) :
  Forall (λ w, (1 ≤ length w ≤ length row)%nat) (StopWordCriteria.stop_word_ids self) →
  ∃ b, StopWordCriteria.call self (row :: rows) scores = Return b
       ∧ (b = true ↔ ∃ w, w ∈ StopWordCriteria.stop_word_ids self
                          ∧ w `suffix_of` row).
Proof.
  unfold StopWordCriteria.call.
  induction (StopWordCriteria.stop_word_ids self) as [|w ws IH]; intros Hwords;
    simpl.
  { exists false. split; [done|]. split; [done|]. by intros (w & ?%elem_of_nil & _). }
  apply Forall_cons in Hwords as [Hw Hws]. unfold StopWordCriteria.tensor_eq.
  rewrite decide_True by (by rewrite last_items_length).
  destruct (StopWordCriteria.torch_all _) eqn:Hall.
  - exists true. split; [done|]. split; [|done]. intros _. exists w.
    split; [by left|]. apply last_items_suffix; [done|].
    apply torch_all_zip_eqb; [by rewrite last_items_length | done].
  - destruct (IH Hws) as (b & -> & Hb). exists b. split; [done|]. rewrite Hb.
    split.
    + intros (w' & Hw' & Hs). exists w'. split; [by right | done].
    + intros (w' & [->|Hw']%elem_of_cons & Hs); [|by eauto].
      apply last_items_suffix in Hs; [|done].
      apply torch_all_zip_eqb in Hs; [congruence | by rewrite last_items_length].
Qed.

Lemma stop_word_criteria_tests_suffix_of_first_row_witness :
  Forall (λ w, (1 ≤ length w ≤ length [5; 7; 13; 13]%Z)%nat)
         (StopWordCriteria.stop_word_ids
            (StopWordCriteria.init [[271]; [13; 13]; [1]; [2]]%Z))
  ∧ StopWordCriteria.call (StopWordCriteria.init [[271]; [13; 13]; [1]; [2]]%Z)
      [[5; 7; 13; 13]; [5; 7; 8; 9]]%Z tt
    = Return true
  ∧ ∃ b, StopWordCriteria.call (StopWordCriteria.init [[271]; [13; 13]; [1]; [2]]%Z)
           ([5; 7; 13; 13]%Z :: [[5; 7; 8; 9]%Z]) tt
         = Return b
         ∧ (b = true ↔ ∃ w, w ∈ StopWordCriteria.stop_word_ids
                                   (StopWordCriteria.init
                                      [[271]; [13; 13]; [1]; [2]]%Z)
                            ∧ w `suffix_of` [5; 7; 13; 13]%Z).
Proof.
  assert (Forall (λ w, (1 ≤ length w ≤ length [5; 7; 13; 13]%Z)%nat)
            (StopWordCriteria.stop_word_ids
               (StopWordCriteria.init [[271]; [13; 13]; [1]; [2]]%Z))) as Hall.
  { repeat constructor; simpl; lia. }
  split; [exact Hall|]. split; [vm_compute; reflexivity|].
  exact (stop_word_criteria_tests_suffix_of_first_row unit
           (StopWordCriteria.init [[271]; [13; 13]; [1]; [2]]%Z)
           [5; 7; 13; 13]%Z [[5; 7; 8; 9]%Z] tt Hall).
Defined.

(** ** The search for a batch size *)

Section BatchSizeFacts.

Import BatchSizeSearch.

Context (Inputs : Type) (torch_full : Z → nat → outcome Inputs)
        (generate : Inputs → option string).

(** An out-of-memory failure at [batch_size]. *)
Lemma try_batch_sizes_Return (max_seq_len : nat) (b : Z) : ∀ sizes,
  try_batch_sizes Inputs torch_full generate max_seq_len sizes = Return b →
  ∃ i dummy_inputs,
    sizes !! i = Some b
    ∧ torch_full b max_seq_len = Return dummy_inputs
    ∧ generate dummy_inputs = None
    ∧ ∀ j b', (j < i)%nat → sizes !! j = Some b' →
        ∃ inputs message error,
          torch_full b' max_seq_len = Return inputs
          ∧ generate inputs = Some message
          ∧ error ∈ oom_error ∧ contains error message = true.
Proof.
  induction sizes as [|b0 sizes IH]; cbn [try_batch_sizes]; [done|].
  destruct (torch_full b0 max_seq_len) as [inputs|e] eqn:Hfull; [|done].
  destruct (generate inputs) as [message|] eqn:Hgen.
  - destruct (forallb (λ error, negb (contains error message)) oom_error) eqn:Hall;
      [done|].
    intros (i & dummy & Hi & Hf & Hg & Hbefore)%IH.
    exists (S i), dummy. split; [done|]. split; [done|]. split; [done|].
    intros [|j] b' Hj Hb'.
    + injection Hb' as <-. exists inputs, message.
      apply not_true_iff_false in Hall. rewrite forallb_forall in Hall.
      destruct (decide (Exists (λ error, contains error message = true) oom_error))
        as [Hex|Hno].
      * apply Exists_exists in Hex as (error & Herr & Hc).
        exists error. by rewrite list_elem_of_In in Herr |- *.
      * exfalso. apply Hall. intros error Herr. apply negb_true_iff.
        apply not_true_iff_false. intros Hc. apply Hno, Exists_exists.
        exists error. split; [by apply list_elem_of_In | done].
    + apply (Hbefore j b'); [lia | done].
  - intros [= <-]. exists 0%nat, inputs. split; [done|]. split; [done|].
    split; [done|]. intros j b' Hj. lia.
Qed.

Lemma try_batch_sizes_all_oom (max_seq_len : nat) : ∀ sizes,
  (∀ b, b ∈ sizes →
        ∃ inputs message error,
          torch_full b max_seq_len = Return inputs
          ∧ generate inputs = Some message
          ∧ error ∈ oom_error ∧ contains error message = true) →
  try_batch_sizes Inputs torch_full generate max_seq_len sizes
  = Throw (InvalidBenchmark "GPU out of memory, even with a batch size of 1!").
Proof.
  induction sizes as [|b sizes IH]; intros Hall; cbn [try_batch_sizes]; [done|].
  destruct (Hall b) as (inputs & message & error & -> & -> & Herr & Hc); [by left|].
  destruct (forallb (λ error, negb (contains error message)) oom_error) eqn:Hf.
  - rewrite forallb_forall in Hf. apply list_elem_of_In, Hf in Herr.
    by rewrite Hc in Herr.
  - apply IH. intros b' Hb'. apply Hall. by right.
Qed.

End BatchSizeFacts.

Lemma log2_int_nonneg (k B : Z) :
  (1 ≤ B)%Z → (2 ^ k ≤ B < 2 ^ (k + 1))%Z → (0 ≤ k)%Z.
Proof.
  intros HB [_ Hlt]. destruct (decide (0 ≤ k)%Z) as [|Hneg]; [done|]. exfalso.
  destruct (decide (k = -1)%Z) as [->|Hne]; [simpl in Hlt; lia|].
  rewrite Z.pow_neg_r in Hlt by lia. lia.
Qed.

(** X20. For a batch size of at least 1 (and the integer logarithm that
    numpy gives), the batch sizes that [_generate_single_iteration] tries
    start at the configured batch size, end at 1 and lie between the two;
    so when every attempt runs out of memory, the error that names batch
    size 1 is raised after batch size 1 was tried. *)
Theorem batch_size_candidates_end_at_one (log2_int : Z → Z) (Inputs : Type)
    (torch_full : Z → nat → outcome Inputs) (generate : Inputs → option string)
    (input_ids : list (list Z)) (max_seq_len : nat) (batch_size : Z) :
  (1 ≤ batch_size)%Z →
  (2 ^ log2_int batch_size ≤ batch_size < 2 ^ (log2_int batch_size + 1))%Z →
  BatchSizeSearch.max_seq_len_in_dataset input_ids = Return max_seq_len →
  head (BatchSizeSearch.batch_sizes log2_int batch_size) = Some batch_size
  ∧ last (BatchSizeSearch.batch_sizes log2_int batch_size) = Some 1%Z
  ∧ Forall (λ b, (1 ≤ b ≤ batch_size)%Z)
           (BatchSizeSearch.batch_sizes log2_int batch_size)
  ∧ ((∀ b, b ∈ BatchSizeSearch.batch_sizes log2_int batch_size →
           ∃ inputs message error,
             torch_full b max_seq_len = Return inputs
             ∧ generate inputs = Some message
             ∧ error ∈ BatchSizeSearch.oom_error
             ∧ BatchSizeSearch.contains error message = true) →
     BatchSizeSearch.find_batch_size log2_int Inputs torch_full generate
       input_ids batch_size
     = Throw (InvalidBenchmark "GPU out of memory, even with a batch size of 1!")).
Proof.
  intros HB Hlog Hmax. pose proof (log2_int_nonneg _ _ HB Hlog) as Hk.
  unfold BatchSizeSearch.find_batch_size. rewrite Hmax.
  unfold BatchSizeSearch.batch_sizes.
  set (k := log2_int batch_size) in *.
  assert (head ((λ n, batch_size `div` 2 ^ n)%Z <$> seqZ 0 (1 + k))
          = Some batch_size) as Hhead.
  { rewrite seqZ_cons by lia. simpl. by rewrite Z.div_1_r. }
  split; [done|]. split; [|split].
  - rewrite fmap_last. replace (1 + k)%Z with (Z.of_nat (S (Z.to_nat k))) by lia.
    rewrite seqZ_S, last_snoc. simpl. f_equal.
    rewrite Z2Nat.id by lia. rewrite Z.add_0_l.
    assert (0 < 2 ^ k)%Z by (apply Z.pow_pos_nonneg; lia).
    replace (k + 1)%Z with (Z.succ k) in Hlog by lia.
    rewrite Z.pow_succ_r in Hlog by lia.
    symmetry. apply (Z.div_unique batch_size (2 ^ k) 1 (batch_size - 2 ^ k)); lia.
  - apply Forall_fmap, Forall_seqZ. intros n Hn. simpl.
    assert (0 < 2 ^ n)%Z by (apply Z.pow_pos_nonneg; lia).
    assert (2 ^ n ≤ 2 ^ k)%Z by (apply Z.pow_le_mono_r; lia).
    split.
    + apply Z.div_le_lower_bound; lia.
    + apply Z.div_le_upper_bound; nia.
  - intros Hoom.
    destruct ((λ n, batch_size `div` 2 ^ n)%Z <$> seqZ 0 (1 + k)) as [|b sizes]
      eqn:Hsizes; [done|].
    by apply try_batch_sizes_all_oom.
Qed.

Lemma batch_size_candidates_end_at_one_witness :
  (1 ≤ 12)%Z
  ∧ (2 ^ Z.log2 12 ≤ 12 < 2 ^ (Z.log2 12 + 1))%Z
  ∧ BatchSizeSearch.max_seq_len_in_dataset [[1; 2]; [3]]%Z = Return 2%nat
  ∧ BatchSizeSearch.batch_sizes Z.log2 12 = [12; 6; 3; 1]%Z
  ∧ BatchSizeSearch.find_batch_size Z.log2 (Z * nat) (λ b n, Return (b, n))
      (λ _, Some "CUDA error: out of memory") [[1; 2]; [3]]%Z 12
    = Throw (InvalidBenchmark "GPU out of memory, even with a batch size of 1!")
  ∧ head (BatchSizeSearch.batch_sizes Z.log2 12) = Some 12%Z
  ∧ last (BatchSizeSearch.batch_sizes Z.log2 12) = Some 1%Z
  ∧ Forall (λ b, (1 ≤ b ≤ 12)%Z) (BatchSizeSearch.batch_sizes Z.log2 12)
  ∧ ((∀ b, b ∈ BatchSizeSearch.batch_sizes Z.log2 12 →
           ∃ inputs message error,
             (λ b n, Return (b, n)) b 2%nat = Return inputs
             ∧ (λ _ : Z * nat, Some "CUDA error: out of memory") inputs = Some message
             ∧ error ∈ BatchSizeSearch.oom_error
             ∧ BatchSizeSearch.contains error message = true) →
     BatchSizeSearch.find_batch_size Z.log2 (Z * nat) (λ b n, Return (b, n))
       (λ _, Some "CUDA error: out of memory") [[1; 2]; [3]]%Z 12
     = Throw (InvalidBenchmark "GPU out of memory, even with a batch size of 1!")).
Proof.
  assert (1 ≤ 12)%Z as HB by lia.
  assert (2 ^ Z.log2 12 ≤ 12 < 2 ^ (Z.log2 12 + 1))%Z as Hlog
    by (vm_compute; split; [discriminate | reflexivity]).
  assert (BatchSizeSearch.max_seq_len_in_dataset [[1; 2]; [3]]%Z = Return 2%nat)
    as Hmax by reflexivity.
  split; [exact HB|]. split; [exact Hlog|]. split; [exact Hmax|].
  split; [vm_compute; reflexivity|]. split; [vm_compute; reflexivity|].
  exact (batch_size_candidates_end_at_one Z.log2 (Z * nat) (λ b n, Return (b, n))
           (λ _, Some "CUDA error: out of memory") [[1; 2]; [3]]%Z 2 12
           HB Hlog Hmax).
Defined.

(** X21. When the search of [_generate_single_iteration] settles on a
    batch size, it is one of the candidates, generation on dummy inputs
    of that many rows raised nothing, and at every candidate tried before
    it generation raised an exception whose message holds one of the
    out-of-memory phrases. *)
Theorem found_batch_size_is_first_that_fits (log2_int : Z → Z) (Inputs : Type)
    (torch_full : Z → nat → outcome Inputs) (generate : Inputs → option string)
    (input_ids : list (list Z)) (batch_size b : Z) :
  BatchSizeSearch.find_batch_size log2_int Inputs torch_full generate
    input_ids batch_size
  = Return b →
  ∃ i max_seq_len dummy_inputs,
    BatchSizeSearch.max_seq_len_in_dataset input_ids = Return max_seq_len
    ∧ BatchSizeSearch.batch_sizes log2_int batch_size !! i = Some b
    ∧ torch_full b max_seq_len = Return dummy_inputs
    ∧ generate dummy_inputs = None
    ∧ ∀ j b', (j < i)%nat →
        BatchSizeSearch.batch_sizes log2_int batch_size !! j = Some b' →
        ∃ inputs message error,
          torch_full b' max_seq_len = Return inputs
          ∧ generate inputs = Some message
          ∧ error ∈ BatchSizeSearch.oom_error
          ∧ BatchSizeSearch.contains error message = true.
Proof.
  unfold BatchSizeSearch.find_batch_size.
  destruct (BatchSizeSearch.max_seq_len_in_dataset input_ids)
    as [max_seq_len|e]; [|done].
  destruct (BatchSizeSearch.batch_sizes log2_int batch_size) as [|b0 sizes];
    [done|].
  intros (i & dummy & Hi & Hf & Hg & Hbefore)%try_batch_sizes_Return.
  exists i, max_seq_len, dummy. eauto 10.
Qed.

Lemma found_batch_size_is_first_that_fits_witness :
  BatchSizeSearch.find_batch_size Z.log2 (Z * nat) (λ b n, Return (b, n))
    BatchSizeSearch.small_device [[1; 2]; [3]]%Z 12
  = Return 3%Z
  ∧ ∃ i max_seq_len dummy_inputs,
      BatchSizeSearch.max_seq_len_in_dataset [[1; 2]; [3]]%Z = Return max_seq_len
      ∧ BatchSizeSearch.batch_sizes Z.log2 12 !! i = Some 3%Z
      ∧ (λ b n, Return (b, n)) 3%Z max_seq_len = Return dummy_inputs
      ∧ BatchSizeSearch.small_device dummy_inputs = None
      ∧ ∀ j b', (j < i)%nat →
          BatchSizeSearch.batch_sizes Z.log2 12 !! j = Some b' →
          ∃ inputs message error,
            (λ b n, Return (b, n)) b' max_seq_len = Return inputs
            ∧ BatchSizeSearch.small_device inputs = Some message
            ∧ error ∈ BatchSizeSearch.oom_error
            ∧ BatchSizeSearch.contains error message = true.
Proof.
  assert (BatchSizeSearch.find_batch_size Z.log2 (Z * nat) (λ b n, Return (b, n))
            BatchSizeSearch.small_device [[1; 2]; [3]]%Z 12
          = Return 3%Z) as Hfound.
  { vm_compute. reflexivity. }
  split; [exact Hfound|].
  exact (found_batch_size_is_first_that_fits Z.log2 (Z * nat) (λ b n, Return (b, n))
           BatchSizeSearch.small_device [[1; 2]; [3]]%Z 12 3 Hfound).
Defined.
